(** * LSWMeshFlow: geometry import/export and spatial statistics

    A shallow embedding of [GeometryConversionUtils.cpp]: the OBJ and PLY
    importers with their chunk planning, the OBJ/VTK/PLY exporters, the
    polyline exporter, the convex-hull wrapper, the bounding-sphere
    approximations of point clouds and meshes, the k-d tree and the
    exhaustive distance statistics, together with the properties the
    specification states about them (C1 to C10) and further properties
    read off the code (marked X).

    Conventions of the embedding.
    - A mapped file is a [list ascii] (C [char]); pointers into the mapping
      are offsets ([nat]).  Reading at or past the end of the list yields
      NUL: the code reads [*file_end], which for a mapped file is the zero
      padding of the last page.
    - [unsigned int] and [unsigned long] are 32 bits wide (the file compiles
      on Windows only), held in [N] with the wrap-around written out.
    - [pmp::Scalar] is [float].  The parsers are generic in the scalar type
      and in the libc scanner.  The geometric routines are given over the
      real numbers, which is exact arithmetic, and the bounding spheres
      and the exhaustive minimum and maximum also in single precision
      ([Binary32]), which is what the code computes with. *)

From Stdlib Require Import Ascii String.
From Stdlib Require Import List Arith NArith ZArith Lia Bool.
From Stdlib Require Import Reals Lra Psatz.
From Stdlib Require Import Sorted Permutation.
From Stdlib Require Import Floats.SpecFloat.
Import ListNotations.

Open Scope string_scope.
Open Scope nat_scope.
Open Scope list_scope.

Set Implicit Arguments.

(* ===================================================================== *)
(** ** Characters and mapped memory *)
(* ===================================================================== *)

Definition NUL : ascii := Ascii.zero.
Definition LF : ascii := ascii_of_nat 10.
Definition CR : ascii := ascii_of_nat 13.
Definition SP : ascii := " "%char.

Definition bytes (s : string) : list ascii := list_ascii_of_string s.

(** The text of a file given line by line, each line ended by a newline. *)
Definition text (ls : list string) : list ascii :=
  concat (map (fun l => bytes l ++ [LF]) ls).

(** [*cursor] for a cursor at offset [i] of the mapping [mem]. *)
Definition peek (mem : list ascii) (i : nat) : ascii := nth i mem NUL.

(** [strncmp(cursor, lit, strlen(lit)) == 0] *)
Fixpoint starts_with (lit : list ascii) (mem : list ascii) (i : nat) : bool :=
  match lit with
  | [] => true
  | c :: lit' => Ascii.eqb (peek mem i) c && starts_with lit' mem (S i)
  end.

(** The loop [while (!stop( *cursor ) && cursor < end) cursor++], called
    with [fuel = end - cursor]. *)
Fixpoint scan_until (stop : ascii -> bool) (mem : list ascii)
         (fuel cursor : nat) : nat :=
  match fuel with
  | O => cursor
  | S f => if stop (peek mem cursor) then cursor
           else scan_until stop mem f (S cursor)
  end.

Definition skip_to (stop : ascii -> bool) (mem : list ascii)
           (cursor end_ : nat) : nat :=
  scan_until stop mem (end_ - cursor) cursor.

(* ===================================================================== *)
(** ** The C library scanners and stream formatters the code calls *)
(* ===================================================================== *)

Module Libc.

(** [isspace] in the "C" locale. *)
Definition isspace (c : ascii) : bool :=
  let n := nat_of_ascii c in
  (n =? 32) || ((9 <=? n) && (n <=? 13)).

Definition isdigit (c : ascii) : bool :=
  let n := nat_of_ascii c in (48 <=? n) && (n <=? 57).

Definition digit_val (c : ascii) : N := N.of_nat (nat_of_ascii c - 48).

Definition digit_char (d : N) : ascii := ascii_of_nat (48 + N.to_nat d).

Fixpoint count_while (p : ascii -> bool) (s : list ascii) : nat :=
  match s with
  | c :: s' => if p c then S (count_while p s') else O
  | [] => O
  end.

(** Value of a run of decimal digits, most significant first. *)
Definition digits_value (ds : list ascii) : N :=
  fold_left (fun a c => 10 * a + digit_val c)%N ds 0%N.

Definition ULONG_MAX : N := 4294967295.

(** [strtoul(s, &endp, 10)]: the value and [endp - s].  White space is
    skipped, an optional sign is read, then decimal digits; with no digit
    nothing is consumed and 0 is returned; a value out of range gives
    [ULONG_MAX]; a minus sign negates in the unsigned type. *)
Definition strtoul (s : list ascii) : N * nat :=
  let ws := count_while isspace s in
  let s1 := skipn ws s in
  let '(neg, sg) :=
    match s1 with
    | c :: _ => if Ascii.eqb c "-" then (true, 1)
                else if Ascii.eqb c "+" then (false, 1) else (false, 0)
    | [] => (false, 0)
    end in
  let s2 := skipn sg s1 in
  let nd := count_while isdigit s2 in
  if nd =? 0 then (0%N, 0)
  else
    let v := digits_value (firstn nd s2) in
    let r := if (ULONG_MAX <? v)%N then ULONG_MAX
             else if neg then ((ULONG_MAX + 1 - v) mod (ULONG_MAX + 1))%N
             else v in
    (r, ws + sg + nd).

(** [operator<<] of an output stream for an unsigned integer: its decimal
    digits.  [fuel] bounds the number of digits. *)
Fixpoint digits_le (fuel : nat) (n : N) : list N :=
  match fuel with
  | O => []
  | S f => if (n <? 10)%N then [n]
           else (n mod 10)%N :: digits_le f (n / 10)%N
  end.

Definition print_N (n : N) : list ascii :=
  map digit_char (rev (digits_le (S (N.to_nat (N.log2 n))) n)).

End Libc.

(* ===================================================================== *)
(** ** Data model *)
(* ===================================================================== *)

Definition vec3 (A : Type) : Type := (A * A * A)%type.

(** [struct BaseMeshGeometryData] *)
Record BaseMeshGeometryData (A : Type) : Type := mkGeom {
  Vertices : list (vec3 A);
  PolyIndices : list (list N);
  VertexNormals : list (vec3 A)
}.

(** [struct ChunkData], the per-thread result of the OBJ parser. *)
Record ChunkData (A : Type) : Type := mkChunk {
  chunkVertices : list (vec3 A);
  chunkVertexNormals : list (vec3 A);
  chunkPolyIndices : list (list N)
}.

Arguments mkGeom {A} _ _ _.
Arguments mkChunk {A} _ _ _.

Definition emptyChunk {A} : ChunkData A := mkChunk [] [] [].
Definition emptyGeom {A} : BaseMeshGeometryData A := mkGeom [] [] [].

(** A buffer is resolved when every polygon index is below the number of
    vertices. *)
Definition resolved {A} (g : BaseMeshGeometryData A) : Prop :=
  Forall (Forall (fun i => (i < N.of_nat (length (Vertices g)))%N))
         (PolyIndices g).

(* ===================================================================== *)
(** ** OBJ chunk parser and chunk planning *)
(* ===================================================================== *)

Section OBJ.

Variable Scalar : Type.

(** [std::strtof(s, &endp)]: the value and [endp - s]. *)
Variable strtof : list ascii -> Scalar * nat.

Definition is_LF (c : ascii) : bool := Ascii.eqb c LF.
Definition is_SP_or_LF (c : ascii) : bool := Ascii.eqb c SP || Ascii.eqb c LF.

(** The optional [/texcoord/normal] suffix of a face vertex: parsed and
    discarded. *)
Definition skip_slashes (mem : list ascii) (cursor : nat) : nat :=
  if Ascii.eqb (peek mem cursor) "/" then
    let cursor := S cursor in
    let cursor :=
      if negb (Ascii.eqb (peek mem cursor) "/")
      then cursor + snd (Libc.strtoul (skipn cursor mem))
      else cursor in
    if Ascii.eqb (peek mem cursor) "/" then
      let cursor := S cursor in
      cursor + snd (Libc.strtoul (skipn cursor mem))
    else cursor
  else cursor.

(** The inner loop of [ParseChunk] over the vertex references of one face
    record.  [None] only when the fuel runs out. *)
Fixpoint parse_face (mem : list ascii) (end_ fuel cursor : nat)
         (faceIndices : list N) : option (nat * list N) :=
  if is_LF (peek mem cursor) || (end_ <=? cursor)
  then Some (cursor, faceIndices)
  else
    match fuel with
    | O => None
    | S fuel' =>
        let '(vertexIndex, n) := Libc.strtoul (skipn cursor mem) in
        if n =? 0 then Some (cursor, faceIndices)
        else
          let cursor := cursor + n in
          if (vertexIndex =? 0)%N then Some (cursor, faceIndices)
          else
            let faceIndices := faceIndices ++ [(vertexIndex - 1)%N] in
            let cursor := skip_slashes mem cursor in
            let cursor := skip_to is_SP_or_LF mem cursor end_ in
            let cursor :=
              if Ascii.eqb (peek mem cursor) SP then S cursor else cursor in
            parse_face mem end_ fuel' cursor faceIndices
    end.

Definition push_vertex (isNormal : bool) (v : vec3 Scalar)
           (data : ChunkData Scalar) : ChunkData Scalar :=
  if isNormal
  then mkChunk (chunkVertices data) (chunkVertexNormals data ++ [v])
               (chunkPolyIndices data)
  else mkChunk (chunkVertices data ++ [v]) (chunkVertexNormals data)
               (chunkPolyIndices data).

Definition push_face (f : list N) (data : ChunkData Scalar)
  : ChunkData Scalar :=
  match f with
  | [] => data
  | _ => mkChunk (chunkVertices data) (chunkVertexNormals data)
                 (chunkPolyIndices data ++ [f])
  end.

(** Several records pushed one after the other. *)
Definition push_vertices (isNormal : bool) (vs : list (vec3 Scalar))
           (data : ChunkData Scalar) : ChunkData Scalar :=
  fold_left (fun d v => push_vertex isNormal v d) vs data.

Definition push_faces (fs : list (list N)) (data : ChunkData Scalar)
  : ChunkData Scalar :=
  fold_left (fun d f => push_face f d) fs data.

(** The outer loop of [ParseChunk].  [None] only when the fuel runs out. *)
Fixpoint ParseChunk_loop (mem : list ascii) (end_ fuel cursor : nat)
         (data : ChunkData Scalar) : option (ChunkData Scalar) :=
  if end_ <=? cursor then Some data
  else
    match fuel with
    | O => None
    | S fuel' =>
        if is_LF (peek mem cursor)
        then ParseChunk_loop mem end_ fuel' (S cursor) data
        else if starts_with (bytes "v ") mem cursor
                || starts_with (bytes "vn ") mem cursor
        then
          let isNormal := starts_with (bytes "vn ") mem cursor in
          let cursor := cursor + (if isNormal then 3 else 2) in
          let '(x, n) := strtof (skipn cursor mem) in
          let cursor := cursor + n in
          let '(y, n) := strtof (skipn cursor mem) in
          let cursor := cursor + n in
          let '(z, n) := strtof (skipn cursor mem) in
          let cursor := cursor + n in
          ParseChunk_loop mem end_ fuel' cursor
                          (push_vertex isNormal (x, y, z) data)
        else if starts_with (bytes "f ") mem cursor
        then
          let cursor := cursor + 2 in
          match parse_face mem end_ (end_ - cursor) cursor [] with
          | None => None
          | Some (cursor, faceIndices) =>
              let cursor := skip_to is_LF mem cursor end_ in
              let cursor := if cursor <? end_ then S cursor else cursor in
              ParseChunk_loop mem end_ fuel' cursor
                              (push_face faceIndices data)
          end
        else
          ParseChunk_loop mem end_ fuel' (skip_to is_LF mem cursor end_) data
    end.

(** [ParseChunk(start, end, data)] *)
Definition ParseChunk (mem : list ascii) (start end_ : nat)
           (data : ChunkData Scalar) : option (ChunkData Scalar) :=
  ParseChunk_loop mem end_ (end_ - start) start data.

(** The byte range the import loop hands to thread [i]: it starts at
    [i * chunk_size]; its end is moved forward past the next newline. *)
Definition obj_chunk (mem : list ascii) (file_size thread_count i : nat)
  : nat * nat :=
  let chunk_size := file_size / thread_count in
  let chunk_start := i * chunk_size in
  let chunk_end :=
    if i =? thread_count - 1 then file_size else chunk_start + chunk_size in
  let chunk_end := skip_to is_LF mem chunk_end file_size in
  let chunk_end :=
    if chunk_end =? file_size then chunk_end else S chunk_end in
  (chunk_start, chunk_end).

Definition obj_chunks (mem : list ascii) (thread_count : nat)
  : list (nat * nat) :=
  map (obj_chunk mem (length mem) thread_count) (seq 0 thread_count).

(** The merge loop: per-thread results are appended in thread order. *)
Definition merge_chunk (resultData : BaseMeshGeometryData Scalar)
           (result : ChunkData Scalar) : BaseMeshGeometryData Scalar :=
  mkGeom (Vertices resultData ++ chunkVertices result)
         (PolyIndices resultData ++ chunkPolyIndices result)
         (VertexNormals resultData ++ chunkVertexNormals result).

Fixpoint parse_chunks (mem : list ascii) (chunks : list (nat * nat))
  : option (list (ChunkData Scalar)) :=
  match chunks with
  | [] => Some []
  | (s, e) :: rest =>
      match ParseChunk mem s e emptyChunk, parse_chunks mem rest with
      | Some d, Some ds => Some (d :: ds)
      | _, _ => None
      end
  end.

(** The body of [ImportOBJMeshGeometryData] once the file is mapped:
    plan the chunks, parse each one, merge.  [None] only when a parser
    runs out of fuel. *)
Definition import_obj_mapped (mem : list ascii) (thread_count : nat)
  : option (BaseMeshGeometryData Scalar) :=
  match parse_chunks mem (obj_chunks mem thread_count) with
  | Some threadResults => Some (fold_left merge_chunk threadResults emptyGeom)
  | None => None
  end.

End OBJ.

(* ===================================================================== *)
(** ** A concrete scalar instance for running the parsers *)
(* ===================================================================== *)

(** The parsers above are generic in [strtof].  To run them on concrete
    files the scalar type is instantiated with [Z] and [strtof] with a
    scanner that reads what [strtof] reads of an integer literal: white
    space, an optional sign, decimal digits.  On the files used below
    (integer coordinates only) it consumes exactly what [strtof] consumes. *)
Module IntScalar.

Definition strtof (s : list ascii) : Z * nat :=
  let ws := Libc.count_while Libc.isspace s in
  let s1 := skipn ws s in
  let '(neg, sg) :=
    match s1 with
    | c :: _ => if Ascii.eqb c "-" then (true, 1)
                else if Ascii.eqb c "+" then (false, 1) else (false, 0)
    | [] => (false, 0)
    end in
  let s2 := skipn sg s1 in
  let nd := Libc.count_while Libc.isdigit s2 in
  if nd =? 0 then (0%Z, 0)
  else
    let v := Z.of_N (Libc.digits_value (firstn nd s2)) in
    ((if neg then - v else v)%Z, ws + sg + nd).

(** [operator<<] for such a scalar. *)
Definition print (z : Z) : list ascii :=
  match z with
  | Zneg p => "-"%char :: Libc.print_N (Npos p)
  | _ => Libc.print_N (Z.to_N z)
  end.

End IntScalar.

(* ===================================================================== *)
(** ** The environment: files, mapping, hardware, I/O trace *)
(* ===================================================================== *)

Inductive io_event : Type :=
| OpenRead (path : string)    (* CreateFile(.., GENERIC_READ, ..) or ifstream *)
| OpenWrite (path : string).  (* std::ofstream file(path) *)

Record World : Type := mkWorld {
  (** contents of the files that exist and can be opened for reading *)
  files : string -> option (list ascii);
  (** whether an output stream on the path opens *)
  can_write : string -> bool;
  (** the address MapViewOfFile returns; 0 when mapping fails *)
  view_base : N;
  (** [std::thread::hardware_concurrency()] *)
  hardware_concurrency : nat;
  (** the value the next [std::random_device] draw yields *)
  random_device : N;
  (** the I/O performed so far, oldest first *)
  trace : list io_event
}.

Definition log (e : io_event) (w : World) : World :=
  mkWorld (files w) (can_write w) (view_base w) (hardware_concurrency w)
          (random_device w) (trace w ++ [e]).

(** The stream is written and closed: the file now holds [content]. *)
Definition write_file (path : string) (content : list ascii) (w : World)
  : World :=
  mkWorld (fun p => if String.eqb p path then Some content else files w p)
          (can_write w) (view_base w) (hardware_concurrency w)
          (random_device w) (trace w).

(** How a call ends: it returns, it throws, or it runs into undefined
    behaviour (an out-of-bounds access). *)
Inductive outcome (A : Type) : Type :=
| Returns (a : A)
| Throws (what : string)
| Undefined.

Arguments Returns {A} a.
Arguments Throws {A} what.
Arguments Undefined {A}.

(** Modelled from the spec: [Utils::ExtractLowercaseFileExtensionFromPath]
    (utils/StringUtils.h is not among the sources): the text after the last
    ['.'] of the path in lower case, empty when the path has no ['.']. *)
Module Utils.

Definition tolower (c : ascii) : ascii :=
  let n := nat_of_ascii c in
  if (65 <=? n) && (n <=? 90) then ascii_of_nat (n + 32) else c.

Fixpoint after_last_dot (s : list ascii) (acc : option (list ascii))
  : option (list ascii) :=
  match s with
  | [] => acc
  | c :: s' =>
      if Ascii.eqb c "." then after_last_dot s' (Some [])
      else after_last_dot s' (option_map (fun e => e ++ [c]) acc)
  end.

Definition ExtractLowercaseFileExtensionFromPath (path : string) : string :=
  match after_last_dot (list_ascii_of_string path) None with
  | Some e => string_of_list_ascii (map tolower e)
  | None => EmptyString
  end.

End Utils.

(** An output stream in text mode writes each newline as the platform's
    line ending (CR LF on Windows); an input stream in text mode undoes it.
    File mappings see the raw bytes. *)
Definition to_text_mode (crlf : bool) (s : list ascii) : list ascii :=
  flat_map (fun c => if crlf && Ascii.eqb c LF then [CR; LF] else [c]) s.

Fixpoint from_text_mode (crlf : bool) (s : list ascii) : list ascii :=
  match s with
  | c :: s' =>
      match s' with
      | d :: _ =>
          if crlf && Ascii.eqb c CR && Ascii.eqb d LF
          then from_text_mode crlf s'
          else c :: from_text_mode crlf s'
      | [] => [c]
      end
  | [] => []
  end.

(** [std::getline] until it fails: the lines of the stream.  A last line
    without newline is still delivered unless it is empty. *)
Fixpoint getlines (s cur : list ascii) : list (list ascii) :=
  match s with
  | [] => match cur with [] => [] | _ => [cur] end
  | c :: s' => if Ascii.eqb c LF then cur :: getlines s' []
               else getlines s' (cur ++ [c])
  end.

Definition list_eqb (a b : list ascii) : bool :=
  String.eqb (string_of_list_ascii a) (string_of_list_ascii b).

Fixpoint prefix_of (p s : list ascii) : bool :=
  match p, s with
  | [], _ => true
  | c :: p', d :: s' => Ascii.eqb c d && prefix_of p' s'
  | _ :: _, [] => false
  end.

(** [if (!line.empty() && line.back() == '\r') line.pop_back();] *)
Definition strip_cr (line : list ascii) : list ascii :=
  match rev line with
  | c :: r => if Ascii.eqb c CR then rev r else line
  | [] => line
  end.

Module IStream.

(** [iss >> token] for a [std::string]: white space is skipped, then the
    characters up to the next white space are taken; it fails when none
    is left.  Returns the token and the rest of the stream. *)
Definition read_token (s : list ascii)
  : option (list ascii * list ascii) :=
  let s1 := skipn (Libc.count_while Libc.isspace s) s in
  let n := Libc.count_while (fun c => negb (Libc.isspace c)) s1 in
  if n =? 0 then None else Some (firstn n s1, skipn n s1).

Definition SIZE_MAX : N := 18446744073709551615.

(** [iss >> n] for a [size_t] that holds [old]: [(ok, value left in n,
    rest)].  When nothing but white space is left the extraction fails
    before it stores anything, and [n] keeps [old]; when what is left
    does not start a number it fails and stores 0; an overflowing number
    stores the maximum and fails. *)
Definition read_size_t (s : list ascii) (old : N)
  : bool * N * list ascii :=
  let ws := Libc.count_while Libc.isspace s in
  let s1 := skipn ws s in
  match s1 with
  | [] => (false, old, [])
  | c :: _ =>
      let '(neg, sg) :=
        if Ascii.eqb c "-" then (true, 1)
        else if Ascii.eqb c "+" then (false, 1) else (false, 0) in
      let s2 := skipn sg s1 in
      let nd := Libc.count_while Libc.isdigit s2 in
      if nd =? 0 then (false, 0%N, s2)
      else
        let v := Libc.digits_value (firstn nd s2) in
        if (SIZE_MAX <? v)%N then (false, SIZE_MAX, skipn nd s2)
        else (true,
              if neg then ((SIZE_MAX + 1 - v) mod (SIZE_MAX + 1))%N
              else v,
              skipn nd s2)
  end.

End IStream.

(* ===================================================================== *)
(** ** Exporters and importers *)
(* ===================================================================== *)

Section IO.

Variable Scalar : Type.

(** [std::strtof], as in section OBJ. *)
Variable strtof : list ascii -> Scalar * nat.

(** [stream << x] for a [float]. *)
Variable print_scalar : Scalar -> list ascii.

(** [stream >> x] for a [float]: the value and the rest of the stream, or
    failure. *)
Variable read_scalar : list ascii -> option (Scalar * list ascii).

(** [Utils::ExtractLowercaseFileExtensionFromPath] *)
Variable ExtractLowercaseFileExtensionFromPath : string -> string.

(** [std::mt19937]: its state, seeding, and one draw of
    [std::uniform_int_distribution<>(a, b)]. *)
Variable Gen : Type.
Variable mt19937_seed : N -> Gen.
Variable uniform_int : Z -> Z -> Gen -> Z * Gen.

Definition UINT_MOD : N := 4294967296.

Definition print_nat (n : nat) : list ascii := Libc.print_N (N.of_nat n).

(** [x << sep << y << sep << z << '\n'] *)
Definition coords (sep : string) (v : vec3 Scalar) : list ascii :=
  let '(x, y, z) := v in
  print_scalar x ++ bytes sep ++ print_scalar y ++ bytes sep
    ++ print_scalar z ++ [LF].

(** [std::ofstream file(absFileName)]: the attempt is traced; when the
    stream opens the file is created or truncated. *)
Definition open_write (path : string) (w : World) : bool * World :=
  let w := log (OpenWrite path) w in
  if can_write w path then (true, write_file path [] w) else (false, w).

(** All output of a stream, then [close]. *)
Definition write_text (path : string) (out : list ascii) (w : World)
  : World :=
  write_file path (to_text_mode true out) w.

(** *** OBJ export *)

Definition obj_face_line (indices : list N) : list ascii :=
  bytes "f"
    ++ flat_map (fun index => SP :: Libc.print_N ((index + 1) mod UINT_MOD))
                indices
    ++ [LF].

Definition obj_text (geomData : BaseMeshGeometryData Scalar) : list ascii :=
  flat_map (fun vertex => bytes "v " ++ coords " " vertex) (Vertices geomData)
    ++ flat_map (fun normal => bytes "vn " ++ coords " " normal)
                (VertexNormals geomData)
    ++ flat_map obj_face_line (PolyIndices geomData).

Definition ExportBaseMeshGeometryDataToOBJ
           (geomData : BaseMeshGeometryData Scalar) (absFileName : string)
           (w : World) : bool * World :=
  let '(ok, w) := open_write absFileName w in
  if negb ok then (false, w)
  else (true, write_text absFileName (obj_text geomData) w).

(** *** VTK export *)

Definition vtk_polygon_line (indices : list N) : list ascii :=
  print_nat (length indices)
    ++ flat_map (fun index => SP :: Libc.print_N index) indices ++ [LF].

Definition vtk_text (geomData : BaseMeshGeometryData Scalar) : list ascii :=
  let numIndices :=
    fold_left (fun n indices => n + (length indices + 1))
              (PolyIndices geomData) 0 in
  text ["# vtk DataFile Version 3.0"; "VTK output from mesh data";
        "ASCII"; "DATASET POLYDATA"]
    ++ bytes "POINTS " ++ print_nat (length (Vertices geomData))
    ++ bytes " float" ++ [LF]
    ++ flat_map (coords " ") (Vertices geomData)
    ++ bytes "POLYGONS " ++ print_nat (length (PolyIndices geomData))
    ++ [SP] ++ print_nat numIndices ++ [LF]
    ++ flat_map vtk_polygon_line (PolyIndices geomData)
    ++ match VertexNormals geomData with
       | [] => []
       | normals =>
           bytes "POINT_DATA " ++ print_nat (length normals) ++ [LF]
             ++ text ["NORMALS normals float"]
             ++ flat_map (coords " ") normals
       end.

Definition ExportBaseMeshGeometryDataToVTK
           (geomData : BaseMeshGeometryData Scalar) (absFileName : string)
           (w : World) : bool * World :=
  let '(ok, w) := open_write absFileName w in
  if negb ok then (false, w)
  else (true, write_text absFileName (vtk_text geomData) w).

(** *** PLY exports *)

Definition ply_header (nVerts : N) : list ascii :=
  text ["ply"; "format ascii 1.0"]
    ++ bytes "element vertex " ++ Libc.print_N nVerts ++ [LF]
    ++ text ["property float x"; "property float y"; "property float z";
             "end_header"].

Definition ExportPointsToPLY (meshData : BaseMeshGeometryData Scalar)
           (absFileName : string) (w : World) : bool * World :=
  if negb (String.eqb (ExtractLowercaseFileExtensionFromPath absFileName)
                      "ply")
  then (false, w)
  else
    match Vertices meshData with
    | [] => (false, w)
    | _ =>
        let '(ok, w) := open_write absFileName w in
        if negb ok then (false, w)
        else
          let '(ok, w) := open_write absFileName w in
          if negb ok then (false, w)
          else
            let nVerts :=
              (N.of_nat (length (Vertices meshData)) mod UINT_MOD)%N in
            (true,
             write_text absFileName
               (ply_header nVerts
                  ++ flat_map (coords " ") (Vertices meshData)) w)
    end.

(** [int] and [size_t] conversions around the distribution. *)
Definition to_int (z : Z) : Z :=
  ((z + 2147483648) mod 4294967296 - 2147483648)%Z.
Definition to_size_t (z : Z) : nat :=
  Z.to_nat (z mod 18446744073709551616).

(** The loop [indices.push_back(distrib(gen))], [nVerts] times. *)
Fixpoint sample_indices (b : Z) (nVerts : nat) (gen : Gen) : list nat :=
  match nVerts with
  | O => []
  | S n => let '(i, gen) := uniform_int 0 b gen in
           to_size_t i :: sample_indices b n gen
  end.

(** The generator the sampling starts from. *)
Definition sampling_generator (seed : option N) (w : World) : Gen :=
  match seed with
  | Some s => mt19937_seed s
  | None => mt19937_seed (random_device w)
  end.

(** The indices one call samples. *)
Definition sampled_indices (meshData : BaseMeshGeometryData Scalar)
           (nVerts : nat) (seed : option N) (w : World) : list nat :=
  sample_indices (to_int (Z.of_nat (length (Vertices meshData)) - 1))
                 nVerts (sampling_generator seed w).

(** The loop writing the sampled vertices; [None] when an index is out
    of range. *)
Fixpoint sampled_lines (vertices : list (vec3 Scalar)) (indices : list nat)
  : option (list ascii) :=
  match indices with
  | [] => Some []
  | idx :: rest =>
      match nth_error vertices idx, sampled_lines vertices rest with
      | Some vertex, Some out => Some (coords " " vertex ++ out)
      | _, _ => None
      end
  end.

Definition ExportSampledVerticesToPLY
           (meshData : BaseMeshGeometryData Scalar) (nVerts : nat)
           (absFileName : string) (seed : option N) (w : World)
  : outcome (bool * World) :=
  if negb (String.eqb (ExtractLowercaseFileExtensionFromPath absFileName)
                      "ply")
  then Returns (false, w)
  else
    let '(ok, w) := open_write absFileName w in
    if negb ok then Returns (false, w)
    else
      let b := to_int (Z.of_nat (length (Vertices meshData)) - 1) in
      if (b <? 0)%Z then Undefined
      else
        let indices := sampled_indices meshData nVerts seed w in
        let '(ok, w) := open_write absFileName w in
        if negb ok then Returns (false, w)
        else
          match sampled_lines (Vertices meshData) indices with
          | None => Undefined
          | Some lines =>
              Returns (true,
                       write_text absFileName
                         (ply_header (N.of_nat nVerts) ++ lines) w)
          end.

(** *** Polyline export *)

Fixpoint polyline_segments (i n indexOffset : nat) : list ascii :=
  match n with
  | O => []
  | S n' =>
      bytes "l " ++ print_nat (i + indexOffset) ++ [SP]
        ++ print_nat (i + indexOffset + 1) ++ [LF]
        ++ polyline_segments (S i) n' indexOffset
  end.

Fixpoint polyline_connections (polylines : list (list (vec3 Scalar)))
         (indexOffset : nat) : list ascii :=
  match polylines with
  | [] => []
  | polyline :: rest =>
      if length polyline <? 2 then polyline_connections rest indexOffset
      else
        polyline_segments 0 (length polyline - 1) indexOffset
          ++ polyline_connections rest (indexOffset + length polyline)
  end.

Definition ExportPolylinesToOBJ (polylines : list (list (vec3 Scalar)))
           (absFileName : string) (w : World) : bool * World :=
  if negb (String.eqb (ExtractLowercaseFileExtensionFromPath absFileName)
                      "obj")
  then (false, w)
  else
    let '(ok, w) := open_write absFileName w in
    if negb ok then (false, w)
    else
      (true,
       write_text absFileName
         (flat_map (flat_map (fun vertex => bytes "v " ++ coords " " vertex))
                   polylines
            ++ polyline_connections polylines 1) w).

(** *** Mapping a file for reading *)

(** [CreateFile], [CreateFileMapping], [MapViewOfFile]: the attempt is
    traced; it fails for a file that cannot be opened, for an empty file
    (a mapping of length zero cannot be created) and when no view is
    returned.  The size the code works with is the [DWORD] that
    [GetFileSize(file_handle, nullptr)] returns, which is the size of
    the file when that is below 4 GiB: the model is one of such files,
    see [file_size_fits]. *)
Definition map_file (path : string) (w : World)
  : option (list ascii) * World :=
  let w := log (OpenRead path) w in
  match files w path with
  | None => (None, w)
  | Some mem =>
      if (length mem =? 0) || (view_base w =? 0)%N then (None, w)
      else (Some mem, w)
  end.

Definition DWORD_MAX : N := 4294967295.

(** The file at [path], if there is one, has a size that
    [GetFileSize(file_handle, nullptr)] returns in full. *)
Definition file_size_fits (path : string) (w : World) : Prop :=
  forall mem,
    files w path = Some mem -> (N.of_nat (length mem) <= DWORD_MAX)%N.

(** [importInParallel ? std::thread::hardware_concurrency() : 1].  The
    code divides the file size by this count; a machine reporting 0
    threads makes that a division by zero, where the model's quotient is
    0.  The statements below take a positive count. *)
Definition thread_count_of (importInParallel : bool) (w : World) : nat :=
  if importInParallel then hardware_concurrency w else 1.

(** *** OBJ import *)

(** The optional chunk-id output vector is left out: it does not
    influence the returned data. *)
Definition ImportOBJMeshGeometryData (absFileName : string)
           (importInParallel : bool) (w : World)
  : option (BaseMeshGeometryData Scalar) * World :=
  if negb (String.eqb (ExtractLowercaseFileExtensionFromPath absFileName)
                      "obj")
  then (None, w)
  else
    match map_file absFileName w with
    | (None, w) => (None, w)
    | (Some mem, w) =>
        (import_obj_mapped strtof mem (thread_count_of importInParallel w),
         w)
    end.

(** *** PLY point clouds *)

(** [iss >> vertex[0] >> vertex[1] >> vertex[2]] *)
Definition read_vec3 (line : list ascii) : option (vec3 Scalar) :=
  match read_scalar line with
  | Some (x, rest) =>
      match read_scalar rest with
      | Some (y, rest) =>
          match read_scalar rest with
          | Some (z, _) => Some (x, y, z)
          | None => None
          end
      | None => None
      end
  | None => None
  end.

(** [std::string(lineStart, cursor)] *)
Definition substring (mem : list ascii) (lineStart cursor : nat)
  : list ascii :=
  map (peek mem) (seq lineStart (cursor - lineStart)).

Definition not_blank (c : ascii) : bool := negb (is_SP_or_LF c).

(** The loop of [ParsePointCloudChunk].  [None] only when the fuel runs
    out. *)
Fixpoint ParsePointCloudChunk_loop (mem : list ascii)
         (end_ fuel cursor : nat) (data : list (vec3 Scalar))
  : option (list (vec3 Scalar)) :=
  if end_ <=? cursor then Some data
  else
    match fuel with
    | O => None
    | S fuel' =>
        let cursor := skip_to not_blank mem cursor end_ in
        if end_ <=? cursor then Some data
        else
          let lineStart := cursor in
          let cursor := skip_to is_LF mem cursor end_ in
          if negb (is_LF (peek mem cursor)) && (cursor =? end_)
          then Some data
          else
            let line := strip_cr (substring mem lineStart cursor) in
            let cursor := if cursor <? end_ then S cursor else cursor in
            match read_vec3 line with
            | None => ParsePointCloudChunk_loop mem end_ fuel' cursor data
            | Some vertex =>
                ParsePointCloudChunk_loop mem end_ fuel' cursor
                                          (data ++ [vertex])
            end
    end.

Definition ParsePointCloudChunk (mem : list ascii) (start end_ : nat)
           (data : list (vec3 Scalar)) : option (list (vec3 Scalar)) :=
  ParsePointCloudChunk_loop mem end_ (end_ - start) start data.

Definition is_LF_or_NUL (c : ascii) : bool :=
  Ascii.eqb c LF || Ascii.eqb c NUL.

(** [iss >> element >> vertex >> vertexCount]: whether it succeeded and
    the value left in [vertexCount]. *)
Definition read_vertex_count (line : list ascii) (vertexCount : N)
  : bool * N :=
  match IStream.read_token line with
  | None => (false, vertexCount)
  | Some (_, rest) =>
      match IStream.read_token rest with
      | None => (false, vertexCount)
      | Some (_, rest) =>
          let '(ok, n, _) := IStream.read_size_t rest vertexCount in
          (ok, n)
      end
  end.

(** The loop of [ReadPLYVertexHeader]: the vertex count and the cursor
    it stops at.  [None] only when the fuel runs out. *)
Fixpoint ReadPLYVertexHeader_loop (mem : list ascii) (fuel cursor : nat)
         (vertexCount : N) : option (N * nat) :=
  if Ascii.eqb (peek mem cursor) NUL then Some (vertexCount, cursor)
  else
    match fuel with
    | O => None
    | S fuel' =>
        let lineStart := cursor in
        let cursor :=
          scan_until is_LF_or_NUL mem (length mem - cursor) cursor in
        let line := strip_cr (substring mem lineStart cursor) in
        let cursor :=
          if Ascii.eqb (peek mem cursor) NUL then cursor else S cursor in
        if prefix_of (bytes "element vertex") line
        then
          let '(ok, vertexCount) := read_vertex_count line vertexCount in
          if negb ok
          then ReadPLYVertexHeader_loop mem fuel' cursor vertexCount
          else if list_eqb line (bytes "end_header")
          then Some (vertexCount, cursor)
          else ReadPLYVertexHeader_loop mem fuel' cursor vertexCount
        else if list_eqb line (bytes "end_header")
        then Some (vertexCount, cursor)
        else ReadPLYVertexHeader_loop mem fuel' cursor vertexCount
    end.

(** [ReadPLYVertexHeader(start)] with [start] the beginning of the
    mapping: the pair it returns, the second component as an offset. *)
Definition ReadPLYVertexHeader (mem : list ascii) : option (N * nat) :=
  ReadPLYVertexHeader_loop mem (length mem) 0 0%N.

(** The byte range the point-cloud import hands to thread [i]. *)
Definition ply_chunk (mem : list ascii) (file_start file_end : nat)
           (thread_count i : nat) : nat * nat :=
  let adjusted_file_size := file_end - file_start in
  let chunk_size := Nat.max (adjusted_file_size / thread_count) 1 in
  let chunk_start := file_start + i * chunk_size in
  let chunk_end :=
    if i =? thread_count - 1 then file_end else chunk_start + chunk_size in
  let chunk_start :=
    if 0 <? i then
      let chunk_start := skip_to is_LF mem chunk_start file_end in
      if chunk_start <? file_end then S chunk_start else chunk_start
    else chunk_start in
  let chunk_end := skip_to is_LF mem chunk_end file_end in
  let chunk_end :=
    if chunk_end <? file_end then S chunk_end else chunk_end in
  (chunk_start, chunk_end).

Definition ply_chunks (mem : list ascii) (file_start thread_count : nat)
  : list (nat * nat) :=
  map (ply_chunk mem file_start (length mem) thread_count)
      (seq 0 thread_count).

Fixpoint parse_point_chunks (mem : list ascii) (chunks : list (nat * nat))
  : option (list (vec3 Scalar)) :=
  match chunks with
  | [] => Some []
  | (s, e) :: rest =>
      match ParsePointCloudChunk mem s e [], parse_point_chunks mem rest with
      | Some d, Some ds => Some (d ++ ds)
      | _, _ => None
      end
  end.

Definition ImportPLYPointCloudData (absFileName : string)
           (importInParallel : bool) (w : World)
  : option (list (vec3 Scalar)) * World :=
  if negb (String.eqb (ExtractLowercaseFileExtensionFromPath absFileName)
                      "ply")
  then (None, w)
  else
    match map_file absFileName w with
    | (None, w) => (None, w)
    | (Some mem, w) =>
        match ReadPLYVertexHeader mem with
        | None => (None, w)
        | Some (vertexCount, vertexDataStart) =>
            (* the pointer test [vertexDataStart == 0] *)
            if (view_base w + N.of_nat vertexDataStart =? 0)%N
            then (None, w)
            else
              let file_start := vertexDataStart in
              if length mem <=? file_start then (None, w)
              else
                (parse_point_chunks mem
                   (ply_chunks mem file_start
                               (thread_count_of importInParallel w)),
                 w)
        end
    end.

(** The header loop of [ImportPLYPointCloudDataMainThread]:
    [while (std::getline(file, line) && !headerEnded)].  Returns the
    vertex count, [headerEnded] and the lines not yet read. *)
Fixpoint main_thread_header (lines : list (list ascii)) (vertexCount : N)
         (headerEnded : bool) : N * bool * list (list ascii) :=
  match lines with
  | [] => (vertexCount, headerEnded, [])
  | line :: rest =>
      if headerEnded then (vertexCount, headerEnded, rest)
      else
        match IStream.read_token line with
        | Some (token, iss) =>
            if list_eqb token (bytes "element") then
              match IStream.read_token iss with
              | Some (token, iss) =>
                  if list_eqb token (bytes "vertex")
                  then
                    let '(_, n, _) :=
                      IStream.read_size_t iss vertexCount in
                    main_thread_header rest n headerEnded
                  else main_thread_header rest vertexCount headerEnded
              | None => main_thread_header rest vertexCount headerEnded
              end
            else if list_eqb token (bytes "end_header")
            then main_thread_header rest vertexCount true
            else main_thread_header rest vertexCount headerEnded
        | None => main_thread_header rest vertexCount headerEnded
        end
  end.

(** [vertices.reserve(n)] on the empty [std::vector<pmp::vec3>]: [None]
    when it returns, [Some what] when it throws, [std::length_error] for
    a count beyond [max_size()] and [std::bad_alloc] when the memory is
    not to be had. *)
Variable vector_reserve : N -> option string.

(** The exception of [vertices.reserve(vertexCount)] is caught nowhere
    in the function: the call ends with it. *)
Definition ImportPLYPointCloudDataMainThread (absFileName : string)
           (w : World) : outcome (option (list (vec3 Scalar)) * World) :=
  if negb (String.eqb (ExtractLowercaseFileExtensionFromPath absFileName)
                      "ply")
  then Returns (None, w)
  else
    let w := log (OpenRead absFileName) w in
    match files w absFileName with
    | None => Returns (None, w)
    | Some content =>
        let lines := getlines (from_text_mode true content) [] in
        let '(vertexCount, headerEnded, rest) :=
          main_thread_header lines 0%N false in
        if negb headerEnded || (vertexCount =? 0)%N
        then Returns (None, w)
        else
          match vector_reserve vertexCount with
          | Some what => Throws what
          | None =>
              Returns
                (Some (flat_map (fun line => match read_vec3 line with
                                             | Some vertex => [vertex]
                                             | None => []
                                             end) rest),
                 w)
          end
    end.

End IO.

(* ===================================================================== *)
(** ** Points over the reals *)
(* ===================================================================== *)

Local Open Scope R_scope.

(** Modelled from the spec: pmp's vector type with its arithmetic and
    [pmp::norm] (pmp/MatVec.h is not among the sources): points of
    three-dimensional space, their sum, difference and multiple by a
    scalar, and the Euclidean length by which the spec's distances are
    measured. *)
Definition Point : Type := vec3 R.

Definition vadd (a b : Point) : Point :=
  let '(ax, ay, az) := a in let '(bx, b_y, bz) := b in
  (ax + bx, ay + b_y, az + bz).

Definition vsub (a b : Point) : Point :=
  let '(ax, ay, az) := a in let '(bx, b_y, bz) := b in
  (ax - bx, ay - b_y, az - bz).

Definition vscale (s : R) (a : Point) : Point :=
  let '(ax, ay, az) := a in (s * ax, s * ay, s * az).

Definition sqrnorm (a : Point) : R :=
  let '(ax, ay, az) := a in ax * ax + ay * ay + az * az.

(** [pmp::norm] *)
Definition norm (a : Point) : R := sqrt (sqrnorm a).

Definition dot (a b : Point) : R :=
  let '(ax, ay, az) := a in let '(bx, b_y, bz) := b in
  ax * bx + ay * b_y + az * bz.

(** The point [q] lies in the ball around [center] with radius
    [radius + eps]. *)
Definition within_sphere (eps : R) (center : Point) (radius : R) (q : Point)
  : Prop :=
  norm (vsub q center) <= radius + eps.

(* ===================================================================== *)
(** ** Convex hull, bounding sphere, distance statistics *)
(* ===================================================================== *)

Section Geometry.

(** [pmp::normalize] (pmp/MatVec.h is not among the sources).  It is
    taken as a parameter: above a threshold [tiny >= 0] on the norm it
    returns the unit vector of its argument, at or below the threshold
    some vector no longer than 1 (the null vector, in pmp). *)
Variable normalize : Point -> Point.
Variable tiny : R.
Hypothesis tiny_nonneg : 0 <= tiny.
Hypothesis normalize_unit :
  forall v, tiny < norm v -> normalize v = vscale (/ norm v) v.
Hypothesis normalize_small :
  forall v, norm v <= tiny -> norm (normalize v) <= 1.

(** [quickhull::QuickHull<float>::getConvexHull(pts, true, false)]: the
    vertex buffer and the index buffer of the hull it returns. *)
Variable getConvexHull : list Point -> list Point * list N.

(** [nanoflann::KDTreeSingleIndexAdaptor::knnSearch] on the index built
    over [pts]: the (index, squared distance) pairs it finds for the
    query, nearest first.  It finds [num_closest] of them unless the
    tree holds fewer points. *)
Variable knnSearch : list Point -> Point -> nat -> list (nat * R).
Hypothesis knnSearch_count :
  forall pts q num_closest,
    length (knnSearch pts q num_closest)
    = Nat.min num_closest (length pts).

(** *** ComputeConvexHullFromPoints *)

(** The loop [for (unsigned i = 0; i < size; i += 3)] pushing the index
    triple at [i]; [None] when it reads outside the buffer.  [n] counts
    the iterations left. *)
Fixpoint hull_triangles (ids : list N) (i n : nat)
  : option (list (list N)) :=
  match n with
  | O => Some []
  | S n' =>
      match nth_error ids i, nth_error ids (i + 1), nth_error ids (i + 2),
            hull_triangles ids (i + 3) n' with
      | Some a, Some b, Some c, Some rest =>
          Some ([a mod UINT_MOD; b mod UINT_MOD; c mod UINT_MOD]%N :: rest)
      | _, _, _, _ => None
      end
  end.

Definition ComputeConvexHullFromPoints (points : list Point)
  : outcome (option (BaseMeshGeometryData R)) :=
  if (length points <? 4)%nat then Returns None
  else
    let '(hullVertBuffer, hullVertIdBuffer) := getConvexHull points in
    if (length hullVertBuffer <? 4)%nat then Returns None
    else if negb (length hullVertIdBuffer mod 3 =? 0)%nat then Returns None
    else
      match hull_triangles hullVertIdBuffer 0
                           ((length hullVertIdBuffer + 2) / 3) with
      | Some polys => Returns (Some (mkGeom hullVertBuffer polys []))
      | None => Undefined
      end.

(** *** ComputePointCloudBoundingSphere *)

(** First pass: the largest distance from [center]. *)
Fixpoint farthest_distance (center : Point) (points : list Point)
         (radius : R) : R :=
  match points with
  | [] => radius
  | point :: rest =>
      let dist := norm (vsub point center) in
      if Rlt_dec dist radius then farthest_distance center rest radius
      else farthest_distance center rest dist
  end.

(** Second pass: grow the sphere over every point outside it. *)
Fixpoint expand_sphere (points : list Point) (center : Point) (radius : R)
  : Point * R :=
  match points with
  | [] => (center, radius)
  | point :: rest =>
      let dist := norm (vsub point center) in
      if Rlt_dec dist radius then expand_sphere rest center radius
      else
        let newRadius := (radius + dist) / 2 in
        let moveBy := newRadius - radius in
        let direction := normalize (vsub point center) in
        expand_sphere rest (vadd center (vscale moveBy direction)) newRadius
  end.

Definition ComputePointCloudBoundingSphere (points : list Point)
  : outcome (Point * R) :=
  match points with
  | [] => Throws "Geometry::ComputePointCloudBoundingSphere: points.empty()!"
  | p0 :: _ =>
      let center := p0 in
      let radius := farthest_distance center points 0 in
      let center :=
        vscale (/ 2)
               (vadd (vadd center p0)
                     (vscale radius (normalize (vsub p0 center)))) in
      let radius := radius / 2 in
      Returns (expand_sphere points center radius)
  end.

(** *** Distance statistics over the k-d tree *)

Definition FLT_MAX : R := 340282346638528859811704183484516925440.

(** The lambda [do_knn_search] of [ComputeMinInterVertexDistance]: the
    result vectors are resized to the number of results found and
    [out_dist_sqr[1]] is read. *)
Definition min_do_knn_search (points : list Point) (p : Point)
  : outcome R :=
  let out_dist_sqr := map snd (knnSearch points p 2) in
  match nth_error out_dist_sqr 1 with
  | Some d => Returns d
  | None => Undefined
  end.

Fixpoint min_loop (points : list Point) (queries : list Point)
         (minDistance : R) : outcome R :=
  match queries with
  | [] => Returns minDistance
  | point :: rest =>
      match min_do_knn_search points point with
      | Returns currDistSq =>
          min_loop points rest
                   (if Rlt_dec currDistSq minDistance then currDistSq
                    else minDistance)
      | Throws what => Throws what
      | Undefined => Undefined
      end
  end.

(** The functions below return their value together with what they
    write to [std::cerr]. *)
Definition ComputeMinInterVertexDistance (points : list Point)
  : outcome R * list string :=
  match points with
  | [] =>
      (Returns (-1),
       ["Geometry::ComputeMinInterVertexDistance: points.empty()!"])
  | _ =>
      (match min_loop points points FLT_MAX with
       | Returns minDistance => Returns (sqrt minDistance)
       | Throws what => Throws what
       | Undefined => Undefined
       end, [])
  end.

(** The lambda [do_knn_search] of
    [ComputeNearestNeighborMeanInterVertexDistance].  With no neighbour
    requested [&ret_index[0]] indexes an empty vector; with a single
    result the quotient is by zero, which has no real value. *)
Definition mean_do_knn_search (points : list Point) (nNeighbors : nat)
           (p : Point) : outcome R :=
  match nNeighbors with
  | O => Undefined
  | _ =>
      let out_dist_sqr := map snd (knnSearch points p nNeighbors) in
      match length out_dist_sqr with
      | O => Returns 0
      | 1%nat => Undefined
      | num_results =>
          let totalDistSq := fold_left Rplus out_dist_sqr 0 in
          Returns (sqrt (totalDistSq / (INR num_results - 1)))
      end
  end.

Fixpoint mean_loop (points : list Point) (nNeighbors : nat)
         (queries : list Point) (totalDistance : R) : outcome R :=
  match queries with
  | [] => Returns totalDistance
  | point :: rest =>
      match mean_do_knn_search points nNeighbors point with
      | Returns d => mean_loop points nNeighbors rest (totalDistance + d)
      | Throws what => Throws what
      | Undefined => Undefined
      end
  end.

Definition ComputeNearestNeighborMeanInterVertexDistance
           (points : list Point) (nNeighbors : nat)
  : outcome R * list string :=
  match points with
  | [] =>
      (Returns (-1),
       ["Geometry::ComputeNearestNeighborMeanInterVertexDistance: points.empty()!"])
  | _ =>
      (match mean_loop points nNeighbors points 0 with
       | Returns totalDistance =>
           Returns (totalDistance / INR (length points))
       | Throws what => Throws what
       | Undefined => Undefined
       end, [])
  end.

End Geometry.

Local Close Scope R_scope.

(* ===================================================================== *)
(** ** Concrete instances of the parameters *)
(* ===================================================================== *)

(** The instances below stand in for the external libraries when a
    statement is evaluated on a concrete input. *)
Module Instances.

(** [stream >> x] on an integer literal. *)
Definition read_int (s : list ascii) : option (Z * list ascii) :=
  let '(v, n) := IntScalar.strtof s in
  if n =? 0 then None else Some (v, skipn n s).

(** A world holding the given files, every path writable, the mapping
    view at a non-null address. *)
Fixpoint lookup_file (fs : list (string * list ascii)) (p : string)
  : option (list ascii) :=
  match fs with
  | [] => None
  | (q, c) :: fs' => if String.eqb p q then Some c else lookup_file fs' p
  end.

Definition world_of (fs : list (string * list ascii)) (threads : nat)
           (entropy : N) : World :=
  mkWorld (lookup_file fs) (fun _ => true) 65536 threads entropy [].

(** The unit vector by division, the threshold being 0. *)
Definition normalize_exact (v : Point) : Point := vscale (/ norm v)%R v.

(** A hull routine that takes the first four points for a tetrahedron. *)
Definition tetrahedron_hull (pts : list Point) : list Point * list N :=
  (firstn 4 pts, [0; 1; 2; 0; 1; 3; 0; 2; 3; 1; 2; 3]%N).

(** Exhaustive nearest-neighbour search: all squared distances, sorted
    by insertion, the first [num_closest] kept. *)
Fixpoint insert_by_distance (x : nat * R) (l : list (nat * R))
  : list (nat * R) :=
  match l with
  | [] => [x]
  | y :: l' => if Rle_dec (snd x) (snd y) then x :: l
               else y :: insert_by_distance x l'
  end.

Definition knn_exhaustive (pts : list Point) (q : Point)
           (num_closest : nat) : list (nat * R) :=
  firstn num_closest
         (fold_right insert_by_distance []
            (combine (seq 0 (length pts))
                     (map (fun p => sqrnorm (vsub p q)) pts))).

(** A linear congruential generator in place of the Mersenne twister. *)
Definition lcg_seed (s : N) : N := s.
Definition lcg_uniform (a b : Z) (g : N) : Z * N :=
  ((a + Z.of_N g mod (b - a + 1))%Z,
   ((g * 1103515245 + 12345) mod 2147483648)%N).

(** [std::vector<pmp::vec3>::reserve] with memory always to be had: it
    throws for a count beyond [max_size()] only, which for the twelve
    bytes of a [pmp::vec3] is [PTRDIFF_MAX / 12]. *)
Definition vector_max_size : N := 768614336404564650.

Definition reserve_within_max_size (n : N) : option string :=
  if (vector_max_size <? n)%N then Some "vector::reserve" else None.

End Instances.

(* ===================================================================== *)
(** ** Exhaustive distance statistics *)
(* ===================================================================== *)

Section MoreGeometry.

Local Open Scope R_scope.

(** The nested loops [for i] / [for j = i + 1] the three exhaustive
    statistics share: [body] is run on the distance of every pair. *)
Fixpoint inner_pair_loop {A : Type} (body : A -> R -> A) (p : Point)
         (others : list Point) (acc : A) : A :=
  match others with
  | [] => acc
  | q :: rest => inner_pair_loop body p rest (body acc (norm (vsub p q)))
  end.

Fixpoint pair_loop {A : Type} (body : A -> R -> A) (points : list Point)
         (acc : A) : A :=
  match points with
  | [] => acc
  | p :: rest => pair_loop body rest (inner_pair_loop body p rest acc)
  end.

(** The bodies of the three loops. *)
Definition min_body (minDistance dist : R) : R :=
  if Rlt_dec dist minDistance then dist else minDistance.

Definition max_body (maxDistance dist : R) : R :=
  if Rgt_dec dist maxDistance then dist else maxDistance.

Definition mean_body (acc : R * nat) (dist : R) : R * nat :=
  let '(totalDistance, count) := acc in (totalDistance + dist, S count).

(** What a statistic returns and what it writes to [std::cout] and to
    [std::cerr]. *)
Record Reported : Type := mkReported {
  value : R;
  cout : list string;
  cerr : list string
}.

Definition ComputeMinInterVertexDistanceBruteForce (points : list Point)
  : Reported :=
  let warning :=
    "Geometry::ComputeMinInterVertexDistanceBruteForce [WARNING]: This function is brute-force. Not recommended for large data!" in
  if (length points <? 2)%nat
  then mkReported (-1) [warning]
         ["Geometry::ComputeMinInterVertexDistanceBruteForce: points.size() < 2! No meaningful distance can be computed!"]
  else
    mkReported
      (pair_loop min_body points FLT_MAX)
      [warning] [].

Definition ComputeMaxInterVertexDistanceBruteForce (points : list Point)
  : Reported :=
  let warning :=
    "Geometry::ComputeMaxInterVertexDistanceBruteForce [WARNING]: This function is brute-force. Not recommended for large data!" in
  if (length points <? 2)%nat
  then mkReported (-1) [warning]
         ["Geometry::ComputeMaxInterVertexDistanceBruteForce: points.size() < 2! No meaningful distance can be computed!"]
  else
    mkReported
      (pair_loop max_body points 0)
      [warning] [].

Definition ComputeMeanInterVertexDistanceBruteForce (points : list Point)
  : Reported :=
  let warning :=
    "Geometry::ComputeMeanInterVertexDistanceBruteForce [WARNING]: This function is brute-force. Not recommended for large data!" in
  if (length points <? 2)%nat
  then mkReported (-1) [warning]
         ["Geometry::ComputeMeanInterVertexDistanceBruteForce: points.size() < 2! No meaningful distance can be computed!"]
  else
    let '(totalDistance, count) :=
      pair_loop mean_body points (0, O) in
    mkReported
      (if (0 <? count)%nat then totalDistance / INR count else 0)
      [warning] [].

End MoreGeometry.

(** The distances the pair loop visits, in its order. *)
Fixpoint pair_distances (points : list Point) : list R :=
  match points with
  | [] => []
  | p :: rest => map (fun q => norm (vsub p q)) rest ++ pair_distances rest
  end.

(* ===================================================================== *)
(** ** Points in single precision *)
(* ===================================================================== *)

(** Modelled from the spec: the positions of the spec are of 32-bit float
    precision.  [pmp::Scalar] is [float], the binary32 format of IEEE 754
    with rounding to nearest even, which [SpecFloat] defines for a
    precision of 24 bits and exponents below 128: an operation returns
    the rounded result, an infinity when that is out of range, and a NaN
    when it is undefined.  pmp's vector arithmetic works by components
    and [pmp::norm] is the square root of the sum of the squares
    (pmp/MatVec.h is not among the sources). *)
Module Binary32.

Definition prec : Z := 24.
Definition emax : Z := 128.

Definition float : Type := spec_float.

Definition add : float -> float -> float := SFadd prec emax.
Definition sub : float -> float -> float := SFsub prec emax.
Definition mul : float -> float -> float := SFmul prec emax.
Definition div : float -> float -> float := SFdiv prec emax.
Definition sqrt : float -> float := SFsqrt prec emax.

(** [x < y] and [x <= y]: false when either side is a NaN. *)
Definition ltb : float -> float -> bool := SFltb.
Definition leb : float -> float -> bool := SFleb.

(** The float nearest to [m * 2^e]. *)
Definition of_Z (m e : Z) : float := binary_normalize prec emax m e false.

Definition zero : float := S754_zero false.
Definition half : float := of_Z 1 (-1).
Definition one : float := of_Z 1 0.
Definition two : float := of_Z 2 0.
Definition minus_one : float := of_Z (-1) 0.
Definition infinity : float := S754_infinity false.
Definition nan : float := S754_nan.

(** [std::numeric_limits<float>::max()] and [min()] *)
Definition FLT_MAX : float := S754_finite false 16777215 104.
Definition FLT_MIN : float := S754_finite false 8388608 (-149).

Definition Point : Type := vec3 float.

Definition vadd (a b : Point) : Point :=
  let '(ax, ay, az) := a in let '(bx, b_y, bz) := b in
  (add ax bx, add ay b_y, add az bz).

Definition vsub (a b : Point) : Point :=
  let '(ax, ay, az) := a in let '(bx, b_y, bz) := b in
  (sub ax bx, sub ay b_y, sub az bz).

Definition vscale (s : float) (a : Point) : Point :=
  let '(ax, ay, az) := a in (mul s ax, mul s ay, mul s az).

Definition vdiv (a : Point) (s : float) : Point :=
  let '(ax, ay, az) := a in (div ax s, div ay s, div az s).

Definition sqrnorm (a : Point) : float :=
  let '(ax, ay, az) := a in add (add (mul ax ax) (mul ay ay)) (mul az az).

(** [pmp::norm] *)
Definition norm (a : Point) : float := sqrt (sqrnorm a).

(** An instance of [pmp::normalize]: the vector over its norm when that
    exceeds [FLT_MIN], the null vector else. *)
Definition normalize_or_null (v : Point) : Point :=
  let n := norm v in
  vscale (if ltb FLT_MIN n then div one n else zero) v.

(** The point [q] lies in the ball around [center] with radius
    [radius + eps], as a test in single precision finds it. *)
Definition within_sphere (eps : float) (center : Point) (radius : float)
           (q : Point) : bool :=
  leb (norm (vsub q center)) (add radius eps).

Section Spheres.

(** [pmp::normalize], a parameter as above. *)
Variable normalize : Point -> Point.

(** *** ComputePointCloudBoundingSphere *)

(** First pass: the largest distance from [center]. *)
Fixpoint farthest_distance (center : Point) (points : list Point)
         (radius : float) : float :=
  match points with
  | [] => radius
  | point :: rest =>
      let dist := norm (vsub point center) in
      if ltb dist radius then farthest_distance center rest radius
      else farthest_distance center rest dist
  end.

(** Second pass: grow the sphere over every point outside it. *)
Fixpoint expand_sphere (points : list Point) (center : Point)
         (radius : float) : Point * float :=
  match points with
  | [] => (center, radius)
  | point :: rest =>
      let dist := norm (vsub point center) in
      if ltb dist radius then expand_sphere rest center radius
      else
        let newRadius := div (add radius dist) two in
        let moveBy := sub newRadius radius in
        let direction := normalize (vsub point center) in
        expand_sphere rest (vadd center (vscale moveBy direction)) newRadius
  end.

Definition ComputePointCloudBoundingSphere (points : list Point)
  : outcome (Point * float) :=
  match points with
  | [] => Throws "Geometry::ComputePointCloudBoundingSphere: points.empty()!"
  | p0 :: _ =>
      let center := p0 in
      let radius := farthest_distance center points zero in
      let center :=
        vdiv (vadd (vadd center p0)
                   (vscale radius (normalize (vsub p0 center)))) two in
      let radius := div radius two in
      Returns (expand_sphere points center radius)
  end.

(** *** ComputeMeshBoundingSphere *)

(** Modelled from the spec: a [pmp::SurfaceMesh] (pmp/SurfaceMesh.h is not
    among the sources) is seen through the positions of its vertices, in
    the order [mesh.vertices()] visits them; [mesh.is_empty()] holds when
    there is none. *)

(** First pass: the radius and the position of the vertex [vCurrent]
    farthest from [center]. *)
Fixpoint farthest_vertex (center : Point) (positions : list Point)
         (radius : float) (vCurrent : Point) : float * Point :=
  match positions with
  | [] => (radius, vCurrent)
  | position :: rest =>
      if ltb (norm (vsub position center)) radius
      then farthest_vertex center rest radius vCurrent
      else farthest_vertex center rest (norm (vsub position center)) position
  end.

Definition ComputeMeshBoundingSphere (positions : list Point)
  : outcome (Point * float) :=
  match positions with
  | [] =>
      Throws "Geometry::ComputeMeshBoundingSphere: Vertex positions are not available in the mesh."
  | vFirst :: _ =>
      let center := vFirst in
      let '(_, vCurrent) := farthest_vertex center positions zero vFirst in
      let center := vscale half (vadd center vCurrent) in
      let radius := norm (vsub vCurrent center) in
      Returns (expand_sphere positions center radius)
  end.

End Spheres.

(** *** Exhaustive distance statistics *)

(** The nested loops [for i] / [for j = i + 1]: [body] is run on the
    distance of every pair. *)
Fixpoint inner_pair_loop {A : Type} (body : A -> float -> A) (p : Point)
         (others : list Point) (acc : A) : A :=
  match others with
  | [] => acc
  | q :: rest => inner_pair_loop body p rest (body acc (norm (vsub p q)))
  end.

Fixpoint pair_loop {A : Type} (body : A -> float -> A)
         (points : list Point) (acc : A) : A :=
  match points with
  | [] => acc
  | p :: rest => pair_loop body rest (inner_pair_loop body p rest acc)
  end.

(** [if (dist < minDistance) minDistance = dist;] *)
Definition min_body (minDistance dist : float) : float :=
  if ltb dist minDistance then dist else minDistance.

(** [if (dist > maxDistance) maxDistance = dist;] *)
Definition max_body (maxDistance dist : float) : float :=
  if ltb maxDistance dist then dist else maxDistance.

(** What a statistic returns and what it writes to [std::cout] and to
    [std::cerr]. *)
Record Reported : Type := mkReported {
  value : float;
  cout : list string;
  cerr : list string
}.

Definition ComputeMinInterVertexDistanceBruteForce (points : list Point)
  : Reported :=
  let warning :=
    "Geometry::ComputeMinInterVertexDistanceBruteForce [WARNING]: This function is brute-force. Not recommended for large data!" in
  if (length points <? 2)%nat
  then mkReported minus_one [warning]
         ["Geometry::ComputeMinInterVertexDistanceBruteForce: points.size() < 2! No meaningful distance can be computed!"]
  else mkReported (pair_loop min_body points FLT_MAX) [warning] [].

Definition ComputeMaxInterVertexDistanceBruteForce (points : list Point)
  : Reported :=
  let warning :=
    "Geometry::ComputeMaxInterVertexDistanceBruteForce [WARNING]: This function is brute-force. Not recommended for large data!" in
  if (length points <? 2)%nat
  then mkReported minus_one [warning]
         ["Geometry::ComputeMaxInterVertexDistanceBruteForce: points.size() < 2! No meaningful distance can be computed!"]
  else mkReported (pair_loop max_body points zero) [warning] [].

(** The distances the pair loop visits, in its order. *)
Fixpoint pair_distances (points : list Point) : list float :=
  match points with
  | [] => []
  | p :: rest => map (fun q => norm (vsub p q)) rest ++ pair_distances rest
  end.

(** An infinity or a NaN. *)
Definition not_finite (x : float) : Prop :=
  x = S754_infinity false \/ x = S754_infinity true \/ x = nan.

(** The distance the loops compute for the points at two indices. *)
Definition origin : Point := (zero, zero, zero).

Definition distance_at (points : list Point) (i j : nat) : float :=
  norm (vsub (nth i points origin) (nth j points origin)).

End Binary32.

(** ** Vocabulary of the nearest-neighbour statements *)

(** The order of the results of a query: nearest first. *)
Definition nearer_or_equal (x y : nat * R) : Prop := (snd x <= snd y)%R.

(** All points with their squared distance to [q], nearest first, as the
    exhaustive search of [Instances] sorts them. *)
Definition sorted_by_distance (pts : list Point) (q : Point)
  : list (nat * R) :=
  fold_right Instances.insert_by_distance []
             (combine (seq 0 (length pts))
                      (map (fun p => sqrnorm (vsub p q)) pts)).

(** ** Vocabulary of the chunk plans *)

(** The [i]-th boundary of the point-cloud chunk plan: the start of the
    data, the nominal boundary moved behind the next newline, the end of
    the file. *)
Definition ply_boundary (mem : list ascii) (file_start file_end : nat)
           (thread_count i : nat) : nat :=
  if i =? 0 then file_start
  else if thread_count <=? i then file_end
  else
    let chunk_size := Nat.max ((file_end - file_start) / thread_count) 1 in
    let c := skip_to is_LF mem (file_start + i * chunk_size) file_end in
    if c <? file_end then S c else c.

(** ** Vocabulary of the point-cloud header statements *)

(** The first word [iss >> token] reads from a line is [word]. *)
Definition first_token_is (word : string) (line : list ascii) : bool :=
  match IStream.read_token line with
  | Some (token, _) => list_eqb token (bytes word)
  | None => false
  end.

(** ** Vocabulary of the OBJ import statements *)

(** A polygon the OBJ parser can push: it is not empty and each index is
    one less than a non-zero [unsigned long]. *)
Definition pushed_polygon (f : list N) : Prop :=
  f <> [] /\ Forall (fun i => (i < Libc.ULONG_MAX)%N) f.

(** ** Vocabulary of the polyline statements *)

(** The segment records of a list of polylines when the vertices of
    each polyline are numbered as their [v] records stand in the file,
    [first] being the number of the first vertex of the first
    polyline. *)
Fixpoint segments_by_vertex_number {A : Type} (polylines : list (list A))
         (first : nat) : list ascii :=
  match polylines with
  | [] => []
  | polyline :: rest =>
      polyline_segments 0 (length polyline - 1) first
        ++ segments_by_vertex_number rest (first + length polyline)
  end.

(* ===================================================================== *)
(** ** Vocabulary of the round-trip statement *)
(* ===================================================================== *)

(** The text behind a number does not go on with a digit. *)
Definition not_digit_first (rest : list ascii) : Prop :=
  match rest with
  | c :: _ => Libc.isdigit c = false
  | [] => True
  end.

(** The text behind a number goes on with white space. *)
Definition space_first (rest : list ascii) : Prop :=
  match rest with
  | c :: _ => Libc.isspace c = true
  | [] => False
  end.

(** Two vectors related coordinate by coordinate. *)
Definition vec3_rel {A : Type} (rel : A -> A -> Prop) (a b : vec3 A) : Prop :=
  let '(ax, ay, az) := a in let '(bx, b_y, bz) := b in
  rel ax bx /\ rel ay b_y /\ rel az bz.

(** The records of an exported OBJ file as they stand in the file, each
    closed by the line ending of a text-mode stream. *)
Definition obj_vertex_record {A : Type} (print_scalar : A -> list ascii)
           (isNormal : bool) (v : vec3 A) : list ascii :=
  let '(x, y, z) := v in
  bytes (if isNormal then "vn " else "v ")
    ++ print_scalar x ++ SP :: print_scalar y ++ SP :: print_scalar z
    ++ [CR; LF].

Definition obj_face_record (indices : list N) : list ascii :=
  bytes "f" ++ flat_map (fun index => SP :: Libc.print_N (index + 1)) indices
    ++ [CR; LF].

(** A point of an exported PLY file as it stands in the file. *)
Definition ply_point_record {A : Type} (print_scalar : A -> list ascii)
           (v : vec3 A) : list ascii :=
  let '(x, y, z) := v in
  print_scalar x ++ SP :: print_scalar y ++ SP :: print_scalar z
    ++ [CR; LF].

(** A vertex reference of a face record: the number of the vertex, then
    an optional texture number and an optional normal number behind
    slashes. *)
Definition obj_reference_suffix (texture normal : option N) : list ascii :=
  match texture, normal with
  | None, None => []
  | Some t, None => "/"%char :: Libc.print_N t
  | Some t, Some n =>
      "/"%char :: Libc.print_N t ++ "/"%char :: Libc.print_N n
  | None, Some n => "/"%char :: "/"%char :: Libc.print_N n
  end.

Definition obj_face_reference (ref : N * option N * option N)
  : list ascii :=
  let '(index, texture, normal) := ref in
  Libc.print_N (index + 1) ++ obj_reference_suffix texture normal.

Definition reference_index (ref : N * option N * option N) : N :=
  fst (fst ref).

(** The numbers of a reference fit [unsigned long]. *)
Definition reference_in_range (ref : N * option N * option N) : Prop :=
  let '(index, texture, normal) := ref in
  (index + 1 <= Libc.ULONG_MAX)%N
  /\ match texture with Some t => (t <= Libc.ULONG_MAX)%N | None => True end
  /\ match normal with Some n => (n <= Libc.ULONG_MAX)%N | None => True end.

(** A face record with such references, up to and including its line
    ending [eol]. *)
Definition obj_face_record_with (refs : list (N * option N * option N))
           (eol : list ascii) : list ascii :=
  bytes "f" ++ flat_map (fun ref => SP :: obj_face_reference ref) refs
    ++ eol.

Arguments starts_with : simpl never.
Arguments peek : simpl never.
Arguments skip_to : simpl never.
Arguments bytes : simpl never.

Unset Implicit Arguments.

(* ===================================================================== *)
(** * Properties *)
(* ===================================================================== *)

(** ** Termination of the parsing loops *)

Lemma scan_until_ge :
  forall stop mem fuel cursor, cursor <= scan_until stop mem fuel cursor.
Proof.
  intros stop mem fuel; induction fuel as [|f IH]; intros cursor; simpl.
  - lia.
  - destruct (stop (peek mem cursor)); [lia|].
    specialize (IH (S cursor)); lia.
Qed.

Lemma skip_to_ge :
  forall stop mem cursor end_, cursor <= skip_to stop mem cursor end_.
Proof. intros; apply scan_until_ge. Qed.

Lemma skip_slashes_ge :
  forall mem cursor, cursor <= skip_slashes mem cursor.
Proof.
  intros mem cursor; unfold skip_slashes.
  repeat match goal with
         | |- context [if ?b then _ else _] => destruct b
         end; simpl; lia.
Qed.

Section LoopTermination.

Variable Scalar : Type.
Variable strtof : list ascii -> Scalar * nat.

Lemma parse_face_total :
  forall mem end_ fuel cursor faceIndices,
    end_ - cursor <= fuel ->
    exists cursor' faceIndices',
      parse_face mem end_ fuel cursor faceIndices
      = Some (cursor', faceIndices') /\ cursor <= cursor'.
Proof.
  intros mem end_ fuel; induction fuel as [|f IH];
    intros cursor faceIndices Hfuel; simpl.
  - destruct (is_LF (peek mem cursor)); simpl; [eauto|].
    destruct (Nat.leb_spec end_ cursor); [eauto | lia].
  - destruct (is_LF (peek mem cursor)); simpl; [eauto|].
    destruct (Nat.leb_spec end_ cursor); [eauto|].
    destruct (Libc.strtoul (skipn cursor mem)) as [vertexIndex n].
    destruct (Nat.eqb_spec n 0); [eauto|].
    destruct (vertexIndex =? 0)%N; [eexists _, _; split; [reflexivity | lia]|].
    match goal with
    | |- context [parse_face mem end_ f ?c ?fi] =>
        assert (Hc : cursor + n <= c);
        [| destruct (IH c fi) as (c' & fi' & -> & Hle);
           [lia | eexists _, _; split; [reflexivity | lia]]]
    end.
    pose proof (skip_slashes_ge mem (cursor + n)).
    pose proof (skip_to_ge is_SP_or_LF mem
                           (skip_slashes mem (cursor + n)) end_).
    destruct (Ascii.eqb _ SP); lia.
Qed.

Lemma parse_face_mono :
  forall mem end_ fuel fuel' cursor faceIndices r,
    parse_face mem end_ fuel cursor faceIndices = Some r ->
    fuel <= fuel' ->
    parse_face mem end_ fuel' cursor faceIndices = Some r.
Proof.
  intros mem end_ fuel; induction fuel as [|f IH];
    intros fuel' cursor faceIndices r H Hle.
  - simpl in H. destruct fuel'; simpl;
      destruct (is_LF (peek mem cursor) || (end_ <=? cursor));
      congruence.
  - destruct fuel' as [|f']; [lia|]. simpl in *.
    destruct (is_LF (peek mem cursor) || (end_ <=? cursor)); [exact H|].
    destruct (Libc.strtoul (skipn cursor mem)) as [vertexIndex n].
    destruct (n =? 0); [exact H|].
    destruct (vertexIndex =? 0)%N; [exact H|].
    apply IH; [exact H | lia].
Qed.

Lemma ParseChunk_loop_unfold :
  forall mem end_ fuel cursor data,
    ParseChunk_loop strtof mem end_ (S fuel) cursor data =
    if end_ <=? cursor then Some data
    else if is_LF (peek mem cursor)
    then ParseChunk_loop strtof mem end_ fuel (S cursor) data
    else if starts_with (bytes "v ") mem cursor
            || starts_with (bytes "vn ") mem cursor
    then
      let isNormal := starts_with (bytes "vn ") mem cursor in
      let cursor := cursor + (if isNormal then 3 else 2) in
      let '(x, n) := strtof (skipn cursor mem) in
      let cursor := cursor + n in
      let '(y, n) := strtof (skipn cursor mem) in
      let cursor := cursor + n in
      let '(z, n) := strtof (skipn cursor mem) in
      let cursor := cursor + n in
      ParseChunk_loop strtof mem end_ fuel cursor
                      (push_vertex isNormal (x, y, z) data)
    else if starts_with (bytes "f ") mem cursor
    then
      let cursor := cursor + 2 in
      match parse_face mem end_ (end_ - cursor) cursor [] with
      | None => None
      | Some (cursor, faceIndices) =>
          let cursor := skip_to is_LF mem cursor end_ in
          let cursor := if cursor <? end_ then S cursor else cursor in
          ParseChunk_loop strtof mem end_ fuel cursor
                          (push_face faceIndices data)
      end
    else
      ParseChunk_loop strtof mem end_ fuel (skip_to is_LF mem cursor end_)
                      data.
Proof. reflexivity. Qed.

Lemma skip_to_progress :
  forall stop mem cursor end_,
    cursor < end_ -> stop (peek mem cursor) = false ->
    cursor < skip_to stop mem cursor end_.
Proof.
  intros stop mem cursor end_ Hlt Hstop. unfold skip_to.
  destruct (end_ - cursor) as [|k] eqn:Hk; [lia|]. simpl.
  rewrite Hstop.
  pose proof (scan_until_ge stop mem k (S cursor)). lia.
Qed.

Lemma ParseChunk_loop_total :
  forall mem end_ fuel cursor data,
    end_ - cursor <= fuel ->
    exists data', ParseChunk_loop strtof mem end_ fuel cursor data
                  = Some data'.
Proof.
  intros mem end_ fuel; induction fuel as [|f IH];
    intros cursor data Hfuel.
  - simpl. destruct (Nat.leb_spec end_ cursor); [eauto | lia].
  - rewrite ParseChunk_loop_unfold.
    destruct (Nat.leb_spec end_ cursor); [eauto|].
    destruct (is_LF (peek mem cursor)) eqn:Hnl; [apply IH; lia|].
    destruct (starts_with (bytes "v ") mem cursor
              || starts_with (bytes "vn ") mem cursor).
    + cbv zeta.
      repeat match goal with
             | |- context [strtof ?s] => destruct (strtof s)
             end.
      apply IH. destruct (starts_with (bytes "vn ") mem cursor); lia.
    + destruct (starts_with (bytes "f ") mem cursor).
      * cbv zeta.
        destruct (parse_face_total mem end_ (end_ - (cursor + 2))
                                   (cursor + 2) [] (Nat.le_refl _))
          as (c' & fi & -> & Hc).
        apply IH.
        pose proof (skip_to_ge is_LF mem c' end_).
        destruct (_ <? end_); lia.
      * apply IH.
        pose proof (skip_to_progress is_LF mem cursor end_ H Hnl). lia.
Qed.

Lemma ParseChunk_loop_mono :
  forall mem end_ fuel fuel' cursor data r,
    ParseChunk_loop strtof mem end_ fuel cursor data = Some r ->
    fuel <= fuel' ->
    ParseChunk_loop strtof mem end_ fuel' cursor data = Some r.
Proof.
  intros mem end_ fuel; induction fuel as [|f IH];
    intros fuel' cursor data r H Hle.
  - simpl in H. destruct fuel'; simpl;
      destruct (end_ <=? cursor); congruence.
  - destruct fuel' as [|f']; [lia|].
    rewrite ParseChunk_loop_unfold in *.
    destruct (end_ <=? cursor); [exact H|].
    destruct (is_LF (peek mem cursor)); [apply IH; [exact H | lia]|].
    destruct (starts_with (bytes "v ") mem cursor
              || starts_with (bytes "vn ") mem cursor).
    + cbv zeta in *.
      repeat match goal with
             | |- context [strtof ?s] => destruct (strtof s)
             end.
      apply IH; [exact H | lia].
    + destruct (starts_with (bytes "f ") mem cursor).
      * cbv zeta in *.
        destruct (parse_face mem end_ (end_ - (cursor + 2)) (cursor + 2) [])
          as [[c' fi]|]; [|discriminate].
        apply IH; [exact H | lia].
      * apply IH; [exact H | lia].
Qed.

(** [ParseChunk] returns on every input. *)
Lemma ParseChunk_total :
  forall mem start end_ data,
    exists data', ParseChunk strtof mem start end_ data = Some data'.
Proof.
  intros. unfold ParseChunk. apply ParseChunk_loop_total. lia.
Qed.

(** A run of the loop with any fuel settles what [ParseChunk] returns. *)
Lemma ParseChunk_of_run :
  forall mem start end_ data fuel r,
    ParseChunk_loop strtof mem end_ fuel start data = Some r ->
    ParseChunk strtof mem start end_ data = Some r.
Proof.
  intros mem start end_ data fuel r H. unfold ParseChunk.
  destruct (ParseChunk_loop_total mem end_ (end_ - start) start data
                                  (Nat.le_refl _)) as [r' Hr'].
  rewrite Hr'. f_equal.
  pose proof (ParseChunk_loop_mono _ _ _ _ _ _ _ H
                (Nat.le_max_l fuel (end_ - start))) as H1.
  pose proof (ParseChunk_loop_mono _ _ _ _ _ _ _ Hr'
                (Nat.le_max_r fuel (end_ - start))) as H2.
  congruence.
Qed.

Lemma parse_chunks_total :
  forall mem chunks,
    exists ds, parse_chunks strtof mem chunks = Some ds.
Proof.
  intros mem chunks; induction chunks as [|[s e] rest [ds IH]]; simpl.
  - eauto.
  - destruct (ParseChunk_total mem s e emptyChunk) as [d ->].
    rewrite IH. eauto.
Qed.

(** The OBJ import, once the file is mapped, returns a buffer for every
    file and every thread count. *)
Lemma import_obj_mapped_total :
  forall mem thread_count,
    exists g, import_obj_mapped strtof mem thread_count = Some g.
Proof.
  intros. unfold import_obj_mapped.
  destruct (parse_chunks_total mem (obj_chunks mem thread_count))
    as [ds ->]. eauto.
Qed.

End LoopTermination.

Lemma scan_until_stops :
  forall stop mem fuel cursor,
    scan_until stop mem fuel cursor < cursor + fuel ->
    stop (peek mem (scan_until stop mem fuel cursor)) = true.
Proof.
  intros stop mem fuel; induction fuel as [|f IH]; intros cursor H; simpl in *.
  - lia.
  - destruct (stop (peek mem cursor)) eqn:E; [exact E|].
    apply IH. lia.
Qed.

Lemma peek_past_end :
  forall mem c, length mem <= c -> peek mem c = NUL.
Proof. intros mem c H. unfold peek. apply nth_overflow. exact H. Qed.

Section PointCloudTermination.

Variable Scalar : Type.
Variable read_scalar : list ascii -> option (Scalar * list ascii).

Lemma ParsePointCloudChunk_loop_total :
  forall mem end_ fuel cursor data,
    end_ - cursor <= fuel ->
    exists data',
      ParsePointCloudChunk_loop read_scalar mem end_ fuel cursor data
      = Some data'.
Proof.
  intros mem end_ fuel; induction fuel as [|f IH]; intros cursor data Hfuel;
    cbn [ParsePointCloudChunk_loop].
  - destruct (Nat.leb_spec end_ cursor); [eauto | lia].
  - destruct (Nat.leb_spec end_ cursor); [eauto|].
    set (c1 := skip_to not_blank mem cursor end_).
    assert (Hc1 : cursor <= c1) by apply skip_to_ge.
    destruct (Nat.leb_spec end_ c1); [eauto|].
    assert (Hstop : not_blank (peek mem c1) = true).
    { apply scan_until_stops. fold (skip_to not_blank mem cursor end_).
      fold c1. lia. }
    assert (Hnl : is_LF (peek mem c1) = false).
    { unfold not_blank, is_SP_or_LF, is_LF in *.
      destruct (Ascii.eqb (peek mem c1) LF); [|reflexivity].
      rewrite orb_true_r in Hstop. discriminate. }
    pose proof (skip_to_progress is_LF mem c1 end_ H0 Hnl) as Hc2.
    set (c2 := skip_to is_LF mem c1 end_) in *.
    destruct (negb (is_LF (peek mem c2)) && (c2 =? end_)); [eauto|].
    destruct (read_vec3 read_scalar _);
      apply IH; destruct (c2 <? end_); lia.
Qed.

Lemma ParsePointCloudChunk_total :
  forall mem start end_ data,
    exists data',
      ParsePointCloudChunk read_scalar mem start end_ data = Some data'.
Proof.
  intros. unfold ParsePointCloudChunk.
  apply ParsePointCloudChunk_loop_total. lia.
Qed.

End PointCloudTermination.

Lemma ReadPLYVertexHeader_loop_total :
  forall mem fuel cursor vertexCount,
    length mem - cursor <= fuel ->
    exists r, ReadPLYVertexHeader_loop mem fuel cursor vertexCount = Some r.
Proof.
  intros mem fuel; induction fuel as [|f IH]; intros cursor vertexCount Hfuel;
    cbn [ReadPLYVertexHeader_loop].
  - destruct (Ascii.eqb_spec (peek mem cursor) NUL) as [|Hn]; [eauto|].
    exfalso. apply Hn. apply peek_past_end. lia.
  - destruct (Ascii.eqb_spec (peek mem cursor) NUL) as [|Hn]; [eauto|].
    assert (Hlt : cursor < length mem).
    { destruct (Nat.lt_ge_cases cursor (length mem)); [assumption|].
      exfalso. apply Hn. apply peek_past_end. assumption. }
    set (c1 := scan_until is_LF_or_NUL mem (length mem - cursor) cursor).
    assert (Hc1 : cursor <= c1) by apply scan_until_ge.
    set (c2 := if Ascii.eqb (peek mem c1) NUL then c1 else S c1).
    assert (Hc2 : cursor < c2).
    { subst c2. destruct (Ascii.eqb_spec (peek mem c1) NUL) as [E|]; [|lia].
      destruct (Nat.eq_dec c1 cursor) as [Eq|]; [|lia].
      rewrite Eq in E. contradiction. }
    destruct (prefix_of _ _).
    + destruct (read_vertex_count _ _) as [ok n].
      destruct (negb ok); [apply IH; lia|].
      destruct (list_eqb _ _); [eauto | apply IH; lia].
    + destruct (list_eqb _ _); [eauto | apply IH; lia].
Qed.

(** The header reader returns on every file. *)
Lemma ReadPLYVertexHeader_total :
  forall mem, exists r, ReadPLYVertexHeader mem = Some r.
Proof.
  intros mem. unfold ReadPLYVertexHeader.
  apply ReadPLYVertexHeader_loop_total. lia.
Qed.

(* ===================================================================== *)
(** ** Chunk planning *)
(* ===================================================================== *)

(** With one thread the OBJ import parses the whole file as one chunk. *)
Lemma obj_chunks_single :
  forall mem, obj_chunks mem 1 = [(0, length mem)].
Proof.
  intros mem. unfold obj_chunks. cbn [seq map]. unfold obj_chunk.
  cbn [Nat.sub Nat.eqb Nat.mul Nat.add].
  unfold skip_to. rewrite Nat.sub_diag. cbn [scan_until].
  rewrite Nat.eqb_refl. reflexivity.
Qed.

(** The point-cloud import moves the start of every chunk but the first
    exactly as it moved the end of the chunk before it: consecutive
    point-cloud chunks share their boundary. *)
Lemma ply_chunks_contiguous :
  forall mem file_start file_end thread_count i,
    S i < thread_count ->
    snd (ply_chunk mem file_start file_end thread_count i)
    = fst (ply_chunk mem file_start file_end thread_count (S i)).
Proof.
  intros mem file_start file_end thread_count i Hi.
  unfold ply_chunk. cbv zeta. simpl fst. simpl snd.
  destruct (Nat.eqb_spec i (thread_count - 1)); [lia|].
  change (0 <? S i) with true. cbv iota.
  set (chunk_size := Nat.max ((file_end - file_start) / thread_count) 1).
  replace (file_start + (chunk_size + i * chunk_size))
    with (file_start + i * chunk_size + chunk_size) by lia.
  reflexivity.
Qed.

Lemma scan_until_le :
  forall stop mem fuel cursor,
    scan_until stop mem fuel cursor <= cursor + fuel.
Proof.
  intros stop mem fuel; induction fuel as [|f IH]; intros cursor; simpl.
  - lia.
  - destruct (stop (peek mem cursor)); [lia|].
    specialize (IH (S cursor)). lia.
Qed.

(** The first point-cloud chunk starts where the data start and the last
    one ends where the file ends. *)
Lemma ply_chunks_span :
  forall mem file_start file_end thread_count,
    0 < thread_count ->
    fst (ply_chunk mem file_start file_end thread_count 0) = file_start
    /\ snd (ply_chunk mem file_start file_end thread_count
                      (thread_count - 1)) = file_end.
Proof.
  intros mem file_start file_end thread_count Hw. unfold ply_chunk.
  cbv zeta. cbn [fst snd]. split.
  - cbn [Nat.ltb Nat.leb Nat.mul]. lia.
  - rewrite Nat.eqb_refl. unfold skip_to. rewrite Nat.sub_diag.
    cbn [scan_until]. rewrite Nat.ltb_irrefl. reflexivity.
Qed.

(** A boundary between two point-cloud chunks whose nominal position is
    inside the file is the end of the file or lies right behind a
    newline. *)
Lemma ply_chunk_boundary_after_newline :
  forall mem file_start file_end thread_count i,
    S i < thread_count ->
    file_start
    + S i * Nat.max ((file_end - file_start) / thread_count) 1 <= file_end ->
    let boundary := snd (ply_chunk mem file_start file_end thread_count i) in
    boundary = file_end
    \/ (boundary <= file_end /\ peek mem (boundary - 1) = LF).
Proof.
  intros mem file_start file_end thread_count i Hi Hin.
  unfold ply_chunk. cbv zeta. cbn [snd].
  destruct (Nat.eqb_spec i (thread_count - 1)); [lia|].
  set (chunk_size := Nat.max ((file_end - file_start) / thread_count) 1) in *.
  set (nominal := file_start + i * chunk_size + chunk_size).
  assert (Hn : nominal <= file_end) by (subst nominal; simpl in Hin; lia).
  pose proof (scan_until_le is_LF mem (file_end - nominal) nominal) as Hle.
  fold (skip_to is_LF mem nominal file_end) in Hle.
  destruct (Nat.ltb_spec (skip_to is_LF mem nominal file_end) file_end)
    as [Hlt|Hge].
  - right. split; [lia|].
    replace (S (skip_to is_LF mem nominal file_end) - 1)
      with (skip_to is_LF mem nominal file_end) by lia.
    assert (Hstop : is_LF (peek mem (skip_to is_LF mem nominal file_end))
                    = true).
    { apply scan_until_stops. fold (skip_to is_LF mem nominal file_end).
      lia. }
    unfold is_LF in Hstop. apply Ascii.eqb_eq in Hstop. exact Hstop.
  - left. lia.
Qed.

(** The OBJ import moves only the end of a chunk: it leaves the start of
    the next chunk where the nominal boundary is, so that the end of a
    chunk lies beyond the start of its successor whenever that start is
    inside the file. *)
Lemma obj_chunk_end_passes_next_start :
  forall mem thread_count i,
    S i < thread_count ->
    S i * (length mem / thread_count) < length mem ->
    fst (obj_chunk mem (length mem) thread_count (S i))
    < snd (obj_chunk mem (length mem) thread_count i).
Proof.
  intros mem thread_count i Hi Hin. unfold obj_chunk. cbv zeta.
  cbn [fst snd].
  destruct (Nat.eqb_spec i (thread_count - 1)); [lia|].
  set (chunk_size := length mem / thread_count) in *.
  pose proof (skip_to_ge is_LF mem (i * chunk_size + chunk_size)
                         (length mem)) as Hge.
  destruct (Nat.eqb_spec (skip_to is_LF mem (i * chunk_size + chunk_size)
                                  (length mem)) (length mem)) as [E|_].
  - rewrite E. exact Hin.
  - simpl in Hin. lia.
Qed.

(** C2.  The file holds the two records [v 1 2 3] and [v 4 5 6] (16 bytes)
    and is imported with two threads.  The OBJ import plans the ranges
    [0,16) and [8,16): the first chunk's end was moved past the newline
    that closes the record beginning at byte 8, the second chunk's start
    was left at byte 8, so the two ranges overlap in the whole second
    record instead of meeting at one boundary. *)
Theorem obj_import_plans_overlapping_chunks :
  let mem := text ["v 1 2 3"; "v 4 5 6"] in
  length mem = 16
  /\ obj_chunks mem 2 = [(0, 16); (8, 16)]
  /\ snd (obj_chunk mem 16 2 0) <> fst (obj_chunk mem 16 2 1)
  /\ peek mem 8 = "v"%char.
Proof.
  cbv zeta. repeat split; try reflexivity. vm_compute. discriminate.
Qed.

(* ===================================================================== *)
(** ** Single-threaded against parallel OBJ import *)
(* ===================================================================== *)

(** C1.  On the 16-byte file with the records [v 1 2 3] and [v 4 5 6],
    the single-threaded import returns the two vertices, the import with
    two threads returns three: the second record lies in both chunks and
    is parsed by both threads. *)
Theorem obj_parallel_import_repeats_record :
  let w := Instances.world_of
             [("mesh.obj", text ["v 1 2 3"; "v 4 5 6"])]
             2 0 in
  let import := ImportOBJMeshGeometryData
                  IntScalar.strtof
                  Utils.ExtractLowercaseFileExtensionFromPath "mesh.obj" in
  fst (import false w)
  = Some (mkGeom [(1, 2, 3); (4, 5, 6)]%Z [] [])
  /\ fst (import true w)
     = Some (mkGeom [(1, 2, 3); (4, 5, 6); (4, 5, 6)]%Z [] []).
Proof. cbv zeta. split; vm_compute; reflexivity. Qed.

(* ===================================================================== *)
(** ** Point-cloud header *)
(* ===================================================================== *)

(** C7.  The header of the file below ends with [end_header] and has no
    [element vertex] line.  The header reader returns the count 0 and the
    offset 32 of the first data byte; the import tests the returned
    pointer against null, not the count, goes on and returns the point
    (1,2,3).  The line-by-line importer rejects the same file. *)
Theorem ply_import_accepts_header_without_vertex_count :
  let mem := text ["ply"; "format ascii 1.0";
                   "end_header"; "1 2 3"] in
  let w := Instances.world_of [("cloud.ply", mem)] 1 0 in
  let ext := Utils.ExtractLowercaseFileExtensionFromPath in
  ReadPLYVertexHeader mem = Some (0%N, 32)
  /\ fst (ImportPLYPointCloudData Instances.read_int ext "cloud.ply" false w)
     = Some [(1, 2, 3)%Z]
  /\ (forall vector_reserve,
         exists w',
           ImportPLYPointCloudDataMainThread Instances.read_int ext
                                             vector_reserve "cloud.ply" w
           = Returns (None, w')).
Proof.
  cbv zeta. repeat split; try (vm_compute; reflexivity).
  intros vector_reserve. eexists. vm_compute. reflexivity.
Qed.

(** When [end_header] is missing the reader stops at the end of the
    mapping, and the import fails on its test for remaining data. *)
Example ply_import_without_end_header :
  let mem := text ["ply"; "element vertex 2";
                   "1 2 3"; "4 5 6"] in
  let w := Instances.world_of [("cloud.ply", mem)] 1 0 in
  ReadPLYVertexHeader mem = Some (2%N, length mem)
  /\ fst (ImportPLYPointCloudData
            Instances.read_int Utils.ExtractLowercaseFileExtensionFromPath
            "cloud.ply" false w) = None.
Proof. cbv zeta. split; vm_compute; reflexivity. Qed.

(* ===================================================================== *)
(** ** Extension checks *)
(* ===================================================================== *)

Section ExtensionChecks.

Variable Scalar : Type.
Variable strtof : list ascii -> Scalar * nat.
Variable print_scalar : Scalar -> list ascii.
Variable read_scalar : list ascii -> option (Scalar * list ascii).
Variable ExtractLowercaseFileExtensionFromPath : string -> string.
Variable Gen : Type.
Variable mt19937_seed : N -> Gen.
Variable uniform_int : Z -> Z -> Gen -> Z * Gen.

Local Abbreviation ext := ExtractLowercaseFileExtensionFromPath.

Lemma extension_test_fails :
  forall (path expected : string),
    ext path <> expected -> negb (String.eqb (ext path) expected) = true.
Proof.
  intros path expected H.
  destruct (String.eqb_spec (ext path) expected); [contradiction|].
  reflexivity.
Qed.

(** C4, as amended.  The two importers of OBJ and PLY files, the
    line-by-line PLY importer, the two PLY exporters and the polyline
    exporter test the lower-case extension first: on a mismatch each
    returns its failure value and leaves the world, its I/O trace
    included, as it was. *)
Theorem extension_mismatch_rejected_before_io :
  forall (absFileName : string) (w : World),
    (ext absFileName <> "obj" ->
     (forall importInParallel,
         ImportOBJMeshGeometryData strtof ext absFileName
                                   importInParallel w = (None, w))
     /\ (forall polylines,
            ExportPolylinesToOBJ print_scalar ext polylines absFileName w
            = (false, w)))
    /\ (ext absFileName <> "ply" ->
        (forall importInParallel,
            ImportPLYPointCloudData read_scalar ext absFileName
                                    importInParallel w = (None, w))
        /\ (forall vector_reserve,
               ImportPLYPointCloudDataMainThread read_scalar ext
                 vector_reserve absFileName w
               = Returns (None, w))
        /\ (forall meshData nVerts seed,
               ExportSampledVerticesToPLY print_scalar ext mt19937_seed
                 uniform_int meshData nVerts absFileName seed w
               = Returns (false, w))
        /\ (forall meshData,
               ExportPointsToPLY print_scalar ext meshData absFileName w
               = (false, w))).
Proof.
  intros absFileName w; split; intros Hext.
  - split; intros.
    + unfold ImportOBJMeshGeometryData.
      rewrite (extension_test_fails _ _ Hext). reflexivity.
    + unfold ExportPolylinesToOBJ.
      rewrite (extension_test_fails _ _ Hext). reflexivity.
  - repeat split; intros.
    + unfold ImportPLYPointCloudData.
      rewrite (extension_test_fails _ _ Hext). reflexivity.
    + unfold ImportPLYPointCloudDataMainThread.
      rewrite (extension_test_fails _ _ Hext). reflexivity.
    + unfold ExportSampledVerticesToPLY.
      rewrite (extension_test_fails _ _ Hext). reflexivity.
    + unfold ExportPointsToPLY.
      rewrite (extension_test_fails _ _ Hext). reflexivity.
Qed.

(** The mesh exporters to OBJ and VTK have no such test: whatever the
    path, the first thing they do is open it for writing. *)
Lemma mesh_exports_open_any_path :
  forall geomData (absFileName : string) (w : World),
    trace (snd (ExportBaseMeshGeometryDataToOBJ print_scalar geomData
                                                absFileName w))
    = trace w ++ [OpenWrite absFileName]
    /\ trace (snd (ExportBaseMeshGeometryDataToVTK print_scalar geomData
                                                   absFileName w))
       = trace w ++ [OpenWrite absFileName].
Proof.
  intros geomData absFileName w.
  unfold ExportBaseMeshGeometryDataToOBJ, ExportBaseMeshGeometryDataToVTK,
    open_write.
  cbn [log can_write]. destruct (can_write w absFileName); split;
    reflexivity.
Qed.

End ExtensionChecks.

(** C4, witness: the path [mesh.txt] is refused by every checking
    operation without I/O. *)
Lemma extension_mismatch_rejected_before_io_witness :
  let ext := Utils.ExtractLowercaseFileExtensionFromPath in
  let w := Instances.world_of [] 1 0 in
  ext "mesh.txt" <> "obj"
  /\ ext "mesh.txt" <> "ply"
  /\ ImportOBJMeshGeometryData IntScalar.strtof ext "mesh.txt" true w
     = (None, w)
  /\ ImportPLYPointCloudData Instances.read_int ext "mesh.txt" true w
     = (None, w).
Proof.
  cbv zeta.
  assert (Ho : Utils.ExtractLowercaseFileExtensionFromPath "mesh.txt"
               <> "obj") by (vm_compute; discriminate).
  assert (Hp : Utils.ExtractLowercaseFileExtensionFromPath "mesh.txt"
               <> "ply") by (vm_compute; discriminate).
  pose proof (extension_mismatch_rejected_before_io
                Z IntScalar.strtof IntScalar.print Instances.read_int
                Utils.ExtractLowercaseFileExtensionFromPath
                N Instances.lcg_seed Instances.lcg_uniform
                "mesh.txt" (Instances.world_of [] 1 0)) as [Hobj Hply].
  split; [exact Ho|]. split; [exact Hp|].
  split; [apply (proj1 (Hobj Ho)) | apply (proj1 (Hply Hp))].
Defined.

(** C4, counterexample: exporting a mesh to the path [mesh.txt] succeeds.
    The extension is neither [obj] nor [ply], and yet the file is opened
    and written. *)
Lemma obj_export_accepts_other_extension :
  let ext := Utils.ExtractLowercaseFileExtensionFromPath in
  let w := Instances.world_of [] 1 0 in
  let g := mkGeom [(1, 2, 3)%Z] [] [] in
  let r := ExportBaseMeshGeometryDataToOBJ IntScalar.print g "mesh.txt" w in
  ext "mesh.txt" = "txt"
  /\ fst r = true
  /\ trace (snd r) = [OpenWrite "mesh.txt"]
  /\ files (snd r) "mesh.txt"
     = Some (bytes "v 1 2 3" ++ [CR; LF]).
Proof. cbv zeta. repeat split; vm_compute; reflexivity. Qed.

(* ===================================================================== *)
(** ** Seeded sampling *)
(* ===================================================================== *)

Section Sampling.

Variable Scalar : Type.
Variable print_scalar : Scalar -> list ascii.
Variable ExtractLowercaseFileExtensionFromPath : string -> string.
Variable Gen : Type.
Variable mt19937_seed : N -> Gen.
Variable uniform_int : Z -> Z -> Gen -> Z * Gen.

Lemma files_write_text :
  forall path out w,
    files (write_text path out w) path = Some (to_text_mode true out).
Proof.
  intros. unfold write_text, write_file. cbn [files].
  rewrite String.eqb_refl. reflexivity.
Qed.

(** With a seed the generator does not depend on the world. *)
Lemma sampled_indices_seeded :
  forall (meshData : BaseMeshGeometryData Scalar) nVerts seed
         (w1 w2 : World),
    sampled_indices mt19937_seed uniform_int meshData nVerts (Some seed) w1
    = sampled_indices mt19937_seed uniform_int meshData nVerts (Some seed)
                      w2.
Proof. reflexivity. Qed.

Lemma can_write_log :
  forall e w, can_write (log e w) = can_write w.
Proof. reflexivity. Qed.

Lemma can_write_write_file :
  forall path c w, can_write (write_file path c w) = can_write w.
Proof. reflexivity. Qed.

(** What a successful seeded call leaves in the file. *)
Lemma seeded_export_content :
  forall (meshData : BaseMeshGeometryData Scalar) nVerts seed
         (absFileName : string) (w w' : World),
    ExportSampledVerticesToPLY print_scalar
      ExtractLowercaseFileExtensionFromPath mt19937_seed uniform_int
      meshData nVerts absFileName (Some seed) w = Returns (true, w') ->
    exists lines,
      sampled_lines print_scalar (Vertices meshData)
        (sample_indices uniform_int
           (to_int (Z.of_nat (length (Vertices meshData)) - 1)) nVerts
           (mt19937_seed seed)) = Some lines
      /\ files w' absFileName
         = Some (to_text_mode true (ply_header (N.of_nat nVerts) ++ lines)).
Proof.
  intros meshData nVerts seed absFileName w w'.
  unfold ExportSampledVerticesToPLY, open_write.
  destruct (negb (String.eqb _ _)); [intros H; inversion H|].
  rewrite can_write_log.
  destruct (can_write w absFileName) eqn:Hcw; cbn [negb];
    [|intros H; inversion H].
  destruct (_ <? 0)%Z; [discriminate|].
  rewrite can_write_log, can_write_write_file, can_write_log, Hcw.
  cbn [negb].
  unfold sampled_indices, sampling_generator.
  destruct (sampled_lines _ _ _) as [lines|]; [|discriminate].
  intros H. inversion H; subst w'. exists lines. split; [reflexivity|].
  apply files_write_text.
Qed.

(** C10.  Two calls with the same mesh data, the same number of
    vertices and the same seed sample the same indices, whatever the two
    worlds (their entropy sources included) and the two paths are; when
    both calls succeed, they leave identical contents, header and vertex
    lines, in the files they wrote. *)
Theorem seeded_sampling_is_deterministic :
  forall (meshData : BaseMeshGeometryData Scalar) nVerts seed
         (path1 path2 : string) (w1 w2 w1' w2' : World),
    ExportSampledVerticesToPLY print_scalar
      ExtractLowercaseFileExtensionFromPath mt19937_seed uniform_int
      meshData nVerts path1 (Some seed) w1 = Returns (true, w1') ->
    ExportSampledVerticesToPLY print_scalar
      ExtractLowercaseFileExtensionFromPath mt19937_seed uniform_int
      meshData nVerts path2 (Some seed) w2 = Returns (true, w2') ->
    sampled_indices mt19937_seed uniform_int meshData nVerts (Some seed) w1
    = sampled_indices mt19937_seed uniform_int meshData nVerts (Some seed)
                      w2
    /\ files w1' path1 = files w2' path2.
Proof.
  intros meshData nVerts seed path1 path2 w1 w2 w1' w2' H1 H2.
  split; [reflexivity|].
  destruct (seeded_export_content _ _ _ _ _ _ H1) as (l1 & E1 & ->).
  destruct (seeded_export_content _ _ _ _ _ _ H2) as (l2 & E2 & ->).
  congruence.
Qed.

End Sampling.

(** C10, witness: two worlds with different entropy, seed 7, five
    samples of a two-vertex mesh. *)
Lemma seeded_sampling_is_deterministic_witness :
  let ext := Utils.ExtractLowercaseFileExtensionFromPath in
  let g := mkGeom [(1, 2, 3); (4, 5, -6)]%Z [] [] in
  let w1 := Instances.world_of [] 1 11 in
  let w2 := Instances.world_of [] 8 99 in
  let export path := ExportSampledVerticesToPLY IntScalar.print ext
                       Instances.lcg_seed Instances.lcg_uniform g 5 path
                       (Some 7%N) in
  exists w1' w2',
    export "s.ply" w1 = Returns (true, w1')
    /\ export "t.ply" w2 = Returns (true, w2')
    /\ files w1' "s.ply" = files w2' "t.ply".
Proof.
  cbv zeta.
  eexists _, _.
  split; [vm_compute; reflexivity|]. split; [vm_compute; reflexivity|].
  refine (proj2 (seeded_sampling_is_deterministic
                   Z IntScalar.print
                   Utils.ExtractLowercaseFileExtensionFromPath
                   N Instances.lcg_seed Instances.lcg_uniform
                   (mkGeom [(1, 2, 3); (4, 5, -6)]%Z [] []) 5 7%N
                   "s.ply" "t.ply"
                   (Instances.world_of [] 1 11) (Instances.world_of [] 8 99)
                   _ _ _ _));
    vm_compute; reflexivity.
Defined.

(** Without a seed the samples follow the entropy source. *)
Example unseeded_sampling_follows_entropy :
  let g := mkGeom [(1, 2, 3); (4, 5, -6)]%Z [] [] in
  sampled_indices Instances.lcg_seed Instances.lcg_uniform g 3 None
                  (Instances.world_of [] 1 0)
  <> sampled_indices Instances.lcg_seed Instances.lcg_uniform g 3 None
                     (Instances.world_of [] 1 1).
Proof. vm_compute. discriminate. Qed.

(* ===================================================================== *)
(** ** Convex hull wrapper *)
(* ===================================================================== *)

Lemma skipn_nth_error_cons :
  forall (A : Type) (l : list A) i a,
    nth_error l i = Some a -> skipn i l = a :: skipn (S i) l.
Proof.
  intros A l; induction l as [|x l IH]; intros [|i] a H; simpl in *;
    try discriminate.
  - inversion H; reflexivity.
  - apply IH; exact H.
Qed.

Lemma nth_error_in_range :
  forall (A : Type) (l : list A) i,
    i < length l -> exists a, nth_error l i = Some a.
Proof.
  intros A l i H. destruct (nth_error l i) eqn:E; [eauto|].
  apply nth_error_None in E. lia.
Qed.

(** On a buffer whose length is a multiple of three the triangle loop
    stays inside the buffer and cuts it into consecutive triples. *)
Lemma hull_triangles_spec :
  forall n ids i,
    length ids = i + 3 * n ->
    exists polys,
      hull_triangles ids i n = Some polys
      /\ Forall (fun poly => length poly = 3) polys
      /\ concat polys = map (fun a => (a mod UINT_MOD)%N) (skipn i ids).
Proof.
  induction n as [|n IH]; intros ids i Hlen.
  - exists []. repeat split; [constructor|].
    rewrite skipn_all2 by lia. reflexivity.
  - destruct (nth_error_in_range _ ids i ltac:(lia)) as [a Ha].
    destruct (nth_error_in_range _ ids (i + 1) ltac:(lia)) as [b Hb].
    destruct (nth_error_in_range _ ids (i + 2) ltac:(lia)) as [c Hc].
    destruct (IH ids (i + 3) ltac:(lia)) as (rest & Hrest & Hall & Hcat).
    exists ([a mod UINT_MOD; b mod UINT_MOD; c mod UINT_MOD]%N :: rest).
    cbn [hull_triangles]. rewrite Ha, Hb, Hc, Hrest.
    repeat split; [constructor; [reflexivity | exact Hall]|].
    rewrite (skipn_nth_error_cons _ ids i a Ha).
    replace (S i) with (i + 1) by lia.
    rewrite (skipn_nth_error_cons _ ids (i + 1) b Hb).
    replace (S (i + 1)) with (i + 2) by lia.
    rewrite (skipn_nth_error_cons _ ids (i + 2) c Hc).
    replace (S (i + 2)) with (i + 3) by lia.
    cbn [concat map app]. rewrite Hcat. reflexivity.
Qed.

Section ConvexHull.

Variable getConvexHull : list Point -> list Point * list N.

(** C5.  [ComputeConvexHullFromPoints] returns the empty optional when
    fewer than four points are given, when the hull has fewer than four
    vertices, and when the length of the hull's index buffer is not a
    multiple of three; it never throws and never reads outside a
    buffer; and a buffer it returns holds the hull's vertices and the
    hull's index buffer cut into triples, the indices as the hull
    routine numbered them. *)
Theorem convex_hull_failures_and_shape :
  forall points : list Point,
    let result := ComputeConvexHullFromPoints getConvexHull points in
    (length points < 4 -> result = Returns None)
    /\ (length (fst (getConvexHull points)) < 4 -> result = Returns None)
    /\ (length (snd (getConvexHull points)) mod 3 <> 0 ->
        result = Returns None)
    /\ result <> Undefined
    /\ (forall what, result <> Throws what)
    /\ (forall baseMesh,
           result = Returns (Some baseMesh) ->
           Vertices baseMesh = fst (getConvexHull points)
           /\ VertexNormals baseMesh = []
           /\ Forall (fun poly => length poly = 3) (PolyIndices baseMesh)
           /\ concat (PolyIndices baseMesh)
              = map (fun a => (a mod UINT_MOD)%N)
                    (snd (getConvexHull points))).
Proof.
  intros points result. subst result.
  unfold ComputeConvexHullFromPoints.
  destruct (getConvexHull points) as [hullVertBuffer hullVertIdBuffer].
  cbn [fst snd].
  destruct (Nat.ltb_spec (length points) 4) as [Hp|Hp].
  { repeat split; intros; try reflexivity; try discriminate; lia. }
  destruct (Nat.ltb_spec (length hullVertBuffer) 4) as [Hv|Hv].
  { repeat split; intros; try reflexivity; try discriminate; lia. }
  destruct (Nat.eqb_spec (length hullVertIdBuffer mod 3) 0) as [Hm|Hm];
    cbn [negb].
  2: { repeat split; intros; try reflexivity; try discriminate; lia. }
  assert (Hlen : length hullVertIdBuffer
                 = 0 + 3 * ((length hullVertIdBuffer + 2) / 3)).
  { pose proof (Nat.div_mod_eq (length hullVertIdBuffer) 3).
    pose proof (Nat.div_mod_eq (length hullVertIdBuffer + 2) 3).
    pose proof (Nat.mod_upper_bound (length hullVertIdBuffer + 2) 3).
    lia. }
  destruct (hull_triangles_spec _ _ _ Hlen) as (polys & -> & Hall & Hcat).
  repeat split; intros; try discriminate; try lia;
    match goal with
    | H : Returns _ = Returns _ |- _ => inversion H; subst; clear H
    end; cbn [Vertices VertexNormals PolyIndices]; auto.
Qed.

End ConvexHull.

(** C5, witness: three points are refused; four points with a hull
    routine returning a tetrahedron give four triangles. *)
Lemma convex_hull_failures_and_shape_witness :
  let three := [(0, 0, 0); (1, 0, 0); (0, 1, 0)]%R in
  length three < 4
  /\ ComputeConvexHullFromPoints Instances.tetrahedron_hull three
     = Returns None.
Proof.
  cbv zeta. split; [simpl; lia|].
  apply (proj1 (convex_hull_failures_and_shape
                  Instances.tetrahedron_hull
                  [(0, 0, 0); (1, 0, 0); (0, 1, 0)]%R)).
  simpl; lia.
Defined.

Example convex_hull_of_tetrahedron :
  let four := [(0, 0, 0); (1, 0, 0); (0, 1, 0); (0, 0, 1)]%R in
  ComputeConvexHullFromPoints Instances.tetrahedron_hull four
  = Returns (Some (mkGeom four
                          [[0; 1; 2]; [0; 1; 3]; [0; 2; 3]; [1; 2; 3]]%N
                          [])).
Proof. reflexivity. Qed.

(* ===================================================================== *)
(** ** Distance statistics *)
(* ===================================================================== *)

Section DistanceStatistics.

Variable knnSearch : list Point -> Point -> nat -> list (nat * R).
Hypothesis knnSearch_count :
  forall pts q num_closest,
    length (knnSearch pts q num_closest)
    = Nat.min num_closest (length pts).

(** C8, as amended.  On the empty point set both statistics return the
    value -1 and write one line to the error stream; they do not
    throw. *)
Theorem empty_point_set_returns_minus_one :
  forall nNeighbors,
    ComputeMinInterVertexDistance knnSearch []
    = (Returns (-1)%R,
       ["Geometry::ComputeMinInterVertexDistance: points.empty()!"])
    /\ ComputeNearestNeighborMeanInterVertexDistance knnSearch []
                                                     nNeighbors
       = (Returns (-1)%R,
          ["Geometry::ComputeNearestNeighborMeanInterVertexDistance: points.empty()!"]).
Proof. intros; split; reflexivity. Qed.

Lemma min_do_knn_search_two_results :
  forall points p,
    2 <= length points ->
    length (knnSearch points p 2) = 2
    /\ exists d, min_do_knn_search knnSearch points p = Returns d.
Proof using knnSearch_count.
  intros points p Hlen.
  assert (H2 : length (knnSearch points p 2) = 2)
    by (rewrite knnSearch_count; lia).
  split; [exact H2|].
  unfold min_do_knn_search.
  destruct (nth_error_in_range _ (map snd (knnSearch points p 2)) 1)
    as [d Hd]; [rewrite length_map; lia|].
  rewrite Hd. eauto.
Qed.

Lemma min_loop_returns :
  forall points queries minDistance,
    2 <= length points ->
    exists d, min_loop knnSearch points queries minDistance = Returns d.
Proof using knnSearch_count.
  intros points queries; induction queries as [|q rest IH];
    intros minDistance Hlen; cbn [min_loop].
  - eauto.
  - destruct (min_do_knn_search_two_results points q Hlen)
      as [_ [d ->]].
    apply IH; exact Hlen.
Qed.

(** C9.  With two points or more every 2-nearest-neighbour query finds
    two results, so the read of [out_dist_sqr[1]] is inside the vector
    and the function returns a value; with a single point the query
    finds one result and the same read is outside the vector; the only
    guard is the one for the empty set. *)
Theorem min_distance_reads_in_bounds_from_two_points :
  (forall points,
      2 <= length points ->
      (forall p,
          length (knnSearch points p 2) = 2
          /\ exists d, min_do_knn_search knnSearch points p = Returns d)
      /\ exists d,
          fst (ComputeMinInterVertexDistance knnSearch points) = Returns d)
  /\ (forall p,
         length (knnSearch [p] p 2) = 1
         /\ fst (ComputeMinInterVertexDistance knnSearch [p]) = Undefined)
  /\ fst (ComputeMinInterVertexDistance knnSearch []) = Returns (-1)%R.
Proof using knnSearch_count.
  split; [|split].
  - intros points Hlen. split.
    + intros p. apply min_do_knn_search_two_results; exact Hlen.
    + unfold ComputeMinInterVertexDistance.
      destruct points as [|p0 rest]; [simpl in Hlen; lia|].
      destruct (min_loop_returns (p0 :: rest) (p0 :: rest) FLT_MAX Hlen)
        as [d ->].
      cbn [fst]. eauto.
  - intros p.
    assert (H1 : length (knnSearch [p] p 2) = 1)
      by (rewrite knnSearch_count; reflexivity).
    split; [exact H1|].
    unfold ComputeMinInterVertexDistance. cbn [fst min_loop].
    unfold min_do_knn_search.
    destruct (knnSearch [p] p 2) as [|r1 [|r2 l]]; try discriminate.
    reflexivity.
  - reflexivity.
Qed.

End DistanceStatistics.

Lemma insert_by_distance_length :
  forall x l, length (Instances.insert_by_distance x l) = S (length l).
Proof.
  intros x l; induction l as [|y l IH]; simpl; [reflexivity|].
  destruct (Rle_dec (snd x) (snd y)); simpl; [reflexivity|].
  rewrite IH; reflexivity.
Qed.

(** The exhaustive search meets the contract assumed of the k-d tree. *)
Lemma knn_exhaustive_count :
  forall pts q num_closest,
    length (Instances.knn_exhaustive pts q num_closest)
    = Nat.min num_closest (length pts).
Proof.
  intros pts q k. unfold Instances.knn_exhaustive.
  rewrite length_firstn. f_equal.
  set (l := combine _ _).
  assert (Hl : length l = length pts).
  { subst l. rewrite length_combine, length_seq, length_map. lia. }
  rewrite <- Hl. clear Hl. induction l as [|x l IH]; simpl; [reflexivity|].
  rewrite insert_by_distance_length, IH. reflexivity.
Qed.

(** C9, witness: two points. *)
Lemma min_distance_reads_in_bounds_from_two_points_witness :
  let points := [(0, 0, 0); (1, 0, 0)]%R in
  2 <= length points
  /\ exists d,
      fst (ComputeMinInterVertexDistance Instances.knn_exhaustive points)
      = Returns d.
Proof.
  cbv zeta. split; [simpl; lia|].
  apply (proj1 (min_distance_reads_in_bounds_from_two_points
                  Instances.knn_exhaustive knn_exhaustive_count)
               [(0, 0, 0); (1, 0, 0)]%R).
  simpl; lia.
Defined.

(** C8, counterexample: on the empty point set the two statistics hand
    back an ordinary value of the distance type, the number -1; no error
    is thrown, whereas the bounding sphere of the empty set throws. *)
Lemma distance_statistics_return_value_on_empty_set :
  fst (ComputeMinInterVertexDistance Instances.knn_exhaustive [])
  = Returns (-1)%R
  /\ fst (ComputeNearestNeighborMeanInterVertexDistance
            Instances.knn_exhaustive [] 6)
     = Returns (-1)%R
  /\ (forall what,
         fst (ComputeMinInterVertexDistance Instances.knn_exhaustive [])
         <> Throws what)
  /\ ComputePointCloudBoundingSphere Instances.normalize_exact []
     = Throws "Geometry::ComputePointCloudBoundingSphere: points.empty()!".
Proof. repeat split; intros; try reflexivity; discriminate. Qed.

(* ===================================================================== *)
(** ** Bounding sphere *)
(* ===================================================================== *)

Local Open Scope R_scope.

Lemma sqrnorm_nonneg : forall a, 0 <= sqrnorm a.
Proof. intros [[x y] z]. unfold sqrnorm. nra. Qed.

Lemma norm_nonneg : forall a, 0 <= norm a.
Proof. intros a. apply sqrt_pos. Qed.

Lemma norm_sqr : forall a, norm a * norm a = sqrnorm a.
Proof. intros a. apply sqrt_sqrt. apply sqrnorm_nonneg. Qed.

Lemma norm_le_of_sqr :
  forall a b, 0 <= b -> sqrnorm a <= b * b -> norm a <= b.
Proof.
  intros a b Hb H. unfold norm.
  rewrite <- (sqrt_square b Hb). apply sqrt_le_1_alt. exact H.
Qed.


Lemma cauchy_schwarz : forall a b, dot a b <= norm a * norm b.
Proof.
  intros a b.
  assert (Hsq : dot a b * dot a b <= sqrnorm a * sqrnorm b).
  { destruct a as [[ax ay] az], b as [[bx b_y] bz]. unfold dot, sqrnorm.
    pose proof (Rle_0_sqr (ax * b_y - ay * bx)) as H1.
    pose proof (Rle_0_sqr (ax * bz - az * bx)) as H2.
    pose proof (Rle_0_sqr (ay * bz - az * b_y)) as H3.
    unfold Rsqr in *. lra. }
  rewrite <- !norm_sqr in Hsq.
  pose proof (norm_nonneg a) as Ha. pose proof (norm_nonneg b) as Hb.
  set (x := norm a * norm b) in *.
  assert (Hx : 0 <= x) by (subst x; apply Rmult_le_pos; assumption).
  replace (norm a * norm a * (norm b * norm b)) with (x * x) in Hsq
    by (subst x; ring).
  destruct (Rle_lt_dec (dot a b) x) as [Hle|Hlt]; [exact Hle|].
  exfalso. nra.
Qed.

Lemma norm_triangle : forall a b, norm (vadd a b) <= norm a + norm b.
Proof.
  intros a b.
  pose proof (norm_nonneg a). pose proof (norm_nonneg b).
  apply norm_le_of_sqr; [lra|].
  pose proof (cauchy_schwarz a b) as Hcs.
  pose proof (norm_sqr a) as Ha. pose proof (norm_sqr b) as Hb.
  assert (E : sqrnorm (vadd a b) = sqrnorm a + 2 * dot a b + sqrnorm b).
  { destruct a as [[ax ay] az], b as [[bx b_y] bz].
    unfold sqrnorm, vadd, dot. ring. }
  rewrite E. nra.
Qed.

Lemma norm_vscale : forall s a, norm (vscale s a) = Rabs s * norm a.
Proof.
  intros s a.
  assert (E : sqrnorm (vscale s a) = (Rabs s * norm a) * (Rabs s * norm a)).
  { replace (Rabs s * norm a * (Rabs s * norm a))
      with ((Rabs s * Rabs s) * (norm a * norm a)) by ring.
    rewrite norm_sqr. 
    replace (Rabs s * Rabs s) with (s * s).
    - destruct a as [[ax ay] az]. unfold sqrnorm, vscale. ring.
    - pose proof (Rsqr_abs s) as Hs. unfold Rsqr in Hs. exact Hs. }
  unfold norm at 1. rewrite E. apply sqrt_square.
  apply Rmult_le_pos; [apply Rabs_pos | apply norm_nonneg].
Qed.

Lemma vsub_moved_center :
  forall q c m, vsub q (vadd c m) = vadd (vsub q c) (vscale (-1) m).
Proof.
  intros [[qx qy] qz] [[cx cy] cz] [[mx my] mz]. unfold vsub, vadd, vscale.
  f_equal; [f_equal|]; ring.
Qed.

Lemma vscale_vscale :
  forall s t a, vscale s (vscale t a) = vscale (s * t) a.
Proof.
  intros s t [[ax ay] az]. unfold vscale. f_equal; [f_equal|]; ring.
Qed.

Lemma vadd_vscale_same :
  forall s a, vadd a (vscale s a) = vscale (1 + s) a.
Proof.
  intros s [[ax ay] az]. unfold vadd, vscale. f_equal; [f_equal|]; ring.
Qed.

Section BoundingSphere.

Variable normalize : Point -> Point.
Variable tiny : R.
Hypothesis tiny_nonneg : 0 <= tiny.
Hypothesis normalize_unit :
  forall v, tiny < norm v -> normalize v = vscale (/ norm v) v.
Hypothesis normalize_small :
  forall v, norm v <= tiny -> norm (normalize v) <= 1.

Lemma normalize_norm_le_1 : forall v, norm (normalize v) <= 1.
Proof using tiny_nonneg normalize_unit normalize_small.
  intros v. destruct (Rlt_le_dec tiny (norm v)) as [Hlt|Hle].
  - rewrite (normalize_unit v Hlt), norm_vscale.
    assert (Hpos : 0 < norm v) by lra.
    rewrite Rabs_right by (left; apply Rinv_0_lt_compat; exact Hpos).
    rewrite Rinv_l by lra. lra.
  - apply normalize_small; exact Hle.
Qed.

(** Moving the centre by [moveBy] along a vector no longer than 1 moves
    it away from any point by at most [moveBy]. *)
Lemma moved_center_distance :
  forall q c dir moveBy,
    0 <= moveBy -> norm dir <= 1 ->
    norm (vsub q (vadd c (vscale moveBy dir)))
    <= norm (vsub q c) + moveBy.
Proof.
  intros q c dir moveBy Hm Hd.
  rewrite vsub_moved_center, vscale_vscale.
  eapply Rle_trans; [apply norm_triangle|].
  rewrite norm_vscale.
  replace (-1 * moveBy) with (- moveBy) by ring.
  rewrite Rabs_Ropp, Rabs_right by lra.
  pose proof (norm_nonneg dir). nra.
Qed.

(** The point that triggered the step lies within the new radius, up to
    the threshold. *)
Lemma new_point_distance :
  forall p c radius,
    0 <= radius -> radius <= norm (vsub p c) ->
    let dist := norm (vsub p c) in
    let newRadius := (radius + dist) / 2 in
    let moveBy := newRadius - radius in
    norm (vsub p (vadd c (vscale moveBy (normalize (vsub p c)))))
    <= newRadius + tiny.
Proof using tiny_nonneg normalize_unit normalize_small.
  intros p c radius Hr Hd dist newRadius moveBy.
  assert (Hm : 0 <= moveBy) by (subst moveBy newRadius dist; lra).
  destruct (Rlt_le_dec tiny (norm (vsub p c))) as [Hlt|Hle].
  - rewrite (normalize_unit _ Hlt).
    fold dist. assert (Hpos : 0 < dist) by (subst dist; lra).
    rewrite vsub_moved_center, !vscale_vscale, vadd_vscale_same.
    rewrite norm_vscale. fold dist.
    assert (E : 1 + -1 * moveBy * / dist = (dist - moveBy) / dist)
      by (field; lra).
    rewrite E.
    assert (Hq : 0 <= (dist - moveBy) / dist).
    { apply Rmult_le_pos; [subst moveBy newRadius; lra|].
      left; apply Rinv_0_lt_compat; exact Hpos. }
    rewrite Rabs_right by lra.
    replace ((dist - moveBy) / dist * dist) with (dist - moveBy)
      by (field; lra).
    subst moveBy newRadius. lra.
  - pose proof (moved_center_distance p c (normalize (vsub p c)) moveBy
                  Hm (normalize_norm_le_1 _)) as H.
    fold dist in H, Hle. subst moveBy newRadius. lra.
Qed.

(** The second pass keeps every point it has passed inside the sphere:
    a step replaces the sphere by one that contains it and reaches the
    new point. *)
Lemma expand_sphere_contains :
  forall points done center radius,
    0 <= radius ->
    Forall (within_sphere tiny center radius) done ->
    let '(center', radius') := expand_sphere normalize points center radius in
    Forall (within_sphere tiny center' radius') done
    /\ Forall (within_sphere tiny center' radius') points.
Proof using tiny_nonneg normalize_unit normalize_small.
  induction points as [|p rest IH]; intros done center radius Hr Hdone.
  - cbn [expand_sphere]. split; [exact Hdone | constructor].
  - cbn [expand_sphere].
    destruct (Rlt_dec (norm (vsub p center)) radius) as [Hin|Hout].
    + specialize (IH (done ++ [p]) center radius Hr).
      destruct (expand_sphere normalize rest center radius) as [c' r'].
      destruct IH as [H1 H2].
      { apply Forall_app; split; [exact Hdone|].
        constructor; [|constructor]. unfold within_sphere. lra. }
      apply Forall_app in H1 as [H1 Hp]. inversion Hp; subst.
      split; [exact H1 | constructor; assumption].
    + apply Rnot_lt_le in Hout.
      set (dist := norm (vsub p center)) in *.
      set (newRadius := (radius + dist) / 2).
      set (moveBy := newRadius - radius).
      set (center1 := vadd center (vscale moveBy (normalize (vsub p center)))).
      assert (Hm : 0 <= moveBy) by (subst moveBy newRadius; lra).
      specialize (IH (done ++ [p]) center1 newRadius).
      destruct (expand_sphere normalize rest center1 newRadius) as [c' r'].
      destruct IH as [H1 H2].
      { subst newRadius. lra. }
      { apply Forall_app; split.
        - eapply Forall_impl; [|exact Hdone].
          intros q Hq. unfold within_sphere in *. subst center1.
          pose proof (moved_center_distance q center
                        (normalize (vsub p center)) moveBy Hm
                        (normalize_norm_le_1 _)).
          subst moveBy. lra.
        - constructor; [|constructor]. unfold within_sphere.
          apply (new_point_distance p center radius Hr Hout). }
      apply Forall_app in H1 as [H1 Hp]. inversion Hp; subst.
      split; [exact H1 | constructor; assumption].
Qed.

Lemma farthest_distance_ge :
  forall center points radius,
    radius <= farthest_distance center points radius.
Proof.
  intros center points; induction points as [|p rest IH]; intros radius;
    cbn [farthest_distance]; [lra|].
  destruct (Rlt_dec (norm (vsub p center)) radius) as [H|H];
    [apply IH|].
  apply Rnot_lt_le in H. eapply Rle_trans; [exact H | apply IH].
Qed.

(** In exact arithmetic the sphere holds the points: with real numbers
    for scalars, [ComputePointCloudBoundingSphere] returns for a
    non-empty point set a centre and a radius such that every input
    point lies within the radius plus the threshold of [normalize] of
    the centre, and for the empty point set it throws
    [std::invalid_argument].  The floats of the code round and
    overflow; what they make of the sphere is shown for single
    precision below. *)
Theorem bounding_sphere_contains_points :
  (forall points,
      points <> [] ->
      exists center radius,
        ComputePointCloudBoundingSphere normalize points
        = Returns (center, radius)
        /\ Forall (fun p => norm (vsub p center) <= radius + tiny) points)
  /\ ComputePointCloudBoundingSphere normalize []
     = Throws "Geometry::ComputePointCloudBoundingSphere: points.empty()!".
Proof using tiny_nonneg normalize_unit normalize_small.
  split; [|reflexivity].
  intros points Hne. destruct points as [|p0 rest]; [contradiction|].
  unfold ComputePointCloudBoundingSphere.
  set (radius := farthest_distance p0 (p0 :: rest) 0).
  set (center := vscale (/ 2) _).
  assert (Hr : 0 <= radius / 2).
  { pose proof (farthest_distance_ge p0 (p0 :: rest) 0). fold radius in H.
    lra. }
  pose proof (expand_sphere_contains (p0 :: rest) [] center (radius / 2)
                Hr (Forall_nil _)) as H.
  destruct (expand_sphere normalize (p0 :: rest) center (radius / 2))
    as [c' r'].
  exists c', r'. split; [reflexivity | exact (proj2 H)].
Qed.

End BoundingSphere.

Lemma normalize_exact_small :
  forall v, norm v <= 0 -> norm (Instances.normalize_exact v) <= 1.
Proof.
  intros v Hv. unfold Instances.normalize_exact. rewrite norm_vscale.
  pose proof (norm_nonneg v).
  replace (norm v) with 0 by lra. rewrite Rmult_0_r. lra.
Qed.

(** The two points (0,0,0) and (2,0,0), in exact arithmetic. *)
Lemma bounding_sphere_contains_points_witness :
  let points := [(0, 0, 0); (2, 0, 0)] in
  points <> []
  /\ exists center radius,
      ComputePointCloudBoundingSphere Instances.normalize_exact points
      = Returns (center, radius)
      /\ Forall (fun p => norm (vsub p center) <= radius + 0) points.
Proof.
  cbv zeta. split; [discriminate|].
  apply (proj1 (bounding_sphere_contains_points
                  Instances.normalize_exact 0 (Rle_refl 0)
                  (fun v _ => eq_refl) normalize_exact_small)).
  discriminate.
Defined.

Local Close Scope R_scope.

(* ===================================================================== *)
(** ** Bounding sphere in single precision *)
(* ===================================================================== *)

Section SinglePrecision.

Import Binary32.

Lemma sub_nan_r : forall x, sub x nan = nan.
Proof. intros [s|s| |s m e]; reflexivity. Qed.

Lemma add_nan_r : forall x, add x nan = nan.
Proof. intros [s|s| |s m e]; reflexivity. Qed.

Lemma norm_vsub_nan :
  forall point, norm (vsub point (nan, nan, nan)) = nan.
Proof.
  intros [[x y] z]. unfold norm, sqrnorm, vsub.
  rewrite !sub_nan_r. reflexivity.
Qed.

Lemma vadd_vscale_nan :
  forall c direction,
    vadd c (vscale nan direction) = (nan, nan, nan).
Proof.
  intros [[x y] z] [[dx dy] dz]. unfold vadd, vscale.
  change (mul nan dx) with nan. change (mul nan dy) with nan.
  change (mul nan dz) with nan. rewrite !add_nan_r. reflexivity.
Qed.

(** Once the centre is not a number, the second pass leaves it so, and
    the first point it visits makes the radius a NaN as well. *)
Lemma expand_sphere_nan_center :
  forall normalize points radius,
    expand_sphere normalize points (nan, nan, nan) radius
    = ((nan, nan, nan), match points with [] => radius | _ => nan end).
Proof.
  intros normalize points; induction points as [|point rest IH];
    intros radius; [reflexivity|].
  cbn [expand_sphere]. rewrite norm_vsub_nan.
  change (ltb nan radius) with false. cbv iota.
  rewrite add_nan_r. change (div nan two) with nan.
  change (sub nan radius) with nan.
  rewrite vadd_vscale_nan, IH. destruct rest; reflexivity.
Qed.

(** The centre the first pass leaves when its radius is infinite: each
    coordinate is the sum of a float and of a multiple of infinity. *)
Lemma rough_center_not_finite :
  forall a n, not_finite (div (add a (mul infinity n)) two).
Proof.
  intros a n. unfold not_finite.
  destruct n as [[]|[]| |[] mn en], a as [[]|[]| |[] ma ea];
    vm_compute; auto.
Qed.

Lemma square_of_difference_not_finite :
  forall x c,
    not_finite c ->
    mul (sub x c) (sub x c) = infinity \/ mul (sub x c) (sub x c) = nan.
Proof.
  intros x c [->|[->| ->]]; destruct x as [[]|[]| |[] m e];
    vm_compute; auto.
Qed.

Lemma norm_vsub_not_finite :
  forall point cx cy cz,
    not_finite cx -> not_finite cy -> not_finite cz ->
    norm (vsub point (cx, cy, cz)) = infinity
    \/ norm (vsub point (cx, cy, cz)) = nan.
Proof.
  intros [[x y] z] cx cy cz Hx Hy Hz. unfold norm, sqrnorm, vsub.
  destruct (square_of_difference_not_finite x cx Hx) as [-> | ->],
    (square_of_difference_not_finite y cy Hy) as [-> | ->],
    (square_of_difference_not_finite z cz Hz) as [-> | ->];
    vm_compute; auto.
Qed.

(** When the first pass ends with an infinite radius, the sphere of two
    points or more has a centre and a radius that are not numbers,
    whatever [normalize] returns. *)
Lemma bounding_sphere_nan_after_overflow :
  forall normalize p0 p1 rest,
    farthest_distance p0 (p0 :: p1 :: rest) zero = infinity ->
    ComputePointCloudBoundingSphere normalize (p0 :: p1 :: rest)
    = Returns ((nan, nan, nan), nan).
Proof.
  intros normalize p0 p1 rest Hfar.
  unfold ComputePointCloudBoundingSphere. cbv zeta. rewrite Hfar.
  change (div infinity two) with infinity.
  set (tail := p1 :: rest).
  destruct p0 as [[x y] z].
  destruct (normalize (vsub (x, y, z) (x, y, z))) as [[nx ny] nz].
  cbn [vadd vscale vdiv].
  pose proof (rough_center_not_finite (add x x) nx) as Hx.
  pose proof (rough_center_not_finite (add y y) ny) as Hy.
  pose proof (rough_center_not_finite (add z z) nz) as Hz.
  set (cx := div (add (add x x) (mul infinity nx)) two) in *.
  set (cy := div (add (add y y) (mul infinity ny)) two) in *.
  set (cz := div (add (add z z) (mul infinity nz)) two) in *.
  cbn [expand_sphere].
  assert (Hstep : forall dist,
             dist = infinity \/ dist = nan ->
             ltb dist infinity = false
             /\ sub (div (add infinity dist) two) infinity = nan).
  { intros dist [-> | ->]; split; reflexivity. }
  destruct (Hstep _ (norm_vsub_not_finite (x, y, z) cx cy cz Hx Hy Hz))
    as [-> ->].
  rewrite vadd_vscale_nan, expand_sphere_nan_center. reflexivity.
Qed.

(** C6.  The points (0,0,0) and (2^65, 2^65, 0) are some 5.2e19 apart, a
    distance far below the largest float, but the squares of the
    coordinate differences overflow and [pmp::norm] returns infinity
    for it.  [ComputePointCloudBoundingSphere] then returns a centre and
    a radius that are not numbers, whatever [normalize] returns, and no
    point is found within that radius plus any epsilon of that centre.
    The empty set is rejected with an exception. *)
Theorem bounding_sphere_not_a_number_on_overflow :
  forall normalize : Point -> Point,
    let far := of_Z 1 65 in
    let points := [(zero, zero, zero); (far, far, zero)] in
    norm (vsub (far, far, zero) (zero, zero, zero)) = infinity
    /\ ComputePointCloudBoundingSphere normalize points
       = Returns ((nan, nan, nan), nan)
    /\ (forall eps q, within_sphere eps (nan, nan, nan) nan q = false)
    /\ ComputePointCloudBoundingSphere normalize []
       = Throws "Geometry::ComputePointCloudBoundingSphere: points.empty()!".
Proof.
  intros normalize. cbv zeta. split; [vm_compute; reflexivity|].
  split; [|split; [|reflexivity]].
  - apply bounding_sphere_nan_after_overflow. vm_compute. reflexivity.
  - intros eps q. unfold within_sphere. rewrite norm_vsub_nan.
    reflexivity.
Qed.

(** Rounding alone is enough: with the null-vector [normalize], the
    sphere of five points with small integer coordinates leaves the
    point (7,0,7) outside, at a distance of 8441486 * 2^-20 from the
    centre where the radius is 8441484 * 2^-20. *)
Example bounding_sphere_rounding_leaves_point_outside :
  let pt x y z : Point := (of_Z x 0, of_Z y 0, of_Z z 0) in
  let points := [pt 7 8 0; pt 2 5 1; pt 8 5 2; pt 7 0 7; pt 7 3 5]%Z in
  exists center radius,
    ComputePointCloudBoundingSphere normalize_or_null points
    = Returns (center, radius)
    /\ radius = S754_finite false 8441484 (-20)
    /\ norm (vsub (pt 7 0 7)%Z center) = S754_finite false 8441486 (-20)
    /\ ltb radius (norm (vsub (pt 7 0 7)%Z center)) = true.
Proof.
  cbv zeta. eexists. eexists.
  split; [vm_compute; reflexivity|].
  repeat split; vm_compute; reflexivity.
Qed.

(** The sphere of a mesh with the same two vertices: the midpoint of the
    two is a point of floats, its distance to the second overflows to
    infinity, and the second pass makes centre and radius NaN. *)
Example mesh_bounding_sphere_not_a_number_on_overflow :
  forall normalize : Point -> Point,
    let far := of_Z 1 65 in
    ComputeMeshBoundingSphere normalize
      [(zero, zero, zero); (far, far, zero)]
    = Returns ((nan, nan, nan), nan).
Proof.
  intros normalize. cbv zeta. unfold ComputeMeshBoundingSphere.
  set (p0 := (zero, zero, zero)). set (p1 := (of_Z 1 65, of_Z 1 65, zero)).
  assert (E : farthest_vertex p0 [p0; p1] zero p0 = (infinity, p1))
    by (vm_compute; reflexivity).
  rewrite E. cbv zeta.
  set (center := vscale half (vadd p0 p1)).
  assert (Er : norm (vsub p1 center) = infinity)
    by (vm_compute; reflexivity).
  rewrite Er. set (tail := [p1]). cbn [expand_sphere].
  assert (E0 : norm (vsub p0 center) = infinity)
    by (vm_compute; reflexivity).
  rewrite E0.
  change (ltb infinity infinity) with false. cbv iota.
  change (sub (div (add infinity infinity) two) infinity) with nan.
  rewrite vadd_vscale_nan, expand_sphere_nan_center. reflexivity.
Qed.

End SinglePrecision.

(* ===================================================================== *)
(** ** OBJ round trip *)
(* ===================================================================== *)

(** ** Decimal printing and scanning *)

Ltac digit_cases d :=
  let H := fresh in
  assert (H : (d = 0 \/ d = 1 \/ d = 2 \/ d = 3 \/ d = 4 \/ d = 5 \/ d = 6
               \/ d = 7 \/ d = 8 \/ d = 9)%N) by lia;
  repeat (destruct H as [H|H]; [subst d|]); try subst d.

Lemma digit_char_facts :
  forall d, (d < 10)%N ->
    Libc.isdigit (Libc.digit_char d) = true
    /\ Libc.isspace (Libc.digit_char d) = false
    /\ Libc.digit_val (Libc.digit_char d) = d
    /\ Ascii.eqb (Libc.digit_char d) "-" = false
    /\ Ascii.eqb (Libc.digit_char d) "+" = false
    /\ Ascii.eqb (Libc.digit_char d) LF = false.
Proof.
  intros d Hd. digit_cases d; repeat split; reflexivity.
Qed.

Lemma digits_le_lt_10 :
  forall fuel n, Forall (fun d => (d < 10)%N) (Libc.digits_le fuel n).
Proof.
  induction fuel as [|f IH]; intros n; cbn [Libc.digits_le]; [constructor|].
  destruct (N.ltb_spec n 10).
  - constructor; [assumption | constructor].
  - constructor; [apply N.mod_lt; lia | apply IH].
Qed.

Lemma digits_le_nonempty :
  forall fuel n, Libc.digits_le (S fuel) n <> [].
Proof.
  intros fuel n; cbn [Libc.digits_le]. destruct (n <? 10)%N; discriminate.
Qed.

Lemma digits_le_value :
  forall fuel n,
    (n < 2 ^ N.of_nat fuel)%N ->
    fold_right (fun d a => d + 10 * a)%N 0%N (Libc.digits_le fuel n) = n.
Proof.
  induction fuel as [|f IH]; intros n Hn.
  - simpl in *. lia.
  - cbn [Libc.digits_le]. destruct (N.ltb_spec n 10).
    + simpl. lia.
    + cbn [fold_right]. rewrite IH.
      * pose proof (N.div_mod n 10). lia.
      * rewrite Nat2N.inj_succ, N.pow_succ_r' in Hn.
        apply N.Div0.div_lt_upper_bound.
        pose proof (N.pow_nonzero 2 (N.of_nat f)).
        lia.
Qed.

Lemma print_N_value :
  forall n, Libc.digits_value (Libc.print_N n) = n.
Proof.
  intros n. unfold Libc.digits_value, Libc.print_N.
  set (ds := Libc.digits_le _ n).
  assert (Hds : Forall (fun d => (d < 10)%N) ds) by apply digits_le_lt_10.
  assert (Hv : fold_right (fun d a => d + 10 * a)%N 0%N ds = n).
  { apply digits_le_value. rewrite Nat2N.inj_succ, N2Nat.id.
    destruct (N.eq_dec n 0) as [->|Hn]; [reflexivity|].
    apply N.log2_spec. lia. }
  rewrite <- Hv. clear Hv.
  rewrite <- (rev_involutive ds) at 2.
  rewrite fold_left_rev_right.
  apply Forall_rev in Hds. revert Hds. generalize (rev ds) as l.
  intros l. generalize 0%N as a. induction l as [|d l IH]; intros a Hl.
  - reflexivity.
  - inversion Hl; subst. cbn [map fold_left].
    rewrite (proj1 (proj2 (proj2 (digit_char_facts d H1)))).
    rewrite IH by assumption. f_equal. lia.
Qed.

Lemma print_N_digits :
  forall n, Forall (fun c => exists d, (d < 10)%N /\ c = Libc.digit_char d)
                   (Libc.print_N n).
Proof.
  intros n. unfold Libc.print_N. apply Forall_map, Forall_rev.
  eapply Forall_impl; [|apply digits_le_lt_10].
  intros d Hd. exists d. split; [exact Hd | reflexivity].
Qed.

Lemma print_N_nonempty : forall n, Libc.print_N n <> [].
Proof.
  intros n. unfold Libc.print_N. intros H.
  apply map_eq_nil in H. apply (f_equal (@rev N)) in H.
  rewrite rev_involutive in H. exact (digits_le_nonempty _ _ H).
Qed.

Lemma count_while_app :
  forall p a rest,
    Forall (fun c => p c = true) a ->
    match rest with c :: _ => p c = false | [] => True end ->
    Libc.count_while p (a ++ rest) = length a.
Proof.
  intros p a rest Ha Hrest; induction Ha as [|c a Hc Ha IH]; simpl.
  - destruct rest as [|c rest]; [reflexivity|].
    simpl. rewrite Hrest. reflexivity.
  - rewrite Hc, IH. reflexivity.
Qed.

Lemma print_N_all_digits :
  forall n, Forall (fun c => Libc.isdigit c = true) (Libc.print_N n).
Proof.
  intros n. eapply Forall_impl; [|apply print_N_digits].
  intros c (d & Hd & ->). apply digit_char_facts; exact Hd.
Qed.

Lemma firstn_length_app :
  forall (A : Type) (a b : list A), firstn (length a) (a ++ b) = a.
Proof.
  intros A a b. rewrite firstn_app, firstn_all, Nat.sub_diag.
  cbn [firstn]. apply app_nil_r.
Qed.

(** What the scanners see in front of a printed number: no white space,
    no sign, the digits and nothing more. *)
Lemma scan_digits_facts :
  forall ds rest,
    ds <> [] ->
    Forall (fun c => exists d, (d < 10)%N /\ c = Libc.digit_char d) ds ->
    not_digit_first rest ->
    Libc.count_while Libc.isspace (ds ++ rest) = 0
    /\ match ds ++ rest with
       | c :: _ => if Ascii.eqb c "-" then (true, 1)
                   else if Ascii.eqb c "+" then (false, 1) else (false, 0)
       | [] => (false, 0)
       end = (false, 0)
    /\ Libc.count_while Libc.isdigit (ds ++ rest) = length ds
    /\ (length ds =? 0) = false.
Proof.
  intros ds rest Hne Hd Hrest.
  assert (Hall : Forall (fun c => Libc.isdigit c = true) ds).
  { eapply Forall_impl; [|exact Hd].
    intros c (d & Hlt & ->). apply digit_char_facts; exact Hlt. }
  split; [|split; [|split]].
  - destruct ds as [|c s]; [contradiction|].
    inversion Hd as [|? ? (d & Hlt & Hc) _]; subst.
    cbn [app Libc.count_while].
    rewrite (proj1 (proj2 (digit_char_facts d Hlt))). reflexivity.
  - destruct ds as [|c s]; [contradiction|].
    inversion Hd as [|? ? (d & Hlt & Hc) _]; subst. cbn [app].
    destruct (digit_char_facts d Hlt) as (_ & _ & _ & -> & -> & _).
    reflexivity.
  - apply count_while_app; assumption.
  - destruct ds; [contradiction | reflexivity].
Qed.

(** Scanning what was printed gives the number back and stops right
    behind its digits. *)
Lemma strtoul_print_N :
  forall n rest,
    (n <= Libc.ULONG_MAX)%N -> not_digit_first rest ->
    Libc.strtoul (Libc.print_N n ++ rest) = (n, length (Libc.print_N n)).
Proof.
  intros n rest Hn Hrest. unfold Libc.strtoul.
  destruct (scan_digits_facts (Libc.print_N n) rest (print_N_nonempty n)
                              (print_N_digits n) Hrest)
    as (Hws & Hsg & Hnd & Hlen).
  rewrite Hws. cbn [skipn]. rewrite Hsg. cbn [skipn].
  rewrite Hnd, Hlen, firstn_length_app, print_N_value.
  destruct (N.ltb_spec Libc.ULONG_MAX n); [lia | reflexivity].
Qed.

Lemma intscalar_strtof_print_N :
  forall n rest,
    not_digit_first rest ->
    IntScalar.strtof (Libc.print_N n ++ rest)
    = (Z.of_N n, length (Libc.print_N n)).
Proof.
  intros n rest Hrest. unfold IntScalar.strtof.
  destruct (scan_digits_facts (Libc.print_N n) rest (print_N_nonempty n)
                              (print_N_digits n) Hrest)
    as (Hws & Hsg & Hnd & Hlen).
  rewrite Hws. cbn [skipn]. rewrite Hsg. cbn [skipn].
  rewrite Hnd, Hlen, firstn_length_app, print_N_value. reflexivity.
Qed.

Lemma intscalar_strtof_print :
  forall z rest,
    not_digit_first rest ->
    IntScalar.strtof (IntScalar.print z ++ rest)
    = (z, length (IntScalar.print z)).
Proof.
  intros z rest Hrest. destruct z as [|p|p]; unfold IntScalar.print.
  - rewrite intscalar_strtof_print_N by exact Hrest. reflexivity.
  - rewrite intscalar_strtof_print_N by exact Hrest. reflexivity.
  - unfold IntScalar.strtof.
    destruct (scan_digits_facts (Libc.print_N (N.pos p)) rest
                (print_N_nonempty _) (print_N_digits _) Hrest)
      as (Hws & Hsg & Hnd & Hlen).
    cbn [app Libc.count_while]. change (Libc.isspace "-") with false.
    cbn [skipn]. change (Ascii.eqb "-" "-") with true. cbn [skipn].
    rewrite Hnd, Hlen, firstn_length_app, print_N_value. reflexivity.
Qed.

(** One blank in front of a number is skipped by the scanner. *)
Lemma intscalar_strtof_blank :
  forall s v n,
    IntScalar.strtof s = (v, n) -> n <> 0 ->
    IntScalar.strtof (SP :: s) = (v, S n).
Proof.
  intros s v n. unfold IntScalar.strtof.
  cbn [Libc.count_while]. change (Libc.isspace SP) with true. cbn [skipn].
  set (ws := Libc.count_while Libc.isspace s).
  destruct (match skipn ws s with
            | c :: _ => if Ascii.eqb c "-" then (true, 1)
                        else if Ascii.eqb c "+" then (false, 1)
                             else (false, 0)
            | [] => (false, 0)
            end) as [neg sg].
  destruct (Libc.count_while Libc.isdigit (skipn sg (skipn ws s)) =? 0).
  - intros H Hn. inversion H. congruence.
  - intros H _. inversion H. reflexivity.
Qed.

(** ** Reading the mapping through the text at the cursor *)

Lemma peek_skipn :
  forall mem c, peek mem c = hd NUL (skipn c mem).
Proof.
  unfold peek. induction mem as [|a mem IH]; intros [|c]; simpl; auto.
Qed.

Lemma skipn_lt_length :
  forall (mem : list ascii) c a s, skipn c mem = a :: s -> c < length mem.
Proof.
  intros mem c a s H. destruct (Nat.lt_ge_cases c (length mem)); [assumption|].
  rewrite skipn_all2 in H by assumption. discriminate.
Qed.

Lemma skipn_plus :
  forall (mem : list ascii) c a s,
    skipn c mem = a ++ s -> skipn (c + length a) mem = s.
Proof.
  intros mem c a s H.
  rewrite Nat.add_comm, <- skipn_skipn, H, skipn_app, skipn_all, Nat.sub_diag.
  reflexivity.
Qed.

Lemma peek_at :
  forall mem c a s, skipn c mem = a :: s -> peek mem c = a.
Proof. intros mem c a s H. rewrite peek_skipn, H. reflexivity. Qed.

Lemma starts_with_cons :
  forall x lit mem c,
    starts_with (x :: lit) mem c
    = Ascii.eqb (peek mem c) x && starts_with lit mem (S c).
Proof. reflexivity. Qed.

Lemma starts_with_at :
  forall lit mem c s, skipn c mem = lit ++ s -> starts_with lit mem c = true.
Proof.
  induction lit as [|x lit IH]; intros mem c s H; [reflexivity|].
  rewrite starts_with_cons, (peek_at mem c x (lit ++ s) H), Ascii.eqb_refl.
  apply (IH mem (S c) s).
  replace (S c) with (c + length [x]) by (simpl; lia).
  apply skipn_plus. exact H.
Qed.

Lemma starts_with_other :
  forall x lit mem c, Ascii.eqb (peek mem c) x = false ->
                      starts_with (x :: lit) mem c = false.
Proof. intros. rewrite starts_with_cons, H. reflexivity. Qed.

(** The scanning loop stops at the first stop character of the text at
    the cursor. *)
Lemma skip_to_spec :
  forall stop mem a c x s,
    skipn c mem = a ++ x :: s ->
    Forall (fun y => stop y = false) a -> stop x = true ->
    skip_to stop mem c (length mem) = c + length a.
Proof.
  intros stop mem a; induction a as [|y a IH]; intros c x s H Ha Hx.
  - cbn [app] in H. pose proof (skipn_lt_length _ _ _ _ H) as Hlt.
    unfold skip_to. destruct (length mem - c) as [|k] eqn:Hk; [lia|].
    cbn [scan_until]. rewrite (peek_at _ _ _ _ H), Hx. simpl. lia.
  - cbn [app] in H. pose proof (skipn_lt_length _ _ _ _ H) as Hlt.
    inversion Ha as [|? ? Hy Ha']; subst.
    unfold skip_to. destruct (length mem - c) as [|k] eqn:Hk; [lia|].
    cbn [scan_until]. rewrite (peek_at _ _ _ _ H), Hy.
    assert (H' : skipn (S c) mem = a ++ x :: s).
    { replace (S c) with (c + length [y]) by (simpl; lia).
      apply skipn_plus. exact H. }
    specialize (IH (S c) x s H' Ha' Hx). unfold skip_to in IH.
    replace (length mem - S c) with k in IH by lia.
    rewrite IH. simpl. lia.
Qed.

(** ** Export to OBJ, then import *)

Section RoundTrip.

Variable Scalar : Type.
Variable strtof : list ascii -> Scalar * nat.
Variable print_scalar : Scalar -> list ascii.

(** [close x x'] : the scalar [x'] is within tolerance of [x]. *)
Variable close : Scalar -> Scalar -> Prop.

(** What is assumed of the C library: a printed scalar holds no newline,
    and [strtof], on a printed scalar followed by white space (after one
    blank or none), consumes exactly the printed text and returns a
    scalar within tolerance of the one printed. *)
Hypothesis print_scalar_no_LF :
  forall x, Forall (fun c => Ascii.eqb c LF = false) (print_scalar x).
Hypothesis strtof_print_scalar :
  forall (lead : bool) x rest,
    space_first rest ->
    exists x',
      strtof ((if lead then [SP] else []) ++ print_scalar x ++ rest)
      = (x', (if lead then 1 else 0) + length (print_scalar x))
      /\ close x x'.

Lemma ParseChunk_step :
  forall mem end_ k c data c' data',
    (forall fuel,
        ParseChunk_loop strtof mem end_ (k + fuel) c data
        = ParseChunk_loop strtof mem end_ fuel c' data') ->
    ParseChunk strtof mem c end_ data = ParseChunk strtof mem c' end_ data'.
Proof.
  intros mem end_ k c data c' data' H.
  destruct (ParseChunk_total Scalar strtof mem c' end_ data') as [r Hr].
  rewrite Hr. unfold ParseChunk in Hr.
  apply ParseChunk_of_run with (fuel := k + (end_ - c')).
  rewrite H. exact Hr.
Qed.

Lemma ParseChunk_at_end :
  forall mem c data,
    skipn c mem = [] ->
    ParseChunk strtof mem c (length mem) data = Some data.
Proof.
  intros mem c data H. unfold ParseChunk.
  assert (Hc : length mem <= c).
  { destruct (Nat.lt_ge_cases c (length mem)) as [Hlt|]; [|assumption].
    apply (f_equal (@length ascii)) in H. rewrite length_skipn in H.
    simpl in H. lia. }
  replace (length mem - c) with 0 by lia. cbn [ParseChunk_loop].
  destruct (Nat.leb_spec (length mem) c); [reflexivity | lia].
Qed.

(** A vertex or normal record at the cursor is parsed in three rounds of
    the loop: the record itself, the carriage return, the newline. *)
Lemma vertex_record_parsed :
  forall mem c data isNormal v rest,
    skipn c mem = obj_vertex_record print_scalar isNormal v ++ rest ->
    exists v',
      vec3_rel close v v'
      /\ ParseChunk strtof mem c (length mem) data
         = ParseChunk strtof mem
             (c + length (obj_vertex_record print_scalar isNormal v))
             (length mem) (push_vertex isNormal v' data).
Proof using strtof_print_scalar.
  intros mem c data isNormal [[x y] z] rest H.
  unfold obj_vertex_record in *.
  set (pre := bytes (if isNormal then "vn " else "v ")) in *.
  repeat (rewrite <- app_assoc in H || rewrite <- app_comm_cons in H).
  cbn [app] in H.
  set (t3 := CR :: LF :: rest) in *.
  set (t2 := SP :: print_scalar z ++ t3) in *.
  set (t1 := SP :: print_scalar y ++ t2) in *.
  destruct (strtof_print_scalar false x t1 eq_refl) as (x' & Ex & Hx).
  destruct (strtof_print_scalar true y t2 eq_refl) as (y' & Ey & Hy).
  destruct (strtof_print_scalar true z t3 eq_refl) as (z' & Ez & Hz).
  cbn [app] in Ex, Ey, Ez.
  exists (x', y', z'). split; [repeat split; assumption|].
  assert (Hstart : starts_with (bytes "v ") mem c
                   || starts_with (bytes "vn ") mem c = true
                   /\ starts_with (bytes "vn ") mem c = isNormal
                   /\ is_LF (peek mem c) = false
                   /\ c < length mem).
  { destruct isNormal; subst pre.
    - assert (Hv : peek mem c = "v"%char) by exact (peek_at _ _ _ _ H).
      rewrite (starts_with_at (bytes "vn ") mem c _ H).
      rewrite orb_true_r, Hv. repeat split.
      exact (skipn_lt_length _ _ _ _ H).
    - assert (Hv : peek mem c = "v"%char) by exact (peek_at _ _ _ _ H).
      rewrite (starts_with_at (bytes "v ") mem c _ H).
      assert (Hn : peek mem (S c) = " "%char).
      { apply (peek_at mem (S c) _ (print_scalar x ++ t1)).
        replace (S c) with (c + length ["v"%char]) by (simpl; lia).
        apply skipn_plus. exact H. }
      assert (Hvn : starts_with (bytes "vn ") mem c = false).
      { change (bytes "vn ") with ("v"%char :: "n"%char :: [" "%char]).
        rewrite starts_with_cons, Hv. cbn [Ascii.eqb Bool.eqb andb].
        apply starts_with_other. rewrite Hn. reflexivity. }
      rewrite Hvn, Hv. repeat split. exact (skipn_lt_length _ _ _ _ H). }
  destruct Hstart as (Hor & Hisn & Hnl & Hlt).
  (* positions *)
  set (c0 := c + (if isNormal then 3 else 2)).
  assert (H0 : skipn c0 mem = print_scalar x ++ t1).
  { subst c0. replace (if isNormal then 3 else 2) with (length pre)
      by (subst pre; destruct isNormal; reflexivity).
    apply skipn_plus. exact H. }
  set (c1 := c0 + (0 + length (print_scalar x))).
  assert (H1 : skipn c1 mem = t1).
  { subst c1. cbn [Nat.add]. apply skipn_plus. exact H0. }
  set (c2 := c1 + (1 + length (print_scalar y))).
  assert (H2 : skipn c2 mem = t2).
  { subst c2. change (1 + length (print_scalar y))
      with (length (SP :: print_scalar y)).
    apply skipn_plus. exact H1. }
  set (c3 := c2 + (1 + length (print_scalar z))).
  assert (H3 : skipn c3 mem = t3).
  { subst c3. change (1 + length (print_scalar z))
      with (length (SP :: print_scalar z)).
    apply skipn_plus. exact H2. }
  assert (Hlen : c + length (pre ++ print_scalar x ++ SP :: print_scalar y
                               ++ SP :: print_scalar z ++ [CR; LF])
                 = S (S c3)).
  { subst c3 c2 c1 c0.
    repeat (rewrite length_app || cbn [length]).
    replace (length pre) with (if isNormal then 3 else 2)
      by (subst pre; destruct isNormal; reflexivity).
    destruct isNormal; lia. }
  rewrite Hlen.
  apply ParseChunk_step with (k := 3). intros fuel.
  change (3 + fuel) with (S (S (S fuel))).
  (* first round: the record *)
  rewrite ParseChunk_loop_unfold.
  destruct (Nat.leb_spec (length mem) c); [lia|].
  rewrite Hnl, Hor. cbv zeta. rewrite Hisn. fold c0.
  rewrite H0, Ex. fold c1. rewrite H1. subst t1. rewrite Ey. fold c2.
  rewrite H2. subst t2. rewrite Ez. fold c3.
  (* second round: the carriage return *)
  rewrite ParseChunk_loop_unfold.
  pose proof (skipn_lt_length _ _ _ _ H3) as Hlt3.
  destruct (Nat.leb_spec (length mem) c3); [lia|].
  assert (Hcr : peek mem c3 = CR) by exact (peek_at _ _ _ _ H3).
  rewrite Hcr. change (is_LF CR) with false. cbv iota.
  change (bytes "v ") with ["v"%char; " "%char].
  change (bytes "vn ") with ["v"%char; "n"%char; " "%char].
  change (bytes "f ") with ["f"%char; " "%char].
  rewrite !starts_with_other by (rewrite Hcr; reflexivity).
  cbn [orb]. cbv iota.
  rewrite (skip_to_spec is_LF mem [CR] c3 LF rest H3)
    by (repeat constructor).
  cbn [length]. replace (c3 + 1) with (S c3) by lia.
  (* third round: the newline *)
  rewrite ParseChunk_loop_unfold.
  assert (Hnl4 : skipn (S c3) mem = LF :: rest).
  { replace (S c3) with (c3 + length [CR]) by (simpl; lia).
    apply skipn_plus. exact H3. }
  pose proof (skipn_lt_length _ _ _ _ Hnl4) as Hlt4.
  destruct (Nat.leb_spec (length mem) (S c3)); [lia|].
  rewrite (peek_at _ _ _ _ Hnl4). change (is_LF LF) with true. cbv iota.
  reflexivity.
Qed.

Lemma parse_face_unfold :
  forall mem end_ fuel cursor faceIndices,
    parse_face mem end_ (S fuel) cursor faceIndices =
    if is_LF (peek mem cursor) || (end_ <=? cursor)
    then Some (cursor, faceIndices)
    else
      let '(vertexIndex, n) := Libc.strtoul (skipn cursor mem) in
      if n =? 0 then Some (cursor, faceIndices)
      else
        let cursor := cursor + n in
        if (vertexIndex =? 0)%N then Some (cursor, faceIndices)
        else
          let faceIndices := faceIndices ++ [(vertexIndex - 1)%N] in
          let cursor := skip_slashes mem cursor in
          let cursor := skip_to is_SP_or_LF mem cursor end_ in
          let cursor :=
            if Ascii.eqb (peek mem cursor) SP then S cursor else cursor in
          parse_face mem end_ fuel cursor faceIndices.
Proof. reflexivity. Qed.

Lemma print_N_first_char :
  forall n rest,
    exists d s, (d < 10)%N /\ Libc.print_N n ++ rest = Libc.digit_char d :: s.
Proof.
  intros n rest. pose proof (print_N_nonempty n) as Hne.
  pose proof (print_N_digits n) as Hd.
  destruct (Libc.print_N n) as [|c s]; [contradiction|].
  inversion Hd as [|? ? (d & Hlt & Hc) _]; subst.
  exists d, (s ++ rest). split; [exact Hlt | reflexivity].
Qed.

(** The vertex references of a face record, as the inner loop reads
    them: the cursor ends on the newline, the indices come back one
    less than printed. *)
Lemma face_indices_parsed :
  forall mem indices index c faceIndices rest,
    skipn c mem
    = Libc.print_N (index + 1)
        ++ flat_map (fun i => SP :: Libc.print_N (i + 1)) indices
        ++ CR :: LF :: rest ->
    Forall (fun i => (i + 1 <= Libc.ULONG_MAX)%N) (index :: indices) ->
    exists fuel,
      parse_face mem (length mem) fuel c faceIndices
      = Some (c + length (Libc.print_N (index + 1)
                            ++ flat_map (fun i => SP :: Libc.print_N (i + 1))
                                        indices) + 1,
              faceIndices ++ index :: indices).
Proof.
  intros mem indices; induction indices as [|next indices IH];
    intros index c faceIndices rest H Hok.
  - cbn [flat_map app] in *. rewrite app_nil_r.
    inversion Hok as [|? ? Hindex _]; subst.
    exists 1. rewrite parse_face_unfold.
    destruct (print_N_first_char (index + 1) (CR :: LF :: rest))
      as (d & s & Hd & Es).
    pose proof H as H'. rewrite Es in H'.
    rewrite (peek_at _ _ _ _ H').
    replace (is_LF (Libc.digit_char d)) with false
      by (symmetry; apply digit_char_facts; exact Hd).
    pose proof (skipn_lt_length _ _ _ _ H') as Hlt.
    destruct (Nat.leb_spec (length mem) c); [lia|]. cbn [orb].
    rewrite H, strtoul_print_N by (exact Hindex || reflexivity).
    pose proof (print_N_nonempty (index + 1)) as Hne.
    destruct (Nat.eqb_spec (length (Libc.print_N (index + 1))) 0) as [E0|_].
    { destruct (Libc.print_N (index + 1)); [contradiction | discriminate]. }
    destruct (N.eqb_spec (index + 1) 0); [lia|].
    replace (index + 1 - 1)%N with index by lia.
    set (c1 := c + length (Libc.print_N (index + 1))).
    assert (H1 : skipn c1 mem = CR :: LF :: rest)
      by (apply skipn_plus; exact H).
    assert (Hcr : peek mem c1 = CR) by exact (peek_at _ _ _ _ H1).
    assert (Hsl : skip_slashes mem c1 = c1).
    { unfold skip_slashes. rewrite Hcr. reflexivity. }
    cbv zeta. rewrite Hsl.
    rewrite (skip_to_spec is_SP_or_LF mem [CR] c1 LF rest H1)
      by (repeat constructor).
    cbn [length].
    assert (H2 : skipn (c1 + 1) mem = LF :: rest).
    { change 1 with (length [CR]). apply skipn_plus. exact H1. }
    rewrite (peek_at _ _ _ _ H2). change (Ascii.eqb LF SP) with false.
    cbv iota. cbn [parse_face]. rewrite (peek_at _ _ _ _ H2).
    change (is_LF LF) with true. reflexivity.
  - cbn [flat_map] in *.
    inversion Hok as [|? ? Hindex Hok']; subst.
    set (tail := flat_map (fun i => SP :: Libc.print_N (i + 1)) indices) in *.
    repeat (rewrite <- app_assoc in H || rewrite <- app_comm_cons in H).
    set (c1 := c + length (Libc.print_N (index + 1))).
    assert (H1 : skipn c1 mem
                 = SP :: Libc.print_N (next + 1) ++ tail ++ CR :: LF :: rest)
      by (apply skipn_plus; exact H).
    assert (H2 : skipn (S c1) mem
                 = Libc.print_N (next + 1) ++ tail ++ CR :: LF :: rest).
    { replace (S c1) with (c1 + length [SP]) by (simpl; lia).
      apply skipn_plus. exact H1. }
    destruct (IH next (S c1) (faceIndices ++ [index]) rest H2 Hok')
      as [fuel Hrun].
    exists (S fuel). rewrite parse_face_unfold.
    destruct (print_N_first_char (index + 1)
                (SP :: Libc.print_N (next + 1) ++ tail ++ CR :: LF :: rest))
      as (d & s & Hd & Es).
    pose proof H as H'. rewrite Es in H'.
    rewrite (peek_at _ _ _ _ H').
    replace (is_LF (Libc.digit_char d)) with false
      by (symmetry; apply digit_char_facts; exact Hd).
    pose proof (skipn_lt_length _ _ _ _ H') as Hlt.
    destruct (Nat.leb_spec (length mem) c); [lia|]. cbn [orb].
    rewrite H, strtoul_print_N by (exact Hindex || reflexivity).
    pose proof (print_N_nonempty (index + 1)) as Hne.
    destruct (Nat.eqb_spec (length (Libc.print_N (index + 1))) 0) as [E0|_].
    { destruct (Libc.print_N (index + 1)); [contradiction | discriminate]. }
    destruct (N.eqb_spec (index + 1) 0); [lia|].
    replace (index + 1 - 1)%N with index by lia.
    fold c1.
    assert (Hsp : peek mem c1 = SP) by exact (peek_at _ _ _ _ H1).
    assert (Hsl : skip_slashes mem c1 = c1).
    { unfold skip_slashes. rewrite Hsp. reflexivity. }
    cbv zeta. rewrite Hsl.
    rewrite (skip_to_spec is_SP_or_LF mem [] c1 SP _ H1)
      by (constructor || reflexivity).
    cbn [length]. rewrite Nat.add_0_r, Hsp, Ascii.eqb_refl.
    rewrite Hrun. f_equal. f_equal.
    + subst c1. repeat (rewrite length_app || cbn [length]). lia.
    + rewrite <- app_assoc. reflexivity.
Qed.

Lemma parse_face_of_run :
  forall mem end_ fuel c faceIndices r,
    parse_face mem end_ fuel c faceIndices = Some r ->
    parse_face mem end_ (end_ - c) c faceIndices = Some r.
Proof.
  intros mem end_ fuel c faceIndices r H.
  destruct (parse_face_total mem end_ (end_ - c) c faceIndices
                             (Nat.le_refl _)) as (c' & fi & Hr & _).
  rewrite Hr.
  pose proof (parse_face_mono _ _ _ _ _ _ _ H
                (Nat.le_max_l fuel (end_ - c))) as H1.
  pose proof (parse_face_mono _ _ _ _ _ _ _ Hr
                (Nat.le_max_r fuel (end_ - c))) as H2.
  congruence.
Qed.

(** A face record with at least one vertex reference is parsed in one
    round of the loop. *)
Lemma face_record_parsed :
  forall mem c data index indices rest,
    skipn c mem = obj_face_record (index :: indices) ++ rest ->
    Forall (fun i => (i + 1 <= Libc.ULONG_MAX)%N) (index :: indices) ->
    ParseChunk strtof mem c (length mem) data
    = ParseChunk strtof mem
        (c + length (obj_face_record (index :: indices)))
        (length mem) (push_face (index :: indices) data).
Proof.
  intros mem c data index indices rest H Hok.
  unfold obj_face_record in *. cbn [flat_map] in *.
  change (bytes "f") with ["f"%char] in *.
  set (tail := flat_map (fun i => SP :: Libc.print_N (i + 1)) indices) in *.
  repeat (rewrite <- app_assoc in H || rewrite <- app_comm_cons in H).
  cbn [app] in H.
  assert (H2 : skipn (c + 2) mem
               = Libc.print_N (index + 1) ++ tail ++ CR :: LF :: rest).
  { change 2 with (length ["f"%char; SP]). apply skipn_plus. exact H. }
  destruct (face_indices_parsed mem indices index (c + 2) [] rest H2 Hok)
    as [fuel Hrun].
  apply parse_face_of_run in Hrun. fold tail in Hrun.
  set (cnl := c + 2 + length (Libc.print_N (index + 1) ++ tail) + 1) in *.
  assert (Hnl : skipn cnl mem = LF :: rest).
  { subst cnl. change 1 with (length [CR]) at 2.
    apply skipn_plus. apply skipn_plus.
    rewrite <- app_assoc. exact H2. }
  apply ParseChunk_step with (k := 1). intros fuel'.
  change (1 + fuel') with (S fuel').
  rewrite ParseChunk_loop_unfold.
  pose proof (skipn_lt_length _ _ _ _ H) as Hlt.
  destruct (Nat.leb_spec (length mem) c); [lia|].
  assert (Hf : peek mem c = "f"%char) by exact (peek_at _ _ _ _ H).
  rewrite Hf. change (is_LF "f") with false. cbv iota.
  change (bytes "v ") with ["v"%char; " "%char].
  change (bytes "vn ") with ["v"%char; "n"%char; " "%char].
  rewrite !starts_with_other by (rewrite Hf; reflexivity).
  cbn [orb]. cbv iota.
  rewrite (starts_with_at (bytes "f ") mem c _ H).
  cbv zeta. rewrite Hrun.
  rewrite (skip_to_spec is_LF mem [] cnl LF rest Hnl)
    by (constructor || reflexivity).
  cbn [length]. rewrite Nat.add_0_r.
  pose proof (skipn_lt_length _ _ _ _ Hnl) as Hltnl.
  destruct (Nat.ltb_spec cnl (length mem)); [|lia].
  cbn [app]. f_equal.
  subst cnl. repeat (rewrite length_app || cbn [length]). lia.
Qed.

(** A block of vertex (or normal) records is parsed record by record. *)
Lemma vertex_records_parsed :
  forall mem isNormal vs c data rest,
    skipn c mem
    = flat_map (obj_vertex_record print_scalar isNormal) vs ++ rest ->
    exists vs',
      Forall2 (vec3_rel close) vs vs'
      /\ ParseChunk strtof mem c (length mem) data
         = ParseChunk strtof mem
             (c + length (flat_map (obj_vertex_record print_scalar isNormal)
                                   vs))
             (length mem) (push_vertices isNormal vs' data).
Proof using strtof_print_scalar.
  intros mem isNormal vs; induction vs as [|v vs IH]; intros c data rest H.
  - exists []. split; [constructor|]. cbn [flat_map length].
    rewrite Nat.add_0_r. reflexivity.
  - cbn [flat_map] in *. rewrite <- app_assoc in H.
    destruct (vertex_record_parsed mem c data isNormal v _ H)
      as (v' & Hv & Estep).
    apply skipn_plus in H.
    destruct (IH _ (push_vertex isNormal v' data) rest H)
      as (vs' & Hvs & Erest).
    exists (v' :: vs'). split; [constructor; assumption|].
    rewrite Estep, Erest, length_app. cbn [push_vertices fold_left].
    f_equal. lia.
Qed.

(** A block of face records, none of them empty, is parsed record by
    record. *)
Lemma face_records_parsed :
  forall mem fs c data rest,
    skipn c mem = flat_map obj_face_record fs ++ rest ->
    Forall (fun f => f <> []
                     /\ Forall (fun i => (i + 1 <= Libc.ULONG_MAX)%N) f) fs ->
    ParseChunk strtof mem c (length mem) data
    = ParseChunk strtof mem (c + length (flat_map obj_face_record fs))
                 (length mem) (push_faces fs data).
Proof.
  intros mem fs; induction fs as [|f fs IH]; intros c data rest H Hok.
  - cbn [flat_map length]. rewrite Nat.add_0_r. reflexivity.
  - cbn [flat_map] in *. rewrite <- app_assoc in H.
    inversion Hok as [|? ? [Hne Hf] Hok']; subst.
    destruct f as [|index indices]; [contradiction|].
    rewrite (face_record_parsed mem c data index indices _ H Hf).
    apply skipn_plus in H.
    rewrite (IH _ (push_face (index :: indices) data) rest H Hok').
    rewrite length_app. cbn [push_faces fold_left]. f_equal. lia.
Qed.

Lemma to_text_mode_app :
  forall crlf a b,
    to_text_mode crlf (a ++ b) = to_text_mode crlf a ++ to_text_mode crlf b.
Proof. intros. apply flat_map_app. Qed.

Lemma to_text_mode_cons :
  forall crlf c s,
    to_text_mode crlf (c :: s)
    = (if crlf && Ascii.eqb c LF then [CR; LF] else [c])
        ++ to_text_mode crlf s.
Proof. reflexivity. Qed.

Lemma to_text_mode_plain :
  forall crlf s,
    Forall (fun c => Ascii.eqb c LF = false) s -> to_text_mode crlf s = s.
Proof.
  intros crlf s H; induction H as [|c s Hc _ IH]; [reflexivity|].
  rewrite to_text_mode_cons, Hc, andb_false_r, IH. reflexivity.
Qed.

Lemma to_text_mode_flat_map :
  forall (A : Type) crlf (f : A -> list ascii) l,
    to_text_mode crlf (flat_map f l)
    = flat_map (fun x => to_text_mode crlf (f x)) l.
Proof.
  intros A crlf f l; induction l as [|x l IH]; [reflexivity|].
  cbn [flat_map]. rewrite to_text_mode_app, IH. reflexivity.
Qed.

Lemma print_N_no_LF :
  forall n, Forall (fun c => Ascii.eqb c LF = false) (Libc.print_N n).
Proof.
  intros n. eapply Forall_impl; [|apply print_N_digits].
  intros c (d & Hd & ->). apply digit_char_facts; exact Hd.
Qed.

Lemma text_mode_vertex_record :
  forall (pre : bool) v,
    to_text_mode true (bytes (if pre then "vn " else "v ")
                         ++ coords print_scalar " " v)
    = obj_vertex_record print_scalar pre v.
Proof using print_scalar_no_LF.
  intros pre [[x y] z]. unfold coords, obj_vertex_record.
  change (bytes " ") with [SP].
  rewrite !to_text_mode_app.
  rewrite !(to_text_mode_plain true (print_scalar _))
    by apply print_scalar_no_LF.
  destruct pre; reflexivity.
Qed.

Lemma text_mode_face_record :
  forall indices,
    Forall (fun i => (i + 1 <= Libc.ULONG_MAX)%N) indices ->
    to_text_mode true (obj_face_line indices) = obj_face_record indices.
Proof.
  intros indices Hok. unfold obj_face_line, obj_face_record.
  rewrite !to_text_mode_app. f_equal. f_equal.
  induction Hok as [|i indices Hi _ IH]; [reflexivity|].
  cbn [flat_map]. rewrite to_text_mode_app, IH. f_equal.
  rewrite to_text_mode_cons. cbn [andb Ascii.eqb Bool.eqb app].
  change (SP =? LF)%char with false. cbn [app].
  rewrite N.mod_small by (unfold UINT_MOD, Libc.ULONG_MAX in *; lia).
  rewrite to_text_mode_plain by apply print_N_no_LF. reflexivity.
Qed.

(** The bytes an exported OBJ file holds. *)
Lemma text_mode_obj_text :
  forall g : BaseMeshGeometryData Scalar,
    Forall (Forall (fun i => (i + 1 <= Libc.ULONG_MAX)%N)) (PolyIndices g) ->
    to_text_mode true (obj_text print_scalar g)
    = flat_map (obj_vertex_record print_scalar false) (Vertices g)
        ++ flat_map (obj_vertex_record print_scalar true) (VertexNormals g)
        ++ flat_map obj_face_record (PolyIndices g).
Proof using print_scalar_no_LF.
  intros g Hok. unfold obj_text.
  rewrite !to_text_mode_app, !to_text_mode_flat_map.
  f_equal; [|f_equal].
  - apply flat_map_ext. intros v. apply (text_mode_vertex_record false).
  - apply flat_map_ext. intros v. apply (text_mode_vertex_record true).
  - induction Hok as [|f fs Hf _ IH]; [reflexivity|].
    cbn [flat_map]. rewrite IH, text_mode_face_record by exact Hf.
    reflexivity.
Qed.

Lemma push_vertices_fields :
  forall isNormal vs (data : ChunkData Scalar),
    chunkVertices (push_vertices isNormal vs data)
    = chunkVertices data ++ (if isNormal then [] else vs)
    /\ chunkVertexNormals (push_vertices isNormal vs data)
       = chunkVertexNormals data ++ (if isNormal then vs else [])
    /\ chunkPolyIndices (push_vertices isNormal vs data)
       = chunkPolyIndices data.
Proof.
  intros isNormal vs; induction vs as [|v vs IH]; intros data.
  - cbn [push_vertices fold_left]. destruct isNormal;
      rewrite !app_nil_r; auto.
  - cbn [push_vertices fold_left].
    destruct (IH (push_vertex isNormal v data)) as (E1 & E2 & E3).
    unfold push_vertices in *. rewrite E1, E2, E3.
    destruct isNormal; cbn [push_vertex chunkVertices chunkVertexNormals
                              chunkPolyIndices];
      rewrite <- ?app_assoc; auto.
Qed.

Lemma push_faces_fields :
  forall fs (data : ChunkData Scalar),
    Forall (fun f => f <> []) fs ->
    chunkVertices (push_faces fs data) = chunkVertices data
    /\ chunkVertexNormals (push_faces fs data) = chunkVertexNormals data
    /\ chunkPolyIndices (push_faces fs data) = chunkPolyIndices data ++ fs.
Proof.
  intros fs; induction fs as [|f fs IH]; intros data Hne.
  - cbn [push_faces fold_left]. rewrite app_nil_r. auto.
  - inversion Hne as [|? ? Hf Hfs]; subst.
    cbn [push_faces fold_left].
    destruct (IH (push_face f data) Hfs) as (E1 & E2 & E3).
    unfold push_faces in *. rewrite E1, E2, E3.
    destruct f as [|i f]; [contradiction|].
    cbn [push_face chunkVertices chunkVertexNormals chunkPolyIndices].
    rewrite <- app_assoc. auto.
Qed.

(** The single-threaded import of the bytes of an exported file. *)
Lemma import_of_exported_text :
  forall g : BaseMeshGeometryData Scalar,
    Forall (fun f => f <> []
                     /\ Forall (fun i => (i + 1 <= Libc.ULONG_MAX)%N) f)
           (PolyIndices g) ->
    exists vs ns,
      Forall2 (vec3_rel close) (Vertices g) vs
      /\ Forall2 (vec3_rel close) (VertexNormals g) ns
      /\ import_obj_mapped strtof (to_text_mode true (obj_text print_scalar g))
                           1
         = Some (mkGeom vs (PolyIndices g) ns).
Proof using print_scalar_no_LF strtof_print_scalar.
  intros g Hok.
  assert (Hrange : Forall (Forall (fun i => (i + 1 <= Libc.ULONG_MAX)%N))
                          (PolyIndices g)).
  { eapply Forall_impl; [|exact Hok]. intros f [_ H]; exact H. }
  assert (Hne : Forall (fun f => f <> []) (PolyIndices g)).
  { eapply Forall_impl; [|exact Hok]. intros f [H _]; exact H. }
  rewrite (text_mode_obj_text g Hrange).
  set (tv := flat_map (obj_vertex_record print_scalar false) (Vertices g)).
  set (tn := flat_map (obj_vertex_record print_scalar true)
                      (VertexNormals g)).
  set (tf := flat_map obj_face_record (PolyIndices g)).
  set (mem := tv ++ tn ++ tf).
  assert (H0 : skipn 0 mem = tv ++ tn ++ tf) by reflexivity.
  destruct (vertex_records_parsed mem false (Vertices g) 0 emptyChunk _ H0)
    as (vs & Hvs & E1).
  fold tv in E1. apply skipn_plus in H0.
  destruct (vertex_records_parsed mem true (VertexNormals g) _
              (push_vertices false vs emptyChunk) _ H0)
    as (ns & Hns & E2).
  fold tn in E2. apply skipn_plus in H0.
  rewrite <- (app_nil_r tf) in H0.
  pose proof (face_records_parsed mem (PolyIndices g) _
                (push_vertices true ns (push_vertices false vs emptyChunk))
                [] H0 Hok) as E3.
  fold tf in E3. apply skipn_plus in H0.
  pose proof (ParseChunk_at_end mem _
                (push_faces (PolyIndices g)
                   (push_vertices true ns
                      (push_vertices false vs emptyChunk))) H0) as E4.
  exists vs, ns. split; [exact Hvs|]. split; [exact Hns|].
  unfold import_obj_mapped. rewrite obj_chunks_single.
  cbn [parse_chunks]. rewrite E1, E2, E3, E4.
  cbn [fold_left]. unfold merge_chunk, emptyGeom.
  cbn [Vertices PolyIndices VertexNormals app].
  destruct (push_faces_fields (PolyIndices g)
              (push_vertices true ns (push_vertices false vs emptyChunk)) Hne)
    as (F1 & F2 & F3).
  destruct (push_vertices_fields true ns (push_vertices false vs emptyChunk))
    as (N1 & N2 & N3).
  destruct (push_vertices_fields false vs emptyChunk) as (V1 & V2 & V3).
  rewrite F1, F2, F3, N1, N2, N3, V1, V2, V3.
  cbn [emptyChunk chunkVertices chunkVertexNormals chunkPolyIndices app].
  rewrite !app_nil_r. reflexivity.
Qed.

Variable ExtractLowercaseFileExtensionFromPath : string -> string.

Lemma exported_text_nonempty :
  forall g : BaseMeshGeometryData Scalar,
    Forall (Forall (fun i => (i + 1 <= Libc.ULONG_MAX)%N)) (PolyIndices g) ->
    Vertices g <> [] \/ VertexNormals g <> [] \/ PolyIndices g <> [] ->
    length (to_text_mode true (obj_text print_scalar g)) <> 0.
Proof using print_scalar_no_LF.
  intros g Hrange Hne. rewrite (text_mode_obj_text g Hrange).
  rewrite !length_app.
  destruct Hne as [H|[H|H]].
  - destruct (Vertices g) as [|[[x y] z] vs]; [contradiction|].
    cbn [flat_map]. unfold obj_vertex_record at 1.
    change (bytes "v ") with ["v"%char; " "%char].
    cbn [app length]. lia.
  - destruct (VertexNormals g) as [|[[x y] z] vs]; [contradiction|].
    cbn [flat_map]. unfold obj_vertex_record at 2.
    change (bytes "vn ") with ["v"%char; "n"%char; " "%char].
    cbn [app length]. lia.
  - destruct (PolyIndices g) as [|f fs]; [contradiction|].
    cbn [flat_map]. unfold obj_face_record at 1.
    change (bytes "f") with ["f"%char].
    cbn [app length]. lia.
Qed.


End RoundTrip.

Lemma space_is_not_digit :
  forall rest, space_first rest -> not_digit_first rest.
Proof.
  intros [|c rest]; [contradiction|]. unfold space_first, not_digit_first.
  unfold Libc.isspace, Libc.isdigit. intros H.
  destruct (Nat.leb_spec 48 (nat_of_ascii c)); [|reflexivity].
  destruct (Nat.eqb_spec (nat_of_ascii c) 32); [lia|].
  destruct (Nat.leb_spec (nat_of_ascii c) 13); [lia|].
  rewrite andb_false_r in H. discriminate.
Qed.

Lemma intscalar_print_nonempty :
  forall z, length (IntScalar.print z) <> 0.
Proof.
  intros z. unfold IntScalar.print. destruct z as [|p|p].
  - pose proof (print_N_nonempty (Z.to_N 0)) as H.
    destruct (Libc.print_N (Z.to_N 0)); [contradiction | discriminate].
  - pose proof (print_N_nonempty (Z.to_N (Z.pos p))) as H.
    destruct (Libc.print_N (Z.to_N (Z.pos p)));
      [contradiction | discriminate].
  - discriminate.
Qed.

Lemma intscalar_print_no_LF :
  forall z, Forall (fun c => Ascii.eqb c LF = false) (IntScalar.print z).
Proof.
  intros z. unfold IntScalar.print.
  destruct z; try apply print_N_no_LF.
  constructor; [reflexivity | apply print_N_no_LF].
Qed.

(** The integer scalars meet what the round trip assumes of the C
    library, with equality for the tolerance. *)
Lemma intscalar_strtof_print_scalar :
  forall (lead : bool) x rest,
    space_first rest ->
    exists x',
      IntScalar.strtof ((if lead then [SP] else []) ++ IntScalar.print x
                          ++ rest)
      = (x', (if lead then 1 else 0) + length (IntScalar.print x))
      /\ x = x'.
Proof.
  intros lead x rest Hrest. exists x. split; [|reflexivity].
  pose proof (intscalar_strtof_print x rest (space_is_not_digit _ Hrest))
    as H.
  destruct lead; cbn [app Nat.add]; [|exact H].
  apply intscalar_strtof_blank; [exact H | apply intscalar_print_nonempty].
Qed.



(** The buffer without any content is exported to an empty file, which
    the import cannot map. *)
Example obj_round_trip_of_empty_buffer :
  let exported :=
    ExportBaseMeshGeometryDataToOBJ IntScalar.print emptyGeom "mesh.obj"
                                    (Instances.world_of [] 1 0) in
  fst exported = true
  /\ fst (ImportOBJMeshGeometryData
            IntScalar.strtof Utils.ExtractLowercaseFileExtensionFromPath
            "mesh.obj" false (snd exported)) = None.
Proof. cbv zeta. split; vm_compute; reflexivity. Qed.

(* ===================================================================== *)
(** * Further properties *)
(* ===================================================================== *)

Local Open Scope R_scope.

(** ** Exhaustive distance statistics *)

Lemma inner_pair_loop_fold :
  forall (A : Type) (body : A -> R -> A) p others acc,
    inner_pair_loop body p others acc
    = fold_left body (map (fun q => norm (vsub p q)) others) acc.
Proof.
  intros A body p others; induction others as [|q rest IH]; intros acc;
    [reflexivity|].
  cbn [inner_pair_loop map fold_left]. apply IH.
Qed.

(** The pair loop is a fold of its body over the pair distances. *)
Lemma pair_loop_fold :
  forall (A : Type) (body : A -> R -> A) points acc,
    pair_loop body points acc = fold_left body (pair_distances points) acc.
Proof.
  intros A body points; induction points as [|p rest IH]; intros acc;
    [reflexivity|].
  cbn [pair_loop pair_distances].
  rewrite fold_left_app, IH, inner_pair_loop_fold. reflexivity.
Qed.

Lemma norm_vsub_sym : forall a b, norm (vsub a b) = norm (vsub b a).
Proof.
  intros [[a1 a2] a3] [[b1 b2] b3]. unfold norm, sqrnorm, vsub. cbn.
  f_equal. ring.
Qed.

(** The pair distances are the distances of the points at two indices
    [i < j]. *)
Lemma In_pair_distances :
  forall o points d,
    In d (pair_distances points)
    <-> exists i j, (i < j < length points)%nat
                    /\ d = norm (vsub (nth i points o) (nth j points o)).
Proof.
  intros o points; induction points as [|p rest IH]; intros d.
  - cbn. split; [contradiction | intros (i & j & H & _); lia].
  - cbn [pair_distances]. rewrite in_app_iff, in_map_iff, IH. split.
    + intros [(q & Hq & Hin) | (i & j & Hij & Hd)].
      * destruct (In_nth _ _ o Hin) as (j & Hj & Hnth).
        exists 0%nat, (S j). cbn [nth length].
        split; [lia | rewrite Hnth; symmetry; exact Hq].
      * exists (S i), (S j). cbn [nth length]. split; [lia | exact Hd].
    + intros (i & j & Hij & Hd). cbn [length] in Hij.
      destruct j as [|j]; [lia|]. destruct i as [|i].
      * left. exists (nth j rest o). split; [symmetry; exact Hd|].
        apply nth_In. lia.
      * right. exists i, j. split; [lia | exact Hd].
Qed.

Lemma pair_distances_nonneg :
  forall points, Forall (fun d => 0 <= d) (pair_distances points).
Proof.
  induction points as [|p rest IH]; [constructor|].
  cbn [pair_distances]. apply Forall_app. split; [|exact IH].
  apply Forall_forall. intros d Hd. apply in_map_iff in Hd as (q & <- & _).
  apply norm_nonneg.
Qed.

Lemma fold_min_spec :
  forall l init,
    let m := fold_left min_body l init in
    m <= init /\ Forall (fun d => m <= d) l /\ (m = init \/ In m l).
Proof.
  induction l as [|d rest IH]; intros init; cbn [fold_left].
  - split; [lra | split; [constructor | left; reflexivity]].
  - assert (Hx : min_body init d <= init /\ min_body init d <= d
                 /\ (min_body init d = init \/ min_body init d = d)).
    { unfold min_body. destruct (Rlt_dec d init); lra. }
    specialize (IH (min_body init d)). cbv zeta in *.
    destruct IH as (H1 & H2 & H3). destruct Hx as (Hx1 & Hx2 & Hx3).
    split; [lra | split; [constructor; [lra | exact H2]|]].
    destruct H3 as [H3|H3]; [|right; right; exact H3].
    destruct Hx3 as [Hx3|Hx3]; [left | right; left]; congruence.
Qed.

Lemma fold_max_spec :
  forall l init,
    let m := fold_left max_body l init in
    init <= m /\ Forall (fun d => d <= m) l /\ (m = init \/ In m l).
Proof.
  induction l as [|d rest IH]; intros init; cbn [fold_left].
  - split; [lra | split; [constructor | left; reflexivity]].
  - assert (Hx : init <= max_body init d /\ d <= max_body init d
                 /\ (max_body init d = init \/ max_body init d = d)).
    { unfold max_body. destruct (Rgt_dec d init); unfold Rgt in *; lra. }
    specialize (IH (max_body init d)). cbv zeta in *.
    destruct IH as (H1 & H2 & H3). destruct Hx as (Hx1 & Hx2 & Hx3).
    split; [lra | split; [constructor; [lra | exact H2]|]].
    destruct H3 as [H3|H3]; [|right; right; exact H3].
    destruct Hx3 as [Hx3|Hx3]; [left | right; left]; congruence.
Qed.

Lemma fold_mean_spec :
  forall l totalDistance count,
    fold_left mean_body l (totalDistance, count)
    = (totalDistance + fold_right Rplus 0 l, (count + length l)%nat).
Proof.
  induction l as [|d rest IH]; intros totalDistance count;
    cbn [fold_left fold_right length].
  - f_equal; [ring | lia].
  - unfold mean_body at 2. rewrite IH. f_equal; [ring | lia].
Qed.

Lemma pair_distance_of_indices :
  forall o points i j,
    (i < length points)%nat -> (j < length points)%nat -> i <> j ->
    exists d, In d (pair_distances points)
              /\ d = norm (vsub (nth i points o) (nth j points o)).
Proof.
  intros o points i j Hi Hj Hij.
  destruct (Nat.lt_ge_cases i j) as [Hlt|Hge].
  - eexists; split; [|reflexivity].
    apply (In_pair_distances o). exists i, j. split; [lia | reflexivity].
  - eexists; split; [|reflexivity].
    apply (In_pair_distances o). exists j, i. split; [lia|].
    apply norm_vsub_sym.
Qed.

(** X5.  Each of the three exhaustive statistics returns -1 exactly when
    it is given fewer than two points, and it writes a line to
    [std::cerr] exactly then: a result for two points or more is never
    mistaken for the failure value. *)
Theorem brute_force_minus_one_iff_too_few_points :
  forall points,
    let too_few := (length points < 2)%nat in
    let rmin := ComputeMinInterVertexDistanceBruteForce points in
    let rmax := ComputeMaxInterVertexDistanceBruteForce points in
    let rmean := ComputeMeanInterVertexDistanceBruteForce points in
    (value rmin = -1 <-> too_few) /\ (cerr rmin <> [] <-> too_few)
    /\ (value rmax = -1 <-> too_few) /\ (cerr rmax <> [] <-> too_few)
    /\ (value rmean = -1 <-> too_few) /\ (cerr rmean <> [] <-> too_few).
Proof.
  intros points. cbv zeta.
  pose proof (pair_distances_nonneg points) as Hnn.
  destruct (fold_min_spec (pair_distances points) FLT_MAX) as (_ & _ & Hmin).
  destruct (fold_max_spec (pair_distances points) 0) as (Hmax & _ & _).
  assert (Hsum : 0 * INR (length (pair_distances points))
                 <= fold_right Rplus 0 (pair_distances points)).
  { clear Hmin Hmax.
    induction (pair_distances points) as [|d rest IH];
      [cbn; lra|].
    inversion Hnn; subst. specialize (IH H2).
    cbn [fold_right length]. rewrite S_INR. lra. }
  unfold ComputeMeanInterVertexDistanceBruteForce,
    ComputeMinInterVertexDistanceBruteForce,
    ComputeMaxInterVertexDistanceBruteForce.
  rewrite !pair_loop_fold, fold_mean_spec.
  destruct (Nat.ltb_spec (length points) 2) as [Hlt|Hge]; cbv zeta;
    cbn [value cerr].
  - repeat split; intros _; try exact Hlt; try reflexivity; discriminate.
  - assert (Hmin' : 0 <= fold_left min_body (pair_distances points) FLT_MAX).
    { destruct Hmin as [-> | Hin]; [unfold FLT_MAX; lra|].
      rewrite Forall_forall in Hnn. apply Hnn; exact Hin. }
    assert (Hmean : 0 <= (if (0 <? 0 + length (pair_distances points))%nat
                          then (0 + fold_right Rplus 0 (pair_distances points))
                               / INR (0 + length (pair_distances points))
                          else 0)).
    { destruct (Nat.ltb_spec 0 (0 + length (pair_distances points)))
        as [Hpos|_]; [|lra].
      apply lt_0_INR in Hpos.
      apply Rmult_le_pos; [lra | left; apply Rinv_0_lt_compat; exact Hpos]. }
    repeat split; intros H; try lia; try lra; try (exfalso; apply H; reflexivity).
Qed.

(** ** The k-d tree minimum against the exhaustive one *)

Section KDTreeAgreement.

Variable knnSearch : list Point -> Point -> nat -> list (nat * R).
Variable o : Point.

(** An exact k-nearest-neighbour search: it finds [num_closest] points
    or all of them, reports each with its squared distance to the query,
    no point twice, nearest first, and leaves out no point nearer than
    one it reports. *)
Hypothesis knnSearch_count :
  forall pts q num_closest,
    length (knnSearch pts q num_closest)
    = Nat.min num_closest (length pts).
Hypothesis knnSearch_entries :
  forall pts q num_closest i d,
    In (i, d) (knnSearch pts q num_closest) ->
    (i < length pts)%nat /\ d = sqrnorm (vsub (nth i pts o) q).
Hypothesis knnSearch_distinct :
  forall pts q num_closest,
    NoDup (map fst (knnSearch pts q num_closest)).
Hypothesis knnSearch_sorted :
  forall pts q num_closest m n x y,
    (m <= n)%nat ->
    nth_error (knnSearch pts q num_closest) m = Some x ->
    nth_error (knnSearch pts q num_closest) n = Some y ->
    snd x <= snd y.
Hypothesis knnSearch_closest :
  forall pts q num_closest j x,
    (j < length pts)%nat ->
    ~ In j (map fst (knnSearch pts q num_closest)) ->
    In x (knnSearch pts q num_closest) ->
    snd x <= sqrnorm (vsub (nth j pts o) q).

Lemma sqrnorm_vsub_same : forall p, sqrnorm (vsub p p) = 0.
Proof. intros [[x y] z]. unfold sqrnorm, vsub. cbn. ring. Qed.

Lemma sqrnorm_vsub_sym : forall a b, sqrnorm (vsub a b) = sqrnorm (vsub b a).
Proof.
  intros [[a1 a2] a3] [[b1 b2] b3]. unfold sqrnorm, vsub. cbn. ring.
Qed.

(** The second result of a query at the point of index [i] is the
    squared distance of the nearest point at another index. *)
Lemma min_do_knn_search_second_nearest :
  forall points i,
    (2 <= length points)%nat -> (i < length points)%nat ->
    exists d,
      min_do_knn_search knnSearch points (nth i points o) = Returns d
      /\ (forall j, (j < length points)%nat -> j <> i ->
                    d <= sqrnorm (vsub (nth j points o) (nth i points o)))
      /\ (exists j, (j < length points)%nat /\ j <> i
                    /\ d = sqrnorm (vsub (nth j points o) (nth i points o))).
Proof using knnSearch_count knnSearch_entries knnSearch_distinct
            knnSearch_sorted knnSearch_closest.
  intros points i Hlen Hi.
  set (q := nth i points o).
  pose proof (knnSearch_count points q 2) as Hcount.
  pose proof (knnSearch_entries points q 2) as Hent.
  pose proof (knnSearch_distinct points q 2) as Hnd.
  pose proof (knnSearch_sorted points q 2) as Hsort.
  pose proof (knnSearch_closest points q 2) as Hclose.
  unfold min_do_knn_search.
  rewrite Nat.min_l in Hcount by exact Hlen.
  destruct (knnSearch points q 2) as [|[a da] [|[b db] [|? ?]]];
    try discriminate Hcount.
  cbn [map snd nth_error fst] in *.
  destruct (Hent a da (or_introl eq_refl)) as [Ha Hda].
  destruct (Hent b db (or_intror (or_introl eq_refl))) as [Hb Hdb].
  assert (Hab : a <> b).
  { inversion Hnd as [|? ? Hnotin _]; subst. intros ->. apply Hnotin.
    left; reflexivity. }
  assert (Hle : da <= db) by (apply (Hsort 0%nat 1%nat (a, da) (b, db));
                              [lia | reflexivity | reflexivity]).
  assert (Hqq : sqrnorm (vsub (nth i points o) q) = 0)
    by apply sqrnorm_vsub_same.
  assert (Hda0 : 0 <= da) by (rewrite Hda; apply sqrnorm_nonneg).
  exists db. split; [reflexivity|]. split.
  - intros j Hj Hji.
    destruct (Nat.eq_dec j b) as [->|Hjb]; [rewrite Hdb; lra|].
    destruct (Nat.eq_dec j a) as [->|Hja].
    + (* the query point itself is then the second result or left out *)
      destruct (Nat.eq_dec b i) as [->|Hbi].
      * rewrite Hdb, Hqq, <- Hda. exact Hda0.
      * assert (Hout : ~ In i [a; b]) by (cbn; intros [?|[?|[]]]; congruence).
        pose proof (Hclose i (b, db) Hi Hout
                      (or_intror (or_introl eq_refl))) as H.
        cbn [snd] in H. rewrite Hqq in H. rewrite <- Hda. lra.
    + assert (Hout : ~ In j [a; b]) by (cbn; intros [?|[?|[]]]; congruence).
      exact (Hclose j (b, db) Hj Hout (or_intror (or_introl eq_refl))).
  - destruct (Nat.eq_dec b i) as [Hbi|Hbi].
    + exists a. split; [exact Ha|]. split; [congruence|].
      subst b. rewrite Hqq in Hdb. rewrite <- Hda. lra.
    + exists b. split; [exact Hb|]. split; [exact Hbi | exact Hdb].
Qed.

(** The loop over the query points keeps the least second result. *)
Lemma min_loop_least :
  forall points,
    (2 <= length points)%nat ->
    forall queries minDistance,
      Forall (fun i => (i < length points)%nat) queries ->
      exists m,
        min_loop knnSearch points (map (fun i => nth i points o) queries)
                 minDistance = Returns m
        /\ m <= minDistance
        /\ (forall i j, In i queries -> (j < length points)%nat -> j <> i ->
                        m <= sqrnorm (vsub (nth j points o) (nth i points o)))
        /\ (m = minDistance
            \/ exists i j,
                (i < length points)%nat /\ (j < length points)%nat /\ j <> i
                /\ m = sqrnorm (vsub (nth j points o) (nth i points o))).
Proof using knnSearch_count knnSearch_entries knnSearch_distinct
            knnSearch_sorted knnSearch_closest.
  intros points Hlen queries; induction queries as [|i rest IH];
    intros minDistance Hall; cbn [map min_loop].
  - exists minDistance. split; [reflexivity|]. split; [lra|].
    split; [intros i j []|left; reflexivity].
  - inversion Hall as [|? ? Hi Hrest]; subst.
    destruct (min_do_knn_search_second_nearest points i Hlen Hi)
      as (d & -> & Hlow & (j0 & Hj0 & Hj0i & Hatt)).
    set (m1 := if Rlt_dec d minDistance then d else minDistance).
    assert (Hm1 : m1 <= minDistance /\ m1 <= d
                  /\ (m1 = minDistance \/ m1 = d))
      by (subst m1; destruct (Rlt_dec d minDistance); lra).
    destruct (IH m1 Hrest) as (m & -> & Hle & Hall' & Hatt').
    exists m. split; [reflexivity|]. split; [lra|]. split.
    + intros i' j [<-|Hin] Hj Hji.
      * specialize (Hlow j Hj Hji). lra.
      * apply Hall'; assumption.
    + destruct Hatt' as [Hm|Hex]; [|right; exact Hex].
      destruct Hm1 as (_ & _ & [Hm1|Hm1]); [left; congruence|].
      right. exists i, j0. repeat split; try assumption. congruence.
Qed.

Lemma map_nth_seq :
  forall (points : list Point),
    map (fun i => nth i points o) (seq 0 (length points)) = points.
Proof.
  intros points. apply nth_ext with (d := o) (d' := o).
  - rewrite length_map, length_seq. reflexivity.
  - intros n Hn. rewrite length_map, length_seq in Hn.
    rewrite (nth_indep _ o (nth 0 points o))
      by (rewrite length_map, length_seq; exact Hn).
    rewrite (map_nth (fun i => nth i points o)), seq_nth by exact Hn.
    reflexivity.
Qed.

Lemma sqrt_FLT_MAX_le : sqrt FLT_MAX <= FLT_MAX.
Proof.
  rewrite <- (sqrt_square FLT_MAX) at 2 by (unfold FLT_MAX; lra).
  apply sqrt_le_1_alt. unfold FLT_MAX. nra.
Qed.

(** X6.  Over a k-d tree whose nearest-neighbour queries are exact,
    [ComputeMinInterVertexDistance] returns for two points or more the
    value [ComputeMinInterVertexDistanceBruteForce] returns, provided
    the squared distance of some two points does not exceed [FLT_MAX],
    the value both searches start from.  The scalars are real numbers
    here. *)
Theorem kd_tree_min_equals_brute_force_min :
  forall points,
    (2 <= length points)%nat ->
    (exists i j, (i < j < length points)%nat
                 /\ sqrnorm (vsub (nth i points o) (nth j points o))
                    <= FLT_MAX) ->
    ComputeMinInterVertexDistance knnSearch points
    = (Returns (value (ComputeMinInterVertexDistanceBruteForce points)), []).
Proof using knnSearch_count knnSearch_entries knnSearch_distinct
            knnSearch_sorted knnSearch_closest.
  intros points Hlen (i0 & j0 & Hij0 & Hnear).
  unfold ComputeMinInterVertexDistance, ComputeMinInterVertexDistanceBruteForce.
  destruct (Nat.ltb_spec (length points) 2) as [Hlt|_]; [lia|].
  destruct points as [|p0 rest] eqn:E; [cbn in Hlen; lia|]. rewrite <- E in *.
  clear E p0 rest.
  assert (Hq : Forall (fun i => (i < length points)%nat)
                      (seq 0 (length points))).
  { apply Forall_forall. intros i Hi. apply in_seq in Hi. lia. }
  destruct (min_loop_least points Hlen (seq 0 (length points)) FLT_MAX Hq)
    as (m & Hrun & Hle & Hlow & Hatt).
  rewrite map_nth_seq in Hrun. rewrite Hrun. cbv zeta. cbn [value].
  rewrite pair_loop_fold.
  destruct (fold_min_spec (pair_distances points) FLT_MAX)
    as (Hb1 & Hb2 & Hb3).
  set (mb := fold_left min_body (pair_distances points) FLT_MAX) in *.
  rewrite Forall_forall in Hb2.
  assert (Hlow' : forall i j, (i < length points)%nat ->
                              (j < length points)%nat -> j <> i ->
                    m <= sqrnorm (vsub (nth j points o) (nth i points o))).
  { intros i j Hi Hj Hji. apply Hlow; [|exact Hj | exact Hji].
    apply in_seq. lia. }
  assert (Hnorm : forall a, sqrt (sqrnorm a) = norm a) by reflexivity.
  f_equal. f_equal. apply Rle_antisym.
  - destruct Hb3 as [Hb3|Hb3].
    + rewrite Hb3. eapply Rle_trans; [|apply sqrt_FLT_MAX_le].
      apply sqrt_le_1_alt; exact Hle.
    + apply (In_pair_distances o) in Hb3 as (i & j & Hij & ->).
      rewrite norm_vsub_sym. rewrite <- Hnorm. apply sqrt_le_1_alt.
      apply Hlow'; lia.
  - assert (Hex : exists i j, (i < length points)%nat
                              /\ (j < length points)%nat /\ j <> i
                    /\ m = sqrnorm (vsub (nth j points o) (nth i points o))).
    { destruct Hatt as [Hm|Hex]; [|exact Hex].
      exists j0, i0. repeat split; try lia.
      apply Rle_antisym; [apply Hlow'; lia | rewrite Hm; exact Hnear]. }
    destruct Hex as (i & j & Hi & Hj & Hji & ->).
    rewrite Hnorm.
    destruct (pair_distance_of_indices o points j i Hj Hi Hji)
      as (d & Hin & <-).
    apply Hb2; exact Hin.
Qed.

End KDTreeAgreement.

(** The exhaustive search is an exact nearest-neighbour search. *)

Lemma insert_by_distance_perm :
  forall x l, Permutation (Instances.insert_by_distance x l) (x :: l).
Proof.
  intros x l; induction l as [|y l IH]; cbn [Instances.insert_by_distance];
    [apply Permutation_refl|].
  destruct (Rle_dec (snd x) (snd y)); [apply Permutation_refl|].
  eapply Permutation_trans; [apply perm_skip; exact IH | apply perm_swap].
Qed.

Lemma sort_by_distance_perm :
  forall l, Permutation (fold_right Instances.insert_by_distance [] l) l.
Proof.
  induction l as [|x l IH]; cbn [fold_right]; [apply Permutation_refl|].
  eapply Permutation_trans; [apply insert_by_distance_perm|].
  apply perm_skip; exact IH.
Qed.

Lemma insert_by_distance_sorted :
  forall x l,
    StronglySorted nearer_or_equal l ->
    StronglySorted nearer_or_equal (Instances.insert_by_distance x l).
Proof.
  intros x l; induction l as [|y l IH]; intros Hs;
    cbn [Instances.insert_by_distance].
  - constructor; constructor.
  - inversion Hs as [|? ? Hl Hy]; subst.
    destruct (Rle_dec (snd x) (snd y)) as [Hle|Hgt].
    + constructor; [exact Hs|]. constructor; [exact Hle|].
      eapply Forall_impl; [|exact Hy].
      intros z Hz. unfold nearer_or_equal in *. lra.
    + constructor; [apply IH; exact Hl|].
      apply Forall_forall. intros z Hz.
      apply (Permutation_in _ (insert_by_distance_perm x l)) in Hz.
      destruct Hz as [<-|Hz].
      * unfold nearer_or_equal. lra.
      * rewrite Forall_forall in Hy. apply Hy; exact Hz.
Qed.

Lemma sort_by_distance_sorted :
  forall l,
    StronglySorted nearer_or_equal
                   (fold_right Instances.insert_by_distance [] l).
Proof.
  induction l as [|x l IH]; cbn [fold_right]; [constructor|].
  apply insert_by_distance_sorted; exact IH.
Qed.

Lemma strongly_sorted_nth_error :
  forall l m n x y,
    StronglySorted nearer_or_equal l ->
    (m <= n)%nat -> nth_error l m = Some x -> nth_error l n = Some y ->
    snd x <= snd y.
Proof.
  induction l as [|z l IH]; intros m n x y Hs Hmn Hx Hy;
    [destruct m; discriminate|].
  inversion Hs as [|? ? Hl Hz]; subst.
  destruct m as [|m], n as [|n]; cbn [nth_error] in Hx, Hy; try lia.
  - injection Hx as <-. injection Hy as <-. lra.
  - injection Hx as <-. rewrite Forall_forall in Hz.
    apply (Hz y). eapply nth_error_In; exact Hy.
  - apply (IH m n x y Hl); [lia | exact Hx | exact Hy].
Qed.

Lemma strongly_sorted_app :
  forall l1 l2 x y,
    StronglySorted nearer_or_equal (l1 ++ l2) ->
    In x l1 -> In y l2 -> snd x <= snd y.
Proof.
  induction l1 as [|z l1 IH]; intros l2 x y Hs Hx Hy; [contradiction|].
  cbn [app] in Hs. inversion Hs as [|? ? Hl Hz]; subst.
  destruct Hx as [<-|Hx].
  - rewrite Forall_forall in Hz. apply (Hz y). apply in_or_app. right; exact Hy.
  - apply (IH l2 x y Hl Hx Hy).
Qed.

Lemma In_indexed :
  forall (A : Type) (o : A) (f : A -> R) l start i d,
    In (i, d) (combine (seq start (length l)) (map f l))
    <-> (start <= i < start + length l)%nat /\ d = f (nth (i - start) l o).
Proof.
  intros A o f l; induction l as [|a l IH]; intros start i d.
  - cbn. split; [contradiction | intros [H _]; lia].
  - cbn [length seq map combine In]. rewrite IH. split.
    + intros [H|[H1 H2]].
      * injection H as <- <-. split; [lia|]. rewrite Nat.sub_diag. reflexivity.
      * split; [lia|]. replace (i - start)%nat with (S (i - S start)) by lia.
        exact H2.
    + intros [H1 H2]. destruct (Nat.eq_dec i start) as [->|Hne].
      * left. rewrite Nat.sub_diag in H2. cbn in H2. congruence.
      * right. split; [lia|].
        replace (i - start)%nat with (S (i - S start)) in H2 by lia.
        exact H2.
Qed.

Lemma map_fst_combine_seq :
  forall (A : Type) (l : list A) start,
    map fst (combine (seq start (length l)) l) = seq start (length l).
Proof.
  intros A l; induction l as [|a l IH]; intros start; [reflexivity|].
  cbn [length seq combine map fst]. rewrite IH. reflexivity.
Qed.

Section ExhaustiveSearch.

Variable o : Point.
Variable pts : list Point.
Variable q : Point.
Variable num_closest : nat.

Local Abbreviation indexed :=
  (combine (seq 0 (length pts)) (map (fun p => sqrnorm (vsub p q)) pts)).
Local Abbreviation sorted := (sorted_by_distance pts q).

Lemma knn_exhaustive_firstn :
  Instances.knn_exhaustive pts q num_closest = firstn num_closest sorted.
Proof. reflexivity. Qed.

Lemma In_sorted :
  forall i d,
    In (i, d) sorted
    <-> (i < length pts)%nat /\ d = sqrnorm (vsub (nth i pts o) q).
Proof.
  intros i d. unfold sorted_by_distance.
  pose proof (In_indexed Point o (fun p => sqrnorm (vsub p q)) pts 0 i d) as H.
  rewrite Nat.sub_0_r in H. cbn [Nat.add] in H.
  split.
  - intros Hin. apply (Permutation_in _ (sort_by_distance_perm _)) in Hin.
    apply H in Hin. split; [lia | apply Hin].
  - intros [Hi Hd]. apply (Permutation_in _ (Permutation_sym
                                              (sort_by_distance_perm _))).
    apply H. split; [lia | exact Hd].
Qed.

Lemma knn_exhaustive_entries :
  forall i d,
    In (i, d) (Instances.knn_exhaustive pts q num_closest) ->
    (i < length pts)%nat /\ d = sqrnorm (vsub (nth i pts o) q).
Proof.
  intros i d Hin. rewrite knn_exhaustive_firstn in Hin.
  apply In_sorted. rewrite <- (firstn_skipn num_closest sorted).
  apply in_or_app. left; exact Hin.
Qed.

Lemma knn_exhaustive_distinct :
  NoDup (map fst (Instances.knn_exhaustive pts q num_closest)).
Proof.
  rewrite knn_exhaustive_firstn.
  assert (Hnd : NoDup (map fst sorted)).
  { apply (Permutation_NoDup
             (Permutation_sym
                (Permutation_map fst (sort_by_distance_perm indexed)))).
    unfold indexed.
    rewrite <- (length_map (fun p => sqrnorm (vsub p q)) pts).
    rewrite map_fst_combine_seq. apply seq_NoDup. }
  rewrite <- (firstn_skipn num_closest sorted), map_app in Hnd.
  apply NoDup_app_remove_r in Hnd. exact Hnd.
Qed.

Lemma knn_exhaustive_sorted :
  forall m n x y,
    (m <= n)%nat ->
    nth_error (Instances.knn_exhaustive pts q num_closest) m = Some x ->
    nth_error (Instances.knn_exhaustive pts q num_closest) n = Some y ->
    snd x <= snd y.
Proof.
  intros m n x y Hmn Hx Hy. rewrite knn_exhaustive_firstn in Hx, Hy.
  assert (Hs : StronglySorted nearer_or_equal
                 (firstn num_closest sorted ++ skipn num_closest sorted)).
  { rewrite firstn_skipn. apply sort_by_distance_sorted. }
  apply (strongly_sorted_nth_error _ m n x y Hs Hmn).
  - rewrite nth_error_app1; [exact Hx|].
    apply nth_error_Some. rewrite Hx. discriminate.
  - rewrite nth_error_app1; [exact Hy|].
    apply nth_error_Some. rewrite Hy. discriminate.
Qed.

Lemma knn_exhaustive_closest :
  forall j x,
    (j < length pts)%nat ->
    ~ In j (map fst (Instances.knn_exhaustive pts q num_closest)) ->
    In x (Instances.knn_exhaustive pts q num_closest) ->
    snd x <= sqrnorm (vsub (nth j pts o) q).
Proof.
  intros j x Hj Hout Hx. rewrite knn_exhaustive_firstn in Hout, Hx.
  assert (Hs : StronglySorted nearer_or_equal
                 (firstn num_closest sorted ++ skipn num_closest sorted)).
  { rewrite firstn_skipn. apply sort_by_distance_sorted. }
  assert (Hin : In (j, sqrnorm (vsub (nth j pts o) q)) sorted)
    by (apply In_sorted; split; [exact Hj | reflexivity]).
  rewrite <- (firstn_skipn num_closest sorted) in Hin.
  apply in_app_or in Hin as [Hin|Hin].
  - exfalso. apply Hout. apply in_map_iff.
    exists (j, sqrnorm (vsub (nth j pts o) q)). split; [reflexivity | exact Hin].
  - exact (strongly_sorted_app _ _ x _ Hs Hx Hin).
Qed.

End ExhaustiveSearch.

(** X6, witness: the points (0,0,0), (3,4,0) and (3,0,0) under the
    exhaustive search. *)
Lemma kd_tree_min_equals_brute_force_min_witness :
  let points := [(0, 0, 0); (3, 4, 0); (3, 0, 0)] in
  (2 <= length points)%nat
  /\ (exists i j, (i < j < length points)%nat
                  /\ sqrnorm (vsub (nth i points (0, 0, 0))
                                   (nth j points (0, 0, 0)))
                     <= FLT_MAX)
  /\ ComputeMinInterVertexDistance Instances.knn_exhaustive points
     = (Returns (value (ComputeMinInterVertexDistanceBruteForce points)), []).
Proof.
  cbv zeta.
  assert (Hlen : (2 <= length [(0, 0, 0); (3, 4, 0); (3, 0, 0)])%nat)
    by (cbn; lia).
  assert (Hnear : exists i j,
             (i < j < length [(0, 0, 0); (3, 4, 0); (3, 0, 0)])%nat
             /\ sqrnorm (vsub (nth i [(0, 0, 0); (3, 4, 0); (3, 0, 0)]
                                   (0, 0, 0))
                              (nth j [(0, 0, 0); (3, 4, 0); (3, 0, 0)]
                                   (0, 0, 0)))
                <= FLT_MAX).
  { exists 0%nat, 1%nat. split; [cbn; lia|].
    unfold sqrnorm, vsub, FLT_MAX. cbn. lra. }
  split; [exact Hlen|]. split; [exact Hnear|].
  exact (kd_tree_min_equals_brute_force_min
           Instances.knn_exhaustive (0, 0, 0)
           knn_exhaustive_count
           (knn_exhaustive_entries (0, 0, 0))
           knn_exhaustive_distinct
           knn_exhaustive_sorted
           (knn_exhaustive_closest (0, 0, 0))
           [(0, 0, 0); (3, 4, 0); (3, 0, 0)] Hlen Hnear).
Defined.

Local Close Scope R_scope.

(* ===================================================================== *)
(** ** Exhaustive distance statistics in single precision *)
(* ===================================================================== *)

Section SinglePrecisionStatistics.

Import Binary32.

(** [<] on floats is a strict partial order; a NaN compares with
    nothing. *)
Lemma ltb_irrefl : forall x, ltb x x = false.
Proof.
  intros [s|s| |s m e]; unfold ltb, SFltb; cbn; try reflexivity.
  - destruct s; reflexivity.
  - change (PosDef.Pos.compare_cont Eq m m) with (Pos.compare m m).
    rewrite Z.compare_refl, Pos.compare_refl. destruct s; reflexivity.
Qed.

Lemma ltb_trans :
  forall x y z, ltb x y = true -> ltb y z = true -> ltb x z = true.
Proof.
  intros x y z. unfold ltb, SFltb.
  destruct x as [sx|sx| |sx mx ex], y as [sy|sy| |sy my ey],
    z as [sz|sz| |sz mz ez]; cbn;
    try discriminate; try reflexivity;
    try (destruct sx; discriminate || reflexivity || idtac);
    try (destruct sy; discriminate || reflexivity || idtac);
    try (destruct sz; discriminate || reflexivity || idtac);
    try discriminate; try reflexivity; auto.
  all: change (PosDef.Pos.compare_cont Eq mx my) with (Pos.compare mx my);
    change (PosDef.Pos.compare_cont Eq my mz) with (Pos.compare my mz);
    change (PosDef.Pos.compare_cont Eq mx mz) with (Pos.compare mx mz);
    destruct (Z.compare_spec ex ey), (Z.compare_spec ey ez),
      (Z.compare_spec ex ez); try lia; try discriminate; try reflexivity;
    destruct (Pos.compare_spec mx my), (Pos.compare_spec my mz),
      (Pos.compare_spec mx mz); cbn; try lia; try discriminate;
    try reflexivity.
Qed.

Lemma ltb_asym : forall x y, ltb x y = true -> ltb y x = false.
Proof.
  intros x y H. destruct (ltb y x) eqn:E; [|reflexivity].
  rewrite <- (ltb_irrefl x). symmetry. exact (ltb_trans x y x H E).
Qed.

Lemma ltb_leb : forall x y, ltb x y = true -> leb x y = true.
Proof.
  intros x y. unfold ltb, leb, SFltb, SFleb.
  destruct (SFcompare x y) as [[]|]; try discriminate; reflexivity.
Qed.

Lemma binary32_inner_pair_loop_fold :
  forall (A : Type) (body : A -> float -> A) p others acc,
    inner_pair_loop body p others acc
    = fold_left body (map (fun q => norm (vsub p q)) others) acc.
Proof.
  intros A body p others; induction others as [|q rest IH]; intros acc;
    [reflexivity|].
  cbn [inner_pair_loop map fold_left]. apply IH.
Qed.

(** The pair loop is a fold of its body over the pair distances. *)
Lemma binary32_pair_loop_fold :
  forall (A : Type) (body : A -> float -> A) points acc,
    pair_loop body points acc = fold_left body (pair_distances points) acc.
Proof.
  intros A body points; induction points as [|p rest IH]; intros acc;
    [reflexivity|].
  cbn [pair_loop pair_distances].
  rewrite fold_left_app, IH, binary32_inner_pair_loop_fold. reflexivity.
Qed.

(** The pair distances are the distances computed for the points at two
    indices [i < j]. *)
Lemma binary32_In_pair_distances :
  forall points d,
    In d (pair_distances points)
    <-> exists i j, (i < j < length points)%nat
                    /\ d = distance_at points i j.
Proof.
  unfold distance_at. set (o := origin).
  intros points; induction points as [|p rest IH]; intros d.
  - cbn. split; [contradiction | intros (i & j & H & _); lia].
  - cbn [pair_distances]. rewrite in_app_iff, in_map_iff, IH. split.
    + intros [(q & Hq & Hin) | (i & j & Hij & Hd)].
      * destruct (In_nth _ _ o Hin) as (j & Hj & Hnth).
        exists 0%nat, (S j). cbn [nth length].
        split; [lia | rewrite Hnth; symmetry; exact Hq].
      * exists (S i), (S j). cbn [nth length]. split; [lia | exact Hd].
    + intros (i & j & Hij & Hd). cbn [length] in Hij.
      destruct j as [|j]; [lia|]. destruct i as [|i].
      * left. exists (nth j rest o). split; [symmetry; exact Hd|].
        apply nth_In. lia.
      * right. exists i, j. split; [lia | exact Hd].
Qed.

(** The running minimum ends at its start value or at a distance below
    it, and no distance is below where it ends. *)
Lemma binary32_fold_min_spec :
  forall l init,
    let m := fold_left min_body l init in
    (m = init \/ (In m l /\ ltb m init = true))
    /\ Forall (fun d => ltb d m = false) l.
Proof.
  induction l as [|d rest IH]; intros init; cbn [fold_left].
  - split; [left; reflexivity | constructor].
  - specialize (IH (min_body init d)). cbv zeta in *.
    assert (Hb : (min_body init d = init /\ ltb d init = false)
                 \/ (min_body init d = d /\ ltb d init = true))
      by (unfold min_body; destruct (ltb d init); auto).
    remember (min_body init d) as init' eqn:Einit.
    remember (fold_left min_body rest init') as m eqn:Em.
    clear Einit Em. destruct IH as (Hm & Hall).
    destruct Hb as [[Ei Hd]|[Ei Hd]]; rewrite Ei in Hm; split.
    + destruct Hm as [Hm|[Hin Hlt]]; [left; exact Hm|].
      right. split; [right; exact Hin | exact Hlt].
    + constructor; [|exact Hall].
      destruct Hm as [Hm|[_ Hlt]]; [rewrite Hm; exact Hd|].
      destruct (ltb d m) eqn:E; [|reflexivity].
      rewrite <- Hd. symmetry. exact (ltb_trans _ _ _ E Hlt).
    + right. destruct Hm as [Hm|[Hin Hlt]].
      * rewrite Hm. split; [left; reflexivity | exact Hd].
      * split; [right; exact Hin | exact (ltb_trans _ _ _ Hlt Hd)].
    + constructor; [|exact Hall].
      destruct Hm as [Hm|[_ Hlt]];
        [rewrite Hm; apply ltb_irrefl | apply ltb_asym; exact Hlt].
Qed.

(** The running maximum ends at its start value or at a distance above
    it, and no distance is above where it ends. *)
Lemma binary32_fold_max_spec :
  forall l init,
    let m := fold_left max_body l init in
    (m = init \/ (In m l /\ ltb init m = true))
    /\ Forall (fun d => ltb m d = false) l.
Proof.
  induction l as [|d rest IH]; intros init; cbn [fold_left].
  - split; [left; reflexivity | constructor].
  - specialize (IH (max_body init d)). cbv zeta in *.
    assert (Hb : (max_body init d = init /\ ltb init d = false)
                 \/ (max_body init d = d /\ ltb init d = true))
      by (unfold max_body; destruct (ltb init d); auto).
    remember (max_body init d) as init' eqn:Einit.
    remember (fold_left max_body rest init') as m eqn:Em.
    clear Einit Em. destruct IH as (Hm & Hall).
    destruct Hb as [[Ei Hd]|[Ei Hd]]; rewrite Ei in Hm; split.
    + destruct Hm as [Hm|[Hin Hlt]]; [left; exact Hm|].
      right. split; [right; exact Hin | exact Hlt].
    + constructor; [|exact Hall].
      destruct Hm as [Hm|[_ Hlt]]; [rewrite Hm; exact Hd|].
      destruct (ltb m d) eqn:E; [|reflexivity].
      rewrite <- Hd. symmetry. exact (ltb_trans _ _ _ Hlt E).
    + right. destruct Hm as [Hm|[Hin Hlt]].
      * rewrite Hm. split; [left; reflexivity | exact Hd].
      * split; [right; exact Hin | exact (ltb_trans _ _ _ Hd Hlt)].
    + constructor; [|exact Hall].
      destruct Hm as [Hm|[_ Hlt]];
        [rewrite Hm; apply ltb_irrefl | apply ltb_asym; exact Hlt].
Qed.

(** X2.  For two points or more
    [ComputeMinInterVertexDistanceBruteForce] writes nothing to
    [std::cerr] and returns a float that is at most [FLT_MAX] (so not a
    NaN), that no distance the loop computes for two of the points is
    less than, and that is one of these computed distances or
    [FLT_MAX], the value the search starts from.  The computed
    distances are those of [pmp::norm] in single precision: rounded,
    infinite when the squares overflow, NaN for coordinates that are
    not numbers. *)
Theorem brute_force_min_is_least_distance :
  forall points,
    (2 <= length points)%nat ->
    let r := ComputeMinInterVertexDistanceBruteForce points in
    cerr r = []
    /\ leb (value r) FLT_MAX = true
    /\ (forall i j,
           (i < j < length points)%nat ->
           ltb (distance_at points i j) (value r) = false)
    /\ (value r = FLT_MAX
        \/ exists i j,
            (i < j < length points)%nat
            /\ value r = distance_at points i j).
Proof.
  intros points Hlen. cbv zeta.
  unfold ComputeMinInterVertexDistanceBruteForce.
  destruct (Nat.ltb_spec (length points) 2) as [Hlt|_]; [lia|].
  cbn [cerr value]. rewrite binary32_pair_loop_fold.
  destruct (binary32_fold_min_spec (pair_distances points) FLT_MAX)
    as (Hm & Hall).
  cbv zeta in Hm, Hall.
  set (m := fold_left min_body (pair_distances points) FLT_MAX) in *.
  split; [reflexivity|]. split; [|split].
  - destruct Hm as [->|[_ Hlt]]; [reflexivity | apply ltb_leb, Hlt].
  - intros i j Hij. rewrite Forall_forall in Hall. apply Hall.
    apply binary32_In_pair_distances. exists i, j. split; [exact Hij|].
    reflexivity.
  - destruct Hm as [Hm|[Hin _]]; [left; exact Hm | right].
    apply binary32_In_pair_distances. exact Hin.
Qed.

(** X3.  For two points or more
    [ComputeMaxInterVertexDistanceBruteForce] writes nothing to
    [std::cerr] and returns a float that is at least 0 (so not a NaN),
    that no distance the loop computes for two of the points exceeds,
    and that is one of these computed distances or 0, the value the
    search starts from. *)
Theorem brute_force_max_is_largest_distance :
  forall points,
    (2 <= length points)%nat ->
    let r := ComputeMaxInterVertexDistanceBruteForce points in
    cerr r = []
    /\ leb zero (value r) = true
    /\ (forall i j,
           (i < j < length points)%nat ->
           ltb (value r) (distance_at points i j) = false)
    /\ (value r = zero
        \/ exists i j,
            (i < j < length points)%nat
            /\ value r = distance_at points i j).
Proof.
  intros points Hlen. cbv zeta.
  unfold ComputeMaxInterVertexDistanceBruteForce.
  destruct (Nat.ltb_spec (length points) 2) as [Hlt|_]; [lia|].
  cbn [cerr value]. rewrite binary32_pair_loop_fold.
  destruct (binary32_fold_max_spec (pair_distances points) zero)
    as (Hm & Hall).
  cbv zeta in Hm, Hall.
  set (m := fold_left max_body (pair_distances points) zero) in *.
  split; [reflexivity|]. split; [|split].
  - destruct Hm as [->|[_ Hlt]]; [reflexivity | apply ltb_leb, Hlt].
  - intros i j Hij. rewrite Forall_forall in Hall. apply Hall.
    apply binary32_In_pair_distances. exists i, j. split; [exact Hij|].
    reflexivity.
  - destruct Hm as [Hm|[Hin _]]; [left; exact Hm | right].
    apply binary32_In_pair_distances. exact Hin.
Qed.

End SinglePrecisionStatistics.

(** X2, witness: the points (0,0,0), (3,4,0) and (3,0,0); the least
    distance is 3. *)
Lemma brute_force_min_is_least_distance_witness :
  let pt x y z : Binary32.Point :=
    (Binary32.of_Z x 0, Binary32.of_Z y 0, Binary32.of_Z z 0) in
  let points := [pt 0 0 0; pt 3 4 0; pt 3 0 0]%Z in
  let r := Binary32.ComputeMinInterVertexDistanceBruteForce points in
  Binary32.value r = Binary32.of_Z 3 0
  /\ Binary32.cerr r = []
  /\ Binary32.leb (Binary32.value r) Binary32.FLT_MAX = true
  /\ (forall i j,
         (i < j < length points)%nat ->
         Binary32.ltb (Binary32.distance_at points i j) (Binary32.value r)
         = false)
  /\ (Binary32.value r = Binary32.FLT_MAX
      \/ exists i j,
          (i < j < length points)%nat
          /\ Binary32.value r = Binary32.distance_at points i j).
Proof.
  cbv zeta. split; [vm_compute; reflexivity|].
  apply (brute_force_min_is_least_distance
           [(Binary32.of_Z 0 0, Binary32.of_Z 0 0, Binary32.of_Z 0 0);
            (Binary32.of_Z 3 0, Binary32.of_Z 4 0, Binary32.of_Z 0 0);
            (Binary32.of_Z 3 0, Binary32.of_Z 0 0, Binary32.of_Z 0 0)]).
  cbn. lia.
Defined.

(** X3, witness: the same points; the largest distance is 5. *)
Lemma brute_force_max_is_largest_distance_witness :
  let pt x y z : Binary32.Point :=
    (Binary32.of_Z x 0, Binary32.of_Z y 0, Binary32.of_Z z 0) in
  let points := [pt 0 0 0; pt 3 4 0; pt 3 0 0]%Z in
  let r := Binary32.ComputeMaxInterVertexDistanceBruteForce points in
  Binary32.value r = Binary32.of_Z 5 0
  /\ Binary32.cerr r = []
  /\ Binary32.leb Binary32.zero (Binary32.value r) = true
  /\ (forall i j,
         (i < j < length points)%nat ->
         Binary32.ltb (Binary32.value r) (Binary32.distance_at points i j)
         = false)
  /\ (Binary32.value r = Binary32.zero
      \/ exists i j,
          (i < j < length points)%nat
          /\ Binary32.value r = Binary32.distance_at points i j).
Proof.
  cbv zeta. split; [vm_compute; reflexivity|].
  apply (brute_force_max_is_largest_distance
           [(Binary32.of_Z 0 0, Binary32.of_Z 0 0, Binary32.of_Z 0 0);
            (Binary32.of_Z 3 0, Binary32.of_Z 4 0, Binary32.of_Z 0 0);
            (Binary32.of_Z 3 0, Binary32.of_Z 0 0, Binary32.of_Z 0 0)]).
  cbn. lia.
Defined.

(** Two points whose squared distance overflows: the least distance
    reported is [FLT_MAX] and the largest is infinite. *)
Example brute_force_distances_on_overflow :
  let far := Binary32.of_Z 1 65 in
  let points : list Binary32.Point :=
    [(Binary32.zero, Binary32.zero, Binary32.zero);
     (far, far, Binary32.zero)] in
  Binary32.value (Binary32.ComputeMinInterVertexDistanceBruteForce points)
  = Binary32.FLT_MAX
  /\ Binary32.value
       (Binary32.ComputeMaxInterVertexDistanceBruteForce points)
     = Binary32.infinity.
Proof. cbv zeta. split; vm_compute; reflexivity. Qed.

(* ===================================================================== *)
(** ** Scanning to a stop character *)
(* ===================================================================== *)

(** [skip_to] stops at the first stop character at or behind the cursor,
    or at the end. *)
Lemma skip_to_unique :
  forall stop mem end_ x cursor,
    cursor <= x -> x <= end_ ->
    (forall i, cursor <= i < x -> stop (peek mem i) = false) ->
    x = end_ \/ stop (peek mem x) = true ->
    skip_to stop mem cursor end_ = x.
Proof.
  intros stop mem end_ x cursor Hcx Hxe. unfold skip_to.
  remember (end_ - cursor) as fuel eqn:Hfuel.
  revert cursor Hcx Hfuel.
  induction fuel as [|f IH]; intros cursor Hcx Hfuel Hnone Hstop;
    cbn [scan_until].
  - lia.
  - destruct (stop (peek mem cursor)) eqn:E.
    + destruct (Nat.eq_dec cursor x) as [|Hne]; [assumption|].
      rewrite Hnone in E by lia. discriminate.
    + destruct (Nat.eq_dec cursor x) as [->|Hne].
      * destruct Hstop as [->|Hs]; [lia | congruence].
      * apply IH; [lia | lia | | exact Hstop].
        intros i Hi. apply Hnone. lia.
Qed.

Lemma skip_to_le :
  forall stop mem cursor end_,
    cursor <= end_ -> skip_to stop mem cursor end_ <= end_.
Proof.
  intros stop mem cursor end_ H. unfold skip_to.
  pose proof (scan_until_le stop mem (end_ - cursor) cursor). lia.
Qed.

Lemma skip_to_stops :
  forall stop mem cursor end_,
    skip_to stop mem cursor end_ < end_ ->
    stop (peek mem (skip_to stop mem cursor end_)) = true.
Proof.
  intros stop mem cursor end_ H. unfold skip_to in *.
  apply scan_until_stops.
  pose proof (scan_until_ge stop mem (end_ - cursor) cursor). lia.
Qed.

Lemma scan_until_none_before :
  forall stop mem fuel cursor i,
    cursor <= i < scan_until stop mem fuel cursor ->
    stop (peek mem i) = false.
Proof.
  intros stop mem fuel; induction fuel as [|f IH]; intros cursor i Hi;
    cbn [scan_until] in Hi.
  - lia.
  - destruct (stop (peek mem cursor)) eqn:E; [lia|].
    destruct (Nat.eq_dec i cursor) as [->|Hne]; [exact E|].
    apply (IH (S cursor)). lia.
Qed.

Lemma skip_to_none_before :
  forall stop mem cursor end_ i,
    cursor <= i < skip_to stop mem cursor end_ ->
    stop (peek mem i) = false.
Proof.
  intros stop mem cursor end_ i Hi.
  exact (scan_until_none_before stop mem (end_ - cursor) cursor i Hi).
Qed.

(** A stop character at [i] stops the scan at [i] at the latest. *)
Lemma skip_to_first :
  forall stop mem cursor end_ i,
    cursor <= i -> stop (peek mem i) = true ->
    skip_to stop mem cursor end_ <= i.
Proof.
  intros stop mem cursor end_ i Hci Hs.
  destruct (Nat.le_gt_cases (skip_to stop mem cursor end_) i) as [|Hgt];
    [assumption|].
  rewrite (skip_to_none_before stop mem cursor end_ i) in Hs by lia.
  discriminate.
Qed.

(** Scanning to a nearer end stops at the same place or at that end. *)
Lemma skip_to_restrict :
  forall stop mem cursor b end_,
    cursor <= b -> b <= end_ ->
    skip_to stop mem cursor b
    = Nat.min (skip_to stop mem cursor end_) b.
Proof.
  intros stop mem cursor b end_ Hcb Hbe.
  pose proof (skip_to_ge stop mem cursor end_) as Hge.
  apply skip_to_unique; [lia | lia | |].
  - intros i Hi. apply (skip_to_none_before stop mem cursor end_). lia.
  - destruct (Nat.le_gt_cases b (skip_to stop mem cursor end_)) as [H|H].
    + left. lia.
    + right. rewrite Nat.min_l by lia. apply skip_to_stops. lia.
Qed.

(** Scanning from a place the scan passes stops at the same place. *)
Lemma skip_to_resume :
  forall stop mem cursor b end_,
    cursor <= b -> b <= skip_to stop mem cursor end_ -> cursor <= end_ ->
    skip_to stop mem b end_ = skip_to stop mem cursor end_.
Proof.
  intros stop mem cursor b end_ Hcb Hb Hce.
  pose proof (skip_to_le stop mem cursor end_ Hce) as Hle.
  apply skip_to_unique; [exact Hb | exact Hle | |].
  - intros i Hi. apply (skip_to_none_before stop mem cursor end_). lia.
  - destruct (Nat.eq_dec (skip_to stop mem cursor end_) end_) as [|Hne];
      [left; assumption|].
    right. apply skip_to_stops. lia.
Qed.

(** Scanning from a later cursor does not stop earlier. *)
Lemma skip_to_monotone :
  forall stop mem c c' end_,
    c <= c' -> c' <= end_ ->
    skip_to stop mem c end_ <= skip_to stop mem c' end_.
Proof.
  intros stop mem c c' end_ Hcc Hce.
  pose proof (skip_to_ge stop mem c' end_) as Hge.
  pose proof (skip_to_le stop mem c' end_ Hce) as Hle.
  destruct (Nat.eq_dec (skip_to stop mem c' end_) end_) as [E|Hne].
  - rewrite E. apply skip_to_le. lia.
  - apply skip_to_first; [lia|]. apply skip_to_stops. lia.
Qed.

(* ===================================================================== *)
(** ** Point-cloud chunks *)
(* ===================================================================== *)

Section PointCloudChunks.

Variable Scalar : Type.
Variable read_scalar : list ascii -> option (Scalar * list ascii).

Local Abbreviation PPC := (ParsePointCloudChunk read_scalar).

(** One round of the loop moves the cursor forward. *)
Lemma ply_round_progress :
  forall mem end_ cursor,
    cursor < end_ ->
    let c1 := skip_to not_blank mem cursor end_ in
    c1 < end_ ->
    let c2 := skip_to is_LF mem c1 end_ in
    cursor < (if c2 <? end_ then S c2 else c2) /\ c1 < c2.
Proof.
  intros mem end_ cursor Hlt c1 Hc1 c2.
  assert (Hge : cursor <= c1) by apply skip_to_ge.
  assert (Hstop : not_blank (peek mem c1) = true)
    by (apply skip_to_stops; exact Hc1).
  assert (Hnl : is_LF (peek mem c1) = false).
  { unfold not_blank, is_SP_or_LF, is_LF in *.
    destruct (Ascii.eqb (peek mem c1) LF); [|reflexivity].
    rewrite orb_true_r in Hstop. discriminate. }
  pose proof (skip_to_progress is_LF mem c1 end_ Hc1 Hnl) as Hc2.
  fold c2 in Hc2. split; [|exact Hc2].
  destruct (c2 <? end_); lia.
Qed.

(** The result of the loop does not depend on the fuel once there is
    enough of it. *)
Lemma ParsePointCloudChunk_loop_fuel :
  forall mem end_ fuel fuel' cursor data,
    end_ - cursor <= fuel -> end_ - cursor <= fuel' ->
    ParsePointCloudChunk_loop read_scalar mem end_ fuel cursor data
    = ParsePointCloudChunk_loop read_scalar mem end_ fuel' cursor data.
Proof.
  intros mem end_ fuel; induction fuel as [|f IH];
    intros fuel' cursor data Hf Hf'.
  - destruct fuel'; cbn [ParsePointCloudChunk_loop];
      destruct (Nat.leb_spec end_ cursor); try reflexivity; lia.
  - destruct fuel' as [|f']; cbn [ParsePointCloudChunk_loop];
      destruct (Nat.leb_spec end_ cursor) as [|Hlt]; try reflexivity;
      [lia|].
    destruct (Nat.leb_spec end_ (skip_to not_blank mem cursor end_))
      as [|Hc1]; [reflexivity|].
    destruct (ply_round_progress mem end_ cursor Hlt Hc1) as [Hp _].
    destruct (negb (is_LF (peek mem _)) && (_ =? end_)); [reflexivity|].
    destruct (read_vec3 read_scalar _); apply IH; lia.
Qed.

Lemma ParsePointCloudChunk_done :
  forall mem start end_ data,
    end_ <= start -> PPC mem start end_ data = Some data.
Proof.
  intros mem start end_ data H. unfold ParsePointCloudChunk.
  replace (end_ - start) with 0 by lia. cbn [ParsePointCloudChunk_loop].
  destruct (Nat.leb_spec end_ start); [reflexivity | lia].
Qed.

(** One round of [ParsePointCloudChunk]. *)
Lemma ParsePointCloudChunk_unfold :
  forall mem start end_ data,
    start < end_ ->
    PPC mem start end_ data
    = let c1 := skip_to not_blank mem start end_ in
      if end_ <=? c1 then Some data
      else
        let c2 := skip_to is_LF mem c1 end_ in
        if negb (is_LF (peek mem c2)) && (c2 =? end_) then Some data
        else
          let c3 := if c2 <? end_ then S c2 else c2 in
          match read_vec3 read_scalar (strip_cr (substring mem c1 c2)) with
          | None => PPC mem c3 end_ data
          | Some vertex => PPC mem c3 end_ (data ++ [vertex])
          end.
Proof.
  intros mem start end_ data Hlt. unfold ParsePointCloudChunk.
  destruct (end_ - start) as [|f] eqn:Ef; [lia|].
  cbn [ParsePointCloudChunk_loop]. cbv zeta.
  destruct (Nat.leb_spec end_ start); [lia|].
  destruct (Nat.leb_spec end_ (skip_to not_blank mem start end_))
    as [|Hc1]; [reflexivity|].
  destruct (ply_round_progress mem end_ start Hlt Hc1) as [Hp _].
  destruct (negb (is_LF (peek mem _)) && (_ =? end_)); [reflexivity|].
  destruct (read_vec3 read_scalar _);
    apply ParsePointCloudChunk_loop_fuel; lia.
Qed.

(** The parser only appends to the vector it is given. *)
Lemma ParsePointCloudChunk_appends :
  forall mem end_ n start data,
    end_ - start <= n ->
    PPC mem start end_ data
    = option_map (app data) (PPC mem start end_ []).
Proof.
  intros mem end_ n; induction n as [|n IH]; intros start data Hn.
  - rewrite !ParsePointCloudChunk_done by lia. cbn. rewrite app_nil_r.
    reflexivity.
  - destruct (Nat.le_gt_cases end_ start) as [Hle|Hlt].
    { rewrite !ParsePointCloudChunk_done by lia. cbn. rewrite app_nil_r.
      reflexivity. }
    rewrite (ParsePointCloudChunk_unfold mem start end_ data Hlt).
    rewrite (ParsePointCloudChunk_unfold mem start end_ [] Hlt). cbv zeta.
    destruct (Nat.leb_spec end_ (skip_to not_blank mem start end_))
      as [|Hc1]; [cbn; rewrite app_nil_r; reflexivity|].
    destruct (ply_round_progress mem end_ start Hlt Hc1) as [Hp _].
    destruct (negb (is_LF (peek mem _)) && (_ =? end_));
      [cbn; rewrite app_nil_r; reflexivity|].
    destruct (read_vec3 read_scalar _) as [vertex|].
    + rewrite (IH _ (data ++ [vertex])) by lia.
      rewrite (IH _ ([] ++ [vertex])) by lia.
      destruct (PPC mem _ end_ []) as [d|]; [|reflexivity].
      cbn. rewrite <- app_assoc. reflexivity.
    + apply IH. lia.
Qed.

(** A chunk can be parsed in two parts that meet right behind a newline:
    the second part continues where the first one stopped. *)
Lemma ParsePointCloudChunk_split :
  forall mem end_ b,
    b <= end_ ->
    b = end_ \/ peek mem (b - 1) = LF ->
    forall n start data,
      b - start <= n -> start <= b ->
      PPC mem start end_ data
      = match PPC mem start b data with
        | Some d => PPC mem b end_ d
        | None => None
        end.
Proof.
  intros mem end_ b Hbe Hgood.
  destruct (Nat.eq_dec b end_) as [->|Hne].
  { intros n start data _ _.
    destruct (ParsePointCloudChunk_total Scalar read_scalar mem start end_ data)
      as [d ->].
    rewrite ParsePointCloudChunk_done by lia. reflexivity. }
  destruct Hgood as [|HLF]; [contradiction|].
  induction n as [|n IH]; intros start data Hn Hsb.
  - rewrite (ParsePointCloudChunk_done mem start b) by lia.
    replace start with b by lia. reflexivity.
  - destruct (Nat.eq_dec start b) as [->|Hsne].
    { rewrite (ParsePointCloudChunk_done mem b b) by lia. reflexivity. }
    assert (Hlt : start < b) by lia.
    rewrite (ParsePointCloudChunk_unfold mem start end_ data) by lia.
    rewrite (ParsePointCloudChunk_unfold mem start b data) by lia.
    cbv zeta.
    rewrite (skip_to_restrict not_blank mem start b end_) by lia.
    set (c1 := skip_to not_blank mem start end_).
    assert (Hc1 : start <= c1) by apply skip_to_ge.
    destruct (Nat.le_gt_cases b c1) as [Hpast|Hin].
    + (* blanks up to the boundary *)
      rewrite Nat.min_r by lia.
      destruct (Nat.leb_spec b b); [|lia].
      rewrite (ParsePointCloudChunk_unfold mem b end_ data) by lia.
      cbv zeta.
      rewrite (skip_to_resume not_blank mem start b end_) by lia.
      reflexivity.
    + rewrite Nat.min_l by lia.
      destruct (Nat.leb_spec end_ c1); [lia|].
      destruct (Nat.leb_spec b c1); [lia|].
      rewrite (skip_to_restrict is_LF mem c1 b end_) by lia.
      set (c2 := skip_to is_LF mem c1 end_).
      assert (Hc12 : c1 <= c2) by apply skip_to_ge.
      assert (Hc2 : c2 <= b - 1).
      { apply skip_to_first; [lia|]. unfold is_LF. rewrite HLF.
        apply Ascii.eqb_refl. }
      assert (Hstop : is_LF (peek mem c2) = true)
        by (apply skip_to_stops; fold c2; lia).
      rewrite Nat.min_l by lia. rewrite Hstop. cbn [negb andb].
      destruct (Nat.ltb_spec c2 end_); [|lia].
      destruct (Nat.ltb_spec c2 b); [|lia].
      destruct (read_vec3 read_scalar _); apply IH; lia.
Qed.

(** Text behind the last newline of a chunk is not parsed. *)
Lemma ParsePointCloudChunk_no_newline :
  forall mem start end_ data,
    (forall i, start <= i <= end_ -> peek mem i <> LF) ->
    PPC mem start end_ data = Some data.
Proof.
  intros mem start end_ data Hno.
  destruct (Nat.le_gt_cases end_ start) as [Hle|Hlt];
    [apply ParsePointCloudChunk_done; exact Hle|].
  rewrite ParsePointCloudChunk_unfold by exact Hlt. cbv zeta.
  set (c1 := skip_to not_blank mem start end_).
  assert (Hc1 : start <= c1) by apply skip_to_ge.
  destruct (Nat.leb_spec end_ c1); [reflexivity|].
  assert (E : skip_to is_LF mem c1 end_ = end_).
  { apply skip_to_unique; [lia | lia | | left; reflexivity].
    intros i Hi. unfold is_LF. apply Ascii.eqb_neq. apply Hno. lia. }
  rewrite E, Nat.eqb_refl.
  assert (Hend : is_LF (peek mem end_) = false)
    by (unfold is_LF; apply Ascii.eqb_neq; apply Hno; lia).
  rewrite Hend. reflexivity.
Qed.

(** X7.  [ParsePointCloudChunk] reads complete lines only: what stands
    behind the last newline of its range (a last line of the file that
    no newline ends, for one) adds no point, whatever it holds. *)
Theorem point_cloud_chunk_ignores_unterminated_line :
  forall mem start b end_ data,
    start <= b -> b <= end_ ->
    b = start \/ peek mem (b - 1) = LF ->
    (forall i, b <= i <= end_ -> peek mem i <> LF) ->
    PPC mem start end_ data = PPC mem start b data.
Proof.
  intros mem start b end_ data Hsb Hbe Hgood Hno.
  destruct Hgood as [->|HLF].
  - rewrite (ParsePointCloudChunk_done mem start start) by lia.
    apply ParsePointCloudChunk_no_newline; exact Hno.
  - rewrite (ParsePointCloudChunk_split mem end_ b Hbe (or_intror HLF)
               (b - start) start data) by lia.
    destruct (ParsePointCloudChunk_total Scalar read_scalar mem start b data)
      as [d ->].
    apply ParsePointCloudChunk_no_newline; exact Hno.
Qed.

(** Chunks that meet at boundaries right behind a newline yield, one
    after the other, what a single pass over their union yields. *)
Lemma parse_point_chunks_chain :
  forall mem (B : nat -> nat) n k,
    (forall i, k <= i < k + n -> B i <= B (S i)) ->
    (forall i, k < i < k + n ->
               B i = B (k + n) \/ peek mem (B i - 1) = LF) ->
    parse_point_chunks read_scalar mem
      (map (fun i => (B i, B (S i))) (seq k n))
    = PPC mem (B k) (B (k + n)) [].
Proof.
  intros mem B n; induction n as [|n IH]; intros k Hmono Hgood.
  - cbn. rewrite Nat.add_0_r, ParsePointCloudChunk_done by lia. reflexivity.
  - cbn [seq map parse_point_chunks].
    rewrite IH.
    + replace (S k + n) with (k + S n) by lia.
      assert (Hg : B (S k) = B (k + S n) \/ peek mem (B (S k) - 1) = LF).
      { destruct n as [|n]; [left; f_equal; lia | apply Hgood; lia]. }
      assert (Hle : B (S k) <= B (k + S n)).
      { clear - Hmono.
        assert (H : forall j, j <= n -> B (S k) <= B (S k + j)).
        { induction j as [|j IHj]; intros Hj;
            [rewrite Nat.add_0_r; lia|].
          eapply Nat.le_trans; [apply IHj; lia|].
          replace (S k + S j) with (S (S k + j)) by lia.
          apply Hmono. lia. }
        replace (k + S n) with (S k + n) by lia. apply H. lia. }
      assert (Hk : B k <= B (S k)) by (apply Hmono; lia).
      rewrite (ParsePointCloudChunk_split mem (B (k + S n)) (B (S k))
                 Hle Hg (B (S k) - B k) (B k) [] (Nat.le_refl _) Hk).
      destruct (PPC mem (B k) (B (S k)) []) as [d|]; [|reflexivity].
      rewrite (ParsePointCloudChunk_appends mem _ _ (B (S k)) d
                 (Nat.le_refl _)).
      destruct (PPC mem (B (S k)) _ []); reflexivity.
    + intros i Hi. apply Hmono. lia.
    + intros i Hi. replace (S k + n) with (k + S n) by lia.
      apply Hgood. lia.
Qed.

End PointCloudChunks.

(** The chunk of thread [i] lies between the boundaries [i] and
    [i + 1] of the plan. *)
Lemma ply_chunk_between_boundaries :
  forall mem file_start file_end thread_count i,
    i < thread_count ->
    ply_chunk mem file_start file_end thread_count i
    = (ply_boundary mem file_start file_end thread_count i,
       ply_boundary mem file_start file_end thread_count (S i)).
Proof.
  intros mem file_start file_end thread_count i Hi.
  unfold ply_chunk, ply_boundary. cbv zeta.
  change (S i =? 0) with false. cbv iota.
  set (chunk_size := Nat.max ((file_end - file_start) / thread_count) 1).
  f_equal.
  - destruct i as [|i]; [cbn; lia|].
    change (0 <? S i) with true. change (S i =? 0) with false. cbv iota.
    destruct (Nat.leb_spec thread_count (S i)); [lia | reflexivity].
  - destruct (Nat.eqb_spec i (thread_count - 1)) as [->|Hne].
    + destruct (Nat.leb_spec thread_count (S (thread_count - 1))); [|lia].
      unfold skip_to. rewrite Nat.sub_diag. cbn [scan_until].
      rewrite Nat.ltb_irrefl. reflexivity.
    + destruct (Nat.leb_spec thread_count (S i)); [lia|].
      replace (file_start + S i * chunk_size)
        with (file_start + i * chunk_size + chunk_size) by lia.
      reflexivity.
Qed.

(** With no more threads than bytes of data the boundaries of the plan
    do not decrease, and every inner one is the end of the file or lies
    right behind a newline. *)
Lemma ply_boundary_plan :
  forall mem file_start file_end thread_count,
    0 < thread_count -> thread_count <= file_end - file_start ->
    let B := ply_boundary mem file_start file_end thread_count in
    B 0 = file_start
    /\ B thread_count = file_end
    /\ (forall i, i < thread_count -> B i <= B (S i))
    /\ (forall i, 0 < i < thread_count ->
                  B i = file_end \/ peek mem (B i - 1) = LF).
Proof.
  intros mem file_start file_end thread_count Htc Hsize B.
  set (chunk_size := Nat.max ((file_end - file_start) / thread_count) 1).
  assert (Hcs : thread_count * chunk_size <= file_end - file_start).
  { subst chunk_size.
    assert (1 <= (file_end - file_start) / thread_count)
      by (apply Nat.div_le_lower_bound; lia).
    rewrite Nat.max_l by lia. apply Nat.Div0.mul_div_le. }
  set (adj := fun n => let c := skip_to is_LF mem n file_end in
                       if c <? file_end then S c else c).
  assert (HB : forall i, 0 < i < thread_count ->
                         B i = adj (file_start + i * chunk_size)).
  { intros i Hi. subst B adj. unfold ply_boundary. cbv zeta.
    destruct (Nat.eqb_spec i 0); [lia|].
    destruct (Nat.leb_spec thread_count i); [lia | reflexivity]. }
  assert (Hadj : forall n, n <= file_end ->
                           n <= adj n <= file_end
                           /\ (adj n = file_end
                               \/ peek mem (adj n - 1) = LF)).
  { intros n Hn. subst adj. cbv beta zeta.
    pose proof (skip_to_ge is_LF mem n file_end).
    pose proof (skip_to_le is_LF mem n file_end Hn).
    destruct (Nat.ltb_spec (skip_to is_LF mem n file_end) file_end)
      as [Hlt|Hge].
    - split; [lia|]. right.
      replace (S (skip_to is_LF mem n file_end) - 1)
        with (skip_to is_LF mem n file_end) by lia.
      pose proof (skip_to_stops is_LF mem n file_end Hlt) as Hs.
      unfold is_LF in Hs. apply Ascii.eqb_eq. exact Hs.
    - split; [lia|]. left. lia. }
  assert (Hmono : forall n n', n <= n' -> n' <= file_end ->
                               adj n <= adj n').
  { intros n n' Hnn Hn'. subst adj. cbv beta zeta.
    pose proof (skip_to_monotone is_LF mem n n' file_end Hnn Hn').
    pose proof (skip_to_le is_LF mem n file_end ltac:(lia)).
    pose proof (skip_to_le is_LF mem n' file_end Hn').
    destruct (Nat.ltb_spec (skip_to is_LF mem n file_end) file_end);
      destruct (Nat.ltb_spec (skip_to is_LF mem n' file_end) file_end);
      lia. }
  assert (Hnom : forall i, i < thread_count ->
                           file_start + i * chunk_size <= file_end) by nia.
  split; [reflexivity|]. split.
  { subst B. unfold ply_boundary.
    destruct (Nat.eqb_spec thread_count 0); [lia|].
    rewrite Nat.leb_refl. reflexivity. }
  split.
  - intros i Hi. destruct (Nat.eq_dec (S i) thread_count) as [E|Hne].
    + replace (B (S i)) with file_end.
      * destruct i as [|i]; [subst B; cbn; lia|].
        rewrite HB by lia. apply Hadj. apply Hnom; lia.
      * subst B. unfold ply_boundary. change (S i =? 0) with false.
        cbv iota. destruct (Nat.leb_spec thread_count (S i)); [reflexivity|lia].
    + rewrite (HB (S i)) by lia. destruct i as [|i].
      * replace (B 0) with file_start by reflexivity.
        destruct (Hadj (file_start + 1 * chunk_size)) as [H _];
          [apply Hnom; lia | lia].
      * rewrite HB by lia. apply Hmono; [nia | apply Hnom; lia].
  - intros i Hi. rewrite HB by lia. apply Hadj. apply Hnom; lia.
Qed.

Section PointCloudImport.

Variable Scalar : Type.
Variable read_scalar : list ascii -> option (Scalar * list ascii).
Variable ExtractLowercaseFileExtensionFromPath : string -> string.

(** With no more threads than bytes of data the chunks of the plan
    yield together what one pass over the data yields. *)
Lemma parse_point_chunks_plan :
  forall mem file_start thread_count,
    0 < thread_count -> thread_count <= length mem - file_start ->
    parse_point_chunks read_scalar mem
                       (ply_chunks mem file_start thread_count)
    = ParsePointCloudChunk read_scalar mem file_start (length mem) [].
Proof.
  intros mem file_start thread_count Htc Hsize.
  destruct (ply_boundary_plan mem file_start (length mem) thread_count
              Htc Hsize) as (H0 & Hend & Hmono & Hgood).
  unfold ply_chunks.
  rewrite (map_ext_in _ (fun i =>
             (ply_boundary mem file_start (length mem) thread_count i,
              ply_boundary mem file_start (length mem) thread_count (S i)))).
  - rewrite (parse_point_chunks_chain Scalar read_scalar mem
               (ply_boundary mem file_start (length mem) thread_count)
               thread_count 0).
    + cbn [Nat.add]. rewrite H0, Hend. reflexivity.
    + intros i Hi. apply Hmono. lia.
    + intros i Hi. cbn [Nat.add]. rewrite Hend. apply Hgood. lia.
  - intros i Hi. apply in_seq in Hi.
    apply ply_chunk_between_boundaries. lia.
Qed.

(** X8.  On a machine that reports no more threads than the file holds
    bytes behind its header, [ImportPLYPointCloudData] returns with
    [importInParallel] what it returns without: the chunks of the
    threads meet right behind newlines, and they yield one after the
    other the points a single pass over the data yields. *)
Theorem ply_parallel_import_equals_sequential :
  forall absFileName w,
    0 < hardware_concurrency w ->
    (forall mem vertexCount vertexDataStart,
        files w absFileName = Some mem ->
        ReadPLYVertexHeader mem = Some (vertexCount, vertexDataStart) ->
        hardware_concurrency w <= length mem - vertexDataStart) ->
    ImportPLYPointCloudData read_scalar
      ExtractLowercaseFileExtensionFromPath absFileName true w
    = ImportPLYPointCloudData read_scalar
        ExtractLowercaseFileExtensionFromPath absFileName false w.
Proof.
  intros absFileName w Hhc Hsize. unfold ImportPLYPointCloudData.
  destruct (negb (String.eqb _ "ply")); [reflexivity|].
  unfold map_file. cbn [files log view_base].
  destruct (files w absFileName) as [mem|] eqn:Hfile; [|reflexivity].
  destruct ((length mem =? 0) || (view_base w =? 0)%N); [reflexivity|].
  destruct (ReadPLYVertexHeader mem) as [[vertexCount vertexDataStart]|]
    eqn:Hheader; [|reflexivity].
  cbn [view_base].
  destruct (_ =? 0)%N; [reflexivity|].
  destruct (Nat.leb_spec (length mem) vertexDataStart) as [|Hdata];
    [reflexivity|].
  unfold thread_count_of, log. cbn [hardware_concurrency].
  rewrite (parse_point_chunks_plan mem vertexDataStart
             (hardware_concurrency w) Hhc
             (Hsize mem vertexCount vertexDataStart eq_refl Hheader)).
  rewrite (parse_point_chunks_plan mem vertexDataStart 1) by lia.
  reflexivity.
Qed.

End PointCloudImport.

(** X7, witness: the range holds the line [1 2 3] and, behind its
    newline, the text [4 5 6] that no newline ends. *)
Lemma point_cloud_chunk_ignores_unterminated_line_witness :
  let mem := bytes "1 2 3" ++ [LF] ++ bytes "4 5 6" in
  peek mem (6 - 1) = LF
  /\ ParsePointCloudChunk Instances.read_int mem 0 11 []
     = ParsePointCloudChunk Instances.read_int mem 0 6 [].
Proof.
  cbv zeta. split; [reflexivity|].
  apply (point_cloud_chunk_ignores_unterminated_line
           Z Instances.read_int
           (bytes "1 2 3" ++ [LF] ++ bytes "4 5 6") 0 6 11 []).
  - lia.
  - lia.
  - right. reflexivity.
  - intros i Hi.
    assert (H : i = 6 \/ i = 7 \/ i = 8 \/ i = 9 \/ i = 10 \/ i = 11) by lia.
    repeat (destruct H as [->|H]; [discriminate|]). subst i. discriminate.
Defined.

(** X8, witness: a file of two points on a machine with two threads. *)
Lemma ply_parallel_import_equals_sequential_witness :
  let content :=
    text ["ply"; "format ascii 1.0"; "element vertex 2";
          "property float x"; "property float y"; "property float z";
          "end_header"; "1 2 3"; "4 5 6"] in
  let w := Instances.world_of [("cloud.ply", content)] 2 0 in
  0 < hardware_concurrency w
  /\ ImportPLYPointCloudData Instances.read_int
       Utils.ExtractLowercaseFileExtensionFromPath "cloud.ply" true w
     = ImportPLYPointCloudData Instances.read_int
         Utils.ExtractLowercaseFileExtensionFromPath "cloud.ply" false w.
Proof.
  cbv zeta. split; [cbn; lia|].
  apply (ply_parallel_import_equals_sequential
           Z Instances.read_int Utils.ExtractLowercaseFileExtensionFromPath).
  - cbn; lia.
  - intros mem vertexCount vertexDataStart Hfile Hheader.
    vm_compute in Hfile. injection Hfile as <-.
    vm_compute in Hheader. injection Hheader as <- <-.
    vm_compute. lia.
Defined.

(* ===================================================================== *)
(** ** The stream importer of point clouds *)
(* ===================================================================== *)

Lemma list_eqb_eq :
  forall a b, list_eqb a b = true -> a = b.
Proof.
  intros a b H. unfold list_eqb in H. apply String.eqb_eq in H.
  rewrite <- (list_ascii_of_string_of_list_ascii a),
          <- (list_ascii_of_string_of_list_ascii b), H.
  reflexivity.
Qed.

(** Header lines before the one that begins with [end_header] leave the
    loop running. *)
Lemma main_thread_header_before_end :
  forall header lines vertexCount,
    Forall (fun line => first_token_is "end_header" line = false) header ->
    exists vertexCount',
      main_thread_header (header ++ lines) vertexCount false
      = main_thread_header lines vertexCount' false.
Proof.
  induction header as [|line header IH]; intros lines vertexCount Hall.
  - exists vertexCount. reflexivity.
  - inversion Hall as [|? ? Hline Hrest]; subst.
    cbn [app main_thread_header]. unfold first_token_is in Hline.
    destruct (IStream.read_token line) as [[token iss]|];
      [|apply IH; exact Hrest].
    rewrite Hline.
    destruct (list_eqb token (bytes "element")); [|apply IH; exact Hrest].
    destruct (IStream.read_token iss) as [[token' iss']|];
      [|apply IH; exact Hrest].
    destruct (list_eqb token' (bytes "vertex")); [|apply IH; exact Hrest].
    destruct (IStream.read_size_t iss') as [[ok n] rest'].
    apply IH; exact Hrest.
Qed.

(** The round that reads the [end_header] line is followed by one more
    [std::getline] before the loop condition sees [headerEnded]. *)
Lemma main_thread_header_at_end :
  forall line first rest vertexCount,
    first_token_is "end_header" line = true ->
    main_thread_header (line :: first :: rest) vertexCount false
    = (vertexCount, true, rest).
Proof.
  intros line first rest vertexCount Hline. cbn [main_thread_header].
  unfold first_token_is in Hline.
  destruct (IStream.read_token line) as [[token iss]|]; [|discriminate].
  apply list_eqb_eq in Hline. subst token. reflexivity.
Qed.

Section StreamImport.

Variable Scalar : Type.
Variable read_scalar : list ascii -> option (Scalar * list ascii).
Variable ExtractLowercaseFileExtensionFromPath : string -> string.
Variable vector_reserve : N -> option string.

(** X9.  [ImportPLYPointCloudDataMainThread] never reads a point from
    the line that follows [end_header]: the loop over the header fetches
    that line before it tests [headerEnded].  Whatever the line holds,
    the call fails, ends with the exception of [vertices.reserve], or
    returns the points of the lines behind that line. *)
Theorem stream_import_skips_line_after_header :
  forall absFileName w content header end_header first rest,
    ExtractLowercaseFileExtensionFromPath absFileName = "ply" ->
    files w absFileName = Some content ->
    getlines (from_text_mode true content) []
    = header ++ end_header :: first :: rest ->
    Forall (fun line => first_token_is "end_header" line = false) header ->
    first_token_is "end_header" end_header = true ->
    let result :=
      ImportPLYPointCloudDataMainThread
        read_scalar ExtractLowercaseFileExtensionFromPath vector_reserve
        absFileName w in
    let w' := log (OpenRead absFileName) w in
    result = Returns (None, w')
    \/ (exists what, result = Throws what)
    \/ result
       = Returns
           (Some (flat_map (fun line =>
                              match read_vec3 read_scalar line with
                              | Some vertex => [vertex]
                              | None => []
                              end) rest),
            w').
Proof.
  intros absFileName w content header end_header first rest Hext Hfile
         Hlines Hheader Hend.
  cbv zeta. unfold ImportPLYPointCloudDataMainThread.
  rewrite Hext. change (negb ("ply" =? "ply")%string) with false. cbv iota.
  unfold log. cbn [files]. rewrite Hfile, Hlines.
  destruct (main_thread_header_before_end header
              (end_header :: first :: rest) 0%N Hheader) as [n ->].
  rewrite (main_thread_header_at_end end_header first rest n Hend).
  cbn [negb orb].
  destruct (n =? 0)%N; [left; reflexivity | right].
  destruct (vector_reserve n) as [what|];
    [left; exists what; reflexivity | right; reflexivity].
Qed.

End StreamImport.

(** X9, witness: a file of the two points (1,2,3) and (4,5,6); the
    stream importer returns the second one only. *)
Lemma stream_import_skips_line_after_header_witness :
  let content :=
    text ["ply"; "format ascii 1.0"; "element vertex 2";
          "property float x"; "property float y"; "property float z";
          "end_header"; "1 2 3"; "4 5 6"] in
  let w := Instances.world_of [("cloud.ply", content)] 1 0 in
  let result :=
    ImportPLYPointCloudDataMainThread
      Instances.read_int Utils.ExtractLowercaseFileExtensionFromPath
      Instances.reserve_within_max_size "cloud.ply" w in
  let w' := log (OpenRead "cloud.ply") w in
  result = Returns (Some [(4, 5, 6)%Z], w')
  /\ (result = Returns (None, w')
      \/ (exists what, result = Throws what)
      \/ result
         = Returns
             (Some (flat_map (fun line =>
                                match read_vec3 Instances.read_int line with
                                | Some vertex => [vertex]
                                | None => []
                                end) [bytes "4 5 6"]),
              w')).
Proof.
  cbv zeta. split; [reflexivity|].
  apply (stream_import_skips_line_after_header
           Z Instances.read_int Utils.ExtractLowercaseFileExtensionFromPath
           Instances.reserve_within_max_size
           "cloud.ply"
           (Instances.world_of
              [("cloud.ply",
                text ["ply"; "format ascii 1.0"; "element vertex 2";
                      "property float x"; "property float y";
                      "property float z"; "end_header"; "1 2 3"; "4 5 6"])]
              1 0)
           (text ["ply"; "format ascii 1.0"; "element vertex 2";
                  "property float x"; "property float y";
                  "property float z"; "end_header"; "1 2 3"; "4 5 6"])
           (map bytes ["ply"; "format ascii 1.0"; "element vertex 2";
                       "property float x"; "property float y";
                       "property float z"])
           (bytes "end_header") (bytes "1 2 3") [bytes "4 5 6"]).
  - reflexivity.
  - reflexivity.
  - reflexivity.
  - repeat constructor.
  - reflexivity.
Defined.

(** A count that no vector can hold ends the call with the exception of
    [vertices.reserve]; a line [element vertex] without a number leaves
    the count read before it. *)
Example stream_import_reserve_and_count :
  let ext := Utils.ExtractLowercaseFileExtensionFromPath in
  let import content :=
    ImportPLYPointCloudDataMainThread
      Instances.read_int ext Instances.reserve_within_max_size "cloud.ply"
      (Instances.world_of [("cloud.ply", content)] 1 0) in
  import (text ["ply"; "element vertex 9999999999999999999";
                "end_header"; "0 0 0"; "1 2 3"])
  = Throws "vector::reserve"
  /\ (exists w',
        import (text ["ply"; "element vertex 2"; "element vertex";
                      "end_header"; "0 0 0"; "1 2 3"])
        = Returns (Some [(1, 2, 3)%Z], w'))
  /\ (exists w',
        import (text ["ply"; "element vertex 2"; "element vertex x";
                      "end_header"; "0 0 0"; "1 2 3"])
        = Returns (None, w')).
Proof.
  cbv zeta. split; [vm_compute; reflexivity|].
  split; eexists; vm_compute; reflexivity.
Qed.

(* ===================================================================== *)
(** ** The header of a point-cloud file *)
(* ===================================================================== *)

Lemma substring_at :
  forall a mem c rest,
    skipn c mem = a ++ rest -> substring mem c (c + length a) = a.
Proof.
  intros a mem c rest H. unfold substring.
  replace (c + length a - c) with (length a) by lia.
  revert c H. induction a as [|x a IH]; intros c H; [reflexivity|].
  cbn [length seq map]. f_equal.
  - exact (peek_at mem c x (a ++ rest) H).
  - apply IH. replace (S c) with (c + length [x]) by (cbn; lia).
    apply skipn_plus. exact H.
Qed.

Lemma strip_cr_app_CR : forall l, strip_cr (l ++ [CR]) = l.
Proof.
  intros l. unfold strip_cr. rewrite rev_app_distr. cbn [rev app].
  rewrite Ascii.eqb_refl. apply rev_involutive.
Qed.

(** A line of the header that is not [end_header] is read and left
    behind. *)
Lemma header_line_skipped :
  forall mem c line rest fuel vertexCount,
    skipn c mem = line ++ LF :: rest ->
    Forall (fun x => is_LF_or_NUL x = false) line ->
    list_eqb (strip_cr line) (bytes "end_header") = false ->
    exists vertexCount',
      ReadPLYVertexHeader_loop mem (S fuel) c vertexCount
      = ReadPLYVertexHeader_loop mem fuel (c + length (line ++ [LF]))
                                 vertexCount'.
Proof.
  intros mem c line rest fuel vertexCount Hskip Hline Hnot.
  cbn [ReadPLYVertexHeader_loop].
  assert (Hfirst : Ascii.eqb (peek mem c) NUL = false).
  { destruct line as [|x line].
    - rewrite (peek_at mem c LF rest Hskip). reflexivity.
    - rewrite (peek_at mem c x (line ++ LF :: rest) Hskip).
      inversion Hline as [|? ? Hx _]; subst. unfold is_LF_or_NUL in Hx.
      apply orb_false_iff in Hx. apply Hx. }
  rewrite Hfirst.
  change (scan_until is_LF_or_NUL mem (length mem - c) c)
    with (skip_to is_LF_or_NUL mem c (length mem)).
  rewrite (skip_to_spec is_LF_or_NUL mem line c LF rest Hskip Hline
             eq_refl).
  rewrite (substring_at line mem c (LF :: rest) Hskip).
  assert (Hnl : peek mem (c + length line) = LF).
  { apply (peek_at mem _ LF rest). apply skipn_plus. exact Hskip. }
  rewrite Hnl. change (Ascii.eqb LF NUL) with false. cbv iota.
  rewrite Hnot. rewrite length_app. cbn [length].
  replace (c + (length line + 1)) with (S (c + length line)) by lia.
  destruct (prefix_of (bytes "element vertex") (strip_cr line)).
  - destruct (read_vertex_count (strip_cr line) vertexCount) as [ok n].
    destruct (negb ok); eauto.
  - eauto.
Qed.

Lemma header_lines_skipped :
  forall mem header c rest fuel vertexCount,
    skipn c mem = flat_map (fun line => line ++ [LF]) header ++ rest ->
    Forall (fun line =>
              Forall (fun x => is_LF_or_NUL x = false) line
              /\ list_eqb (strip_cr line) (bytes "end_header") = false)
           header ->
    exists vertexCount',
      ReadPLYVertexHeader_loop mem (length header + fuel) c vertexCount
      = ReadPLYVertexHeader_loop
          mem fuel
          (c + length (flat_map (fun line => line ++ [LF]) header))
          vertexCount'.
Proof.
  intros mem header; induction header as [|line header IH];
    intros c rest fuel vertexCount Hskip Hall.
  - exists vertexCount. cbn. rewrite Nat.add_0_r. reflexivity.
  - inversion Hall as [|? ? [Hline Hnot] Hrest]; subst.
    cbn [flat_map] in Hskip. rewrite <- !app_assoc in Hskip.
    cbn [app] in Hskip.
    destruct (header_line_skipped mem c line _ (length header + fuel)
                vertexCount Hskip Hline Hnot) as [v1 E1].
    cbn [length Nat.add]. rewrite E1.
    assert (Hskip' : skipn (c + length (line ++ [LF])) mem
                     = flat_map (fun line => line ++ [LF]) header ++ rest).
    { apply skipn_plus. rewrite <- app_assoc. exact Hskip. }
    destruct (IH _ rest fuel v1 Hskip' Hrest) as [v2 E2].
    exists v2. rewrite E2. cbn [flat_map]. rewrite (length_app (line ++ [LF])).
    rewrite Nat.add_assoc. reflexivity.
Qed.

Lemma end_header_line_read :
  forall mem c line rest fuel vertexCount,
    skipn c mem = line ++ LF :: rest ->
    Forall (fun x => is_LF_or_NUL x = false) line ->
    strip_cr line = bytes "end_header" ->
    ReadPLYVertexHeader_loop mem (S fuel) c vertexCount
    = Some (vertexCount, c + length (line ++ [LF])).
Proof.
  intros mem c line rest fuel vertexCount Hskip Hline Hend.
  cbn [ReadPLYVertexHeader_loop].
  assert (Hfirst : Ascii.eqb (peek mem c) NUL = false).
  { destruct line as [|x line]; [discriminate Hend|].
    rewrite (peek_at mem c x (line ++ LF :: rest) Hskip).
    inversion Hline as [|? ? Hx _]; subst. unfold is_LF_or_NUL in Hx.
    apply orb_false_iff in Hx. apply Hx. }
  rewrite Hfirst.
  change (scan_until is_LF_or_NUL mem (length mem - c) c)
    with (skip_to is_LF_or_NUL mem c (length mem)).
  rewrite (skip_to_spec is_LF_or_NUL mem line c LF rest Hskip Hline
             eq_refl).
  rewrite (substring_at line mem c (LF :: rest) Hskip).
  assert (Hnl : peek mem (c + length line) = LF).
  { apply (peek_at mem _ LF rest). apply skipn_plus. exact Hskip. }
  rewrite Hnl. change (Ascii.eqb LF NUL) with false. cbv iota.
  rewrite Hend. rewrite length_app. cbn [length].
  replace (c + (length line + 1)) with (S (c + length line)) by lia.
  reflexivity.
Qed.

(** The header loop reads through the lines before [end_header] and
    stops behind that line. *)
Lemma ReadPLYVertexHeader_through_header :
  forall header end_header data,
    Forall (fun line =>
              Forall (fun x => is_LF_or_NUL x = false) line
              /\ list_eqb (strip_cr line) (bytes "end_header") = false)
           header ->
    Forall (fun x => is_LF_or_NUL x = false) end_header ->
    strip_cr end_header = bytes "end_header" ->
    exists vertexCount,
      ReadPLYVertexHeader
        (flat_map (fun line => line ++ [LF]) header
           ++ end_header ++ LF :: data)
      = Some (vertexCount,
              length (flat_map (fun line => line ++ [LF]) header)
              + length (end_header ++ [LF])).
Proof.
  intros header end_header data Hheader Hline Hend.
  set (mem := flat_map (fun line => line ++ [LF]) header
                ++ end_header ++ LF :: data).
  assert (Hskip : skipn 0 mem
                  = flat_map (fun line => line ++ [LF]) header
                      ++ (end_header ++ LF :: data)) by reflexivity.
  assert (Hlen : length mem
                 = length header + S (length mem - length header - 1)).
  { assert (length header + 1 <= length mem); [|lia].
    subst mem. rewrite !length_app. cbn [length].
    assert (length header
            <= length (flat_map (fun line => line ++ [LF]) header));
      [|lia].
    clear. induction header as [|l header IH]; [cbn; lia|].
    cbn [flat_map length]. rewrite !length_app. cbn [length]. lia. }
  unfold ReadPLYVertexHeader. rewrite Hlen.
  destruct (header_lines_skipped mem header 0 _
              (S (length mem - length header - 1)) 0%N Hskip Hheader)
    as [vertexCount E].
  rewrite E. exists vertexCount.
  rewrite (end_header_line_read mem _ end_header data _ vertexCount).
  - reflexivity.
  - apply skipn_plus. exact Hskip.
  - exact Hline.
  - exact Hend.
Qed.

(** X10.  When no NUL byte stands in or before the first line that reads
    [end_header], with line endings LF or CR LF, [ReadPLYVertexHeader]
    returns as the start of the data the position right behind that
    line.  (A NUL byte ends the text for the reader.) *)
Theorem ply_header_ends_behind_end_header :
  forall header end_header data,
    Forall (fun line =>
              Forall (fun x => is_LF_or_NUL x = false) line
              /\ list_eqb (strip_cr line) (bytes "end_header") = false)
           header ->
    Forall (fun x => is_LF_or_NUL x = false) end_header ->
    strip_cr end_header = bytes "end_header" ->
    let head :=
      flat_map (fun line => line ++ [LF]) header ++ end_header ++ [LF] in
    exists vertexCount,
      ReadPLYVertexHeader (head ++ data) = Some (vertexCount, length head).
Proof.
  intros header end_header data Hheader Hline Hend head.
  destruct (ReadPLYVertexHeader_through_header header end_header data
              Hheader Hline Hend) as [vertexCount E].
  exists vertexCount. subst head.
  rewrite <- !app_assoc. cbn [app].
  rewrite E, (length_app (flat_map _ header)). reflexivity.
Qed.

(** X10, witness: a header with CR LF line endings before two points. *)
Lemma ply_header_ends_behind_end_header_witness :
  let header :=
    map (fun l => bytes l ++ [CR])
        ["ply"; "format ascii 1.0"; "element vertex 2";
         "property float x"; "property float y"; "property float z"] in
  let end_header := bytes "end_header" ++ [CR] in
  let data := to_text_mode true (text ["1 2 3"; "4 5 6"]) in
  exists vertexCount,
    ReadPLYVertexHeader
      ((flat_map (fun line => line ++ [LF]) header ++ end_header ++ [LF])
         ++ data)
    = Some (vertexCount,
            length (flat_map (fun line => line ++ [LF]) header
                      ++ end_header ++ [LF])).
Proof.
  cbv zeta.
  apply (ply_header_ends_behind_end_header
           (map (fun l => bytes l ++ [CR])
                ["ply"; "format ascii 1.0"; "element vertex 2";
                 "property float x"; "property float y";
                 "property float z"])
           (bytes "end_header" ++ [CR])
           (to_text_mode true (text ["1 2 3"; "4 5 6"]))).
  - repeat constructor.
  - repeat constructor.
  - reflexivity.
Defined.

(* ===================================================================== *)
(** ** PLY round trip *)
(* ===================================================================== *)

Lemma isspace_is_blank :
  forall c, Libc.isspace c = false -> is_SP_or_LF c = false.
Proof.
  intros c H. unfold is_SP_or_LF.
  destruct (Ascii.eqb_spec c SP) as [->|_]; [discriminate H|].
  destruct (Ascii.eqb_spec c LF) as [->|_]; [discriminate H|].
  reflexivity.
Qed.

Lemma isdigit_not_LF_or_NUL :
  forall c, Libc.isdigit c = true -> is_LF_or_NUL c = false.
Proof.
  intros c H. unfold is_LF_or_NUL.
  destruct (Ascii.eqb_spec c LF) as [->|_]; [discriminate H|].
  destruct (Ascii.eqb_spec c NUL) as [->|_]; [discriminate H|].
  reflexivity.
Qed.

Section PLYRoundTrip.

Variable Scalar : Type.
Variable print_scalar : Scalar -> list ascii.
Variable read_scalar : list ascii -> option (Scalar * list ascii).
Variable ExtractLowercaseFileExtensionFromPath : string -> string.

(** [close x x'] : the scalar [x'] is within tolerance of [x]. *)
Variable close : Scalar -> Scalar -> Prop.

(** What is assumed of the stream library: a printed scalar is not
    empty and holds no white space, and [stream >> x], on a printed
    scalar (after one blank or none) that ends the stream or is followed
    by white space, consumes exactly the printed text and yields a
    scalar within tolerance of the one printed. *)
Hypothesis print_scalar_word :
  forall x, print_scalar x <> []
            /\ Forall (fun c => Libc.isspace c = false) (print_scalar x).
Hypothesis read_print_scalar :
  forall (lead : bool) x rest,
    rest = [] \/ space_first rest ->
    exists x',
      read_scalar ((if lead then [SP] else []) ++ print_scalar x ++ rest)
      = Some (x', rest)
      /\ close x x'.

Lemma print_scalar_no_newline :
  forall x, Forall (fun c => Ascii.eqb c LF = false) (print_scalar x).
Proof using print_scalar_word.
  intros x. eapply Forall_impl; [|apply print_scalar_word].
  intros c Hc. cbv beta in Hc.
  destruct (Ascii.eqb_spec c LF) as [->|_]; [discriminate Hc | reflexivity].
Qed.

Lemma text_mode_ply_point :
  forall v,
    to_text_mode true (coords print_scalar " " v)
    = ply_point_record print_scalar v.
Proof using print_scalar_word.
  intros [[x y] z]. unfold coords, ply_point_record.
  change (bytes " ") with [SP].
  rewrite !to_text_mode_app.
  rewrite !(to_text_mode_plain true (print_scalar _))
    by apply print_scalar_no_newline.
  cbn [app]. reflexivity.
Qed.

(** The text of a point without its line ending is read back. *)
Lemma read_vec3_printed :
  forall x y z,
    exists v',
      read_vec3 read_scalar
                (print_scalar x ++ SP :: print_scalar y
                   ++ SP :: print_scalar z)
      = Some v'
      /\ vec3_rel close (x, y, z) v'.
Proof using read_print_scalar.
  intros x y z. unfold read_vec3.
  destruct (read_print_scalar false x
              (SP :: print_scalar y ++ SP :: print_scalar z))
    as (x' & Ex & Hx); [right; reflexivity|].
  cbn [app] in Ex. rewrite Ex.
  destruct (read_print_scalar true y (SP :: print_scalar z))
    as (y' & Ey & Hy); [right; reflexivity|].
  cbn [app] in Ey. rewrite Ey.
  destruct (read_print_scalar true z []) as (z' & Ez & Hz);
    [left; reflexivity|].
  cbn [app] in Ez. rewrite app_nil_r in Ez. rewrite Ez.
  exists (x', y', z'). split; [reflexivity|]. repeat split; assumption.
Qed.

(** A point record at the cursor is parsed in one round. *)
Lemma ply_point_record_parsed :
  forall mem c data v rest,
    skipn c mem = ply_point_record print_scalar v ++ rest ->
    exists v',
      vec3_rel close v v'
      /\ ParsePointCloudChunk read_scalar mem c (length mem) data
         = ParsePointCloudChunk read_scalar mem
             (c + length (ply_point_record print_scalar v))
             (length mem) (data ++ [v']).
Proof using print_scalar_word read_print_scalar.
  intros mem c data [[x y] z] rest Hskip.
  destruct (read_vec3_printed x y z) as (v' & Hread & Hclose).
  exists v'. split; [exact Hclose|].
  unfold ply_point_record in *.
  set (line := print_scalar x ++ SP :: print_scalar y
                 ++ SP :: print_scalar z) in *.
  assert (Hrec : print_scalar x ++ SP :: print_scalar y
                   ++ SP :: print_scalar z ++ [CR; LF]
                 = (line ++ [CR]) ++ LF :: []).
  { subst line. repeat (rewrite <- app_assoc || rewrite <- app_comm_cons).
    reflexivity. }
  rewrite Hrec in *. rewrite <- app_assoc in Hskip. cbn [app] in Hskip.
  assert (Hlt : c < length mem).
  { destruct (print_scalar_word x) as [Hne _].
    destruct (line ++ [CR]) as [|a l] eqn:E;
      [destruct line; discriminate E|].
    exact (skipn_lt_length mem c a _ Hskip). }
  rewrite ParsePointCloudChunk_unfold by exact Hlt. cbv zeta.
  (* no blank before the first coordinate *)
  assert (Hc1 : skip_to not_blank mem c (length mem) = c).
  { apply skip_to_unique; [lia | lia | intros i Hi; lia|]. right.
    destruct (print_scalar_word x) as [Hne Hword].
    destruct (print_scalar x) as [|a l] eqn:E; [contradiction|].
    subst line. cbn [app] in Hskip.
    rewrite (peek_at mem c a _ Hskip).
    inversion Hword as [|? ? Ha _]; subst.
    unfold not_blank. rewrite (isspace_is_blank a Ha). reflexivity. }
  rewrite Hc1. destruct (Nat.leb_spec (length mem) c); [lia|].
  assert (HnoLF : Forall (fun y => is_LF y = false) (line ++ [CR])).
  { subst line. unfold is_LF.
    apply Forall_app; split; [|repeat constructor].
    apply Forall_app; split; [apply print_scalar_no_newline|].
    apply Forall_cons; [reflexivity|].
    apply Forall_app; split; [apply print_scalar_no_newline|].
    apply Forall_cons; [reflexivity | apply print_scalar_no_newline]. }
  rewrite (skip_to_spec is_LF mem (line ++ [CR]) c LF rest Hskip HnoLF
             eq_refl).
  assert (Hnl : peek mem (c + length (line ++ [CR])) = LF).
  { apply (peek_at mem _ LF rest). apply skipn_plus. exact Hskip. }
  rewrite Hnl. change (is_LF LF) with true. cbn [negb andb].
  rewrite (substring_at (line ++ [CR]) mem c (LF :: rest) Hskip).
  rewrite strip_cr_app_CR, Hread.
  assert (Hin : c + length (line ++ [CR]) < length mem).
  { apply (skipn_lt_length mem _ LF rest). apply skipn_plus. exact Hskip. }
  destruct (Nat.ltb_spec (c + length (line ++ [CR])) (length mem)); [|lia].
  rewrite (length_app (line ++ [CR])). cbn [length].
  replace (c + (length (line ++ [CR]) + 1))
    with (S (c + length (line ++ [CR]))) by lia.
  reflexivity.
Qed.

Lemma ply_point_records_parsed :
  forall mem vs c data,
    skipn c mem = flat_map (ply_point_record print_scalar) vs ->
    exists vs',
      Forall2 (vec3_rel close) vs vs'
      /\ ParsePointCloudChunk read_scalar mem c (length mem) data
         = Some (data ++ vs').
Proof using print_scalar_word read_print_scalar.
  intros mem vs; induction vs as [|v vs IH]; intros c data Hskip.
  - exists []. split; [constructor|]. rewrite app_nil_r.
    apply ParsePointCloudChunk_done.
    destruct (Nat.le_gt_cases (length mem) c) as [|Hlt]; [assumption|].
    apply (f_equal (@length ascii)) in Hskip.
    rewrite length_skipn in Hskip. cbn in Hskip. lia.
  - cbn [flat_map] in Hskip.
    destruct (ply_point_record_parsed mem c data v _ Hskip)
      as (v' & Hv & E).
    destruct (IH (c + length (ply_point_record print_scalar v))
                 (data ++ [v'])) as (vs' & Hvs & E').
    { apply skipn_plus. exact Hskip. }
    exists (v' :: vs'). split; [constructor; assumption|].
    rewrite E, E', <- app_assoc. reflexivity.
Qed.

(** The exported header, line by line as it stands in the file. *)
Lemma text_mode_ply_header :
  forall nVerts,
    to_text_mode true (ply_header nVerts)
    = flat_map (fun line => line ++ [LF])
        [bytes "ply" ++ [CR]; bytes "format ascii 1.0" ++ [CR];
         (bytes "element vertex " ++ Libc.print_N nVerts) ++ [CR];
         bytes "property float x" ++ [CR];
         bytes "property float y" ++ [CR];
         bytes "property float z" ++ [CR]]
      ++ (bytes "end_header" ++ [CR]) ++ [LF].
Proof.
  intros nVerts. unfold ply_header.
  rewrite !to_text_mode_app.
  rewrite (to_text_mode_plain true (Libc.print_N nVerts))
    by apply print_N_no_LF.
  cbn [flat_map]. repeat rewrite <- app_assoc. reflexivity.
Qed.

Lemma ply_point_record_length :
  forall vs : list (vec3 Scalar),
    length vs <= length (flat_map (ply_point_record print_scalar) vs).
Proof.
  induction vs as [|[[x y] z] vs IH]; [cbn; lia|].
  cbn [flat_map]. rewrite length_app.
  assert (1 <= length (ply_point_record print_scalar (x, y, z))).
  { unfold ply_point_record. rewrite length_app. cbn [length]. lia. }
  cbn [length]. lia.
Qed.


End PLYRoundTrip.

Lemma intscalar_print_word :
  forall z, IntScalar.print z <> []
            /\ Forall (fun c => Libc.isspace c = false) (IntScalar.print z).
Proof.
  intros z. split.
  - intros E. apply (intscalar_print_nonempty z). rewrite E. reflexivity.
  - assert (Hdigits : forall n,
               Forall (fun c => Libc.isspace c = false) (Libc.print_N n)).
    { intros n. eapply Forall_impl; [|apply print_N_digits].
      intros c (d & Hd & ->). apply (digit_char_facts d Hd). }
    destruct z as [|p|p]; cbn [IntScalar.print]; try apply Hdigits.
    constructor; [reflexivity | apply Hdigits].
Qed.

Lemma read_int_print :
  forall (lead : bool) z rest,
    rest = [] \/ space_first rest ->
    exists z',
      Instances.read_int ((if lead then [SP] else []) ++ IntScalar.print z
                            ++ rest)
      = Some (z', rest)
      /\ z = z'.
Proof.
  intros lead z rest Hrest.
  assert (Hnd : not_digit_first rest).
  { destruct Hrest as [->|Hs]; [exact I | apply space_is_not_digit; exact Hs]. }
  pose proof (intscalar_strtof_print z rest Hnd) as E.
  pose proof (intscalar_print_nonempty z) as Hne.
  exists z. split; [|reflexivity]. unfold Instances.read_int.
  destruct lead; cbn [app].
  - rewrite (intscalar_strtof_blank _ _ _ E Hne). cbn [Nat.eqb skipn].
    rewrite skipn_app, skipn_all, Nat.sub_diag. reflexivity.
  - rewrite E. destruct (Nat.eqb_spec (length (IntScalar.print z)) 0);
      [contradiction|].
    rewrite skipn_app, skipn_all, Nat.sub_diag. reflexivity.
Qed.


(* ===================================================================== *)
(** ** The OBJ importer *)
(* ===================================================================== *)

(** X12.  The chunks [ImportOBJMeshGeometryData] plans for a positive
    thread count lie inside the file and leave no gap: every byte of the
    file belongs to the chunk of some thread. *)
Theorem obj_chunks_cover_file :
  forall mem thread_count,
    0 < thread_count ->
    (forall i, i < thread_count ->
               fst (obj_chunk mem (length mem) thread_count i)
               <= snd (obj_chunk mem (length mem) thread_count i)
               <= length mem)
    /\ (forall p, p < length mem ->
                  exists i,
                    i < thread_count
                    /\ fst (obj_chunk mem (length mem) thread_count i) <= p
                       < snd (obj_chunk mem (length mem) thread_count i)).
Proof.
  intros mem thread_count Htc.
  set (chunk_size := length mem / thread_count).
  assert (Hcs : thread_count * chunk_size <= length mem)
    by (apply Nat.Div0.mul_div_le).
  assert (Hend : forall i, i < thread_count ->
            let nominal := if i =? thread_count - 1 then length mem
                           else i * chunk_size + chunk_size in
            nominal <= snd (obj_chunk mem (length mem) thread_count i)
            <= length mem).
  { intros i Hi. unfold obj_chunk. cbv zeta. cbn [snd]. fold chunk_size.
    set (nominal := if i =? thread_count - 1 then length mem
                    else i * chunk_size + chunk_size).
    assert (Hn : nominal <= length mem).
    { subst nominal. destruct (Nat.eqb_spec i (thread_count - 1)); [lia|].
      nia. }
    pose proof (skip_to_ge is_LF mem nominal (length mem)).
    pose proof (skip_to_le is_LF mem nominal (length mem) Hn).
    destruct (Nat.eqb_spec (skip_to is_LF mem nominal (length mem))
                           (length mem)); lia. }
  assert (Hstart : forall i, fst (obj_chunk mem (length mem) thread_count i)
                             = i * chunk_size) by reflexivity.
  split.
  - intros i Hi. rewrite Hstart. specialize (Hend i Hi). cbv zeta in Hend.
    destruct (Nat.eqb_spec i (thread_count - 1)); nia.
  - intros p Hp.
    destruct (Nat.lt_ge_cases p ((thread_count - 1) * chunk_size))
      as [Hin|Hlast].
    + (* a chunk before the last one *)
      assert (Hpos : 0 < chunk_size) by nia.
      exists (p / chunk_size).
      assert (Hi : p / chunk_size < thread_count - 1)
        by (apply Nat.Div0.div_lt_upper_bound; nia).
      split; [lia|]. rewrite Hstart.
      specialize (Hend (p / chunk_size) ltac:(lia)). cbv zeta in Hend.
      destruct (Nat.eqb_spec (p / chunk_size) (thread_count - 1)); [lia|].
      pose proof (Nat.Div0.mul_div_le p chunk_size).
      pose proof (Nat.mul_succ_div_gt p chunk_size ltac:(lia)).
      nia.
    + exists (thread_count - 1). split; [lia|]. rewrite Hstart.
      specialize (Hend (thread_count - 1) ltac:(lia)). cbv zeta in Hend.
      rewrite Nat.eqb_refl in Hend. lia.
Qed.

(** X12, witness: the file of the two records [v 1 2 3] and [v 4 5 6],
    planned for two threads; byte 9 lies in a chunk. *)
Lemma obj_chunks_cover_file_witness :
  let mem := text ["v 1 2 3"; "v 4 5 6"] in
  exists i,
    i < 2
    /\ fst (obj_chunk mem (length mem) 2 i) <= 9
       < snd (obj_chunk mem (length mem) 2 i).
Proof.
  cbv zeta.
  apply (proj2 (obj_chunks_cover_file (text ["v 1 2 3"; "v 4 5 6"]) 2
                  (Nat.lt_0_succ 1)) 9).
  apply Nat.ltb_lt. reflexivity.
Defined.

Lemma strtoul_le_ULONG_MAX :
  forall s, (fst (Libc.strtoul s) <= Libc.ULONG_MAX)%N.
Proof.
  intros s. unfold Libc.strtoul.
  destruct (match skipn (Libc.count_while Libc.isspace s) s with
            | [] => (false, 0)
            | c :: _ => if Ascii.eqb c "-" then (true, 1)
                        else if Ascii.eqb c "+" then (false, 1)
                        else (false, 0)
            end) as [neg sg].
  destruct (_ =? 0); cbn [fst]; [unfold Libc.ULONG_MAX; lia|].
  destruct (N.ltb_spec Libc.ULONG_MAX (Libc.digits_value
              (firstn (Libc.count_while Libc.isdigit
                         (skipn sg (skipn (Libc.count_while Libc.isspace s)
                                          s)))
                      (skipn sg (skipn (Libc.count_while Libc.isspace s)
                                       s))))) as [|Hle]; [lia|].
  destruct neg; [|exact Hle].
  pose proof (N.mod_upper_bound
                (Libc.ULONG_MAX + 1
                 - Libc.digits_value
                     (firstn (Libc.count_while Libc.isdigit
                                (skipn sg (skipn (Libc.count_while
                                                    Libc.isspace s) s)))
                             (skipn sg (skipn (Libc.count_while
                                                 Libc.isspace s) s))))
                (Libc.ULONG_MAX + 1)) as H.
  unfold Libc.ULONG_MAX in *. lia.
Qed.

(** The inner loop pushes indices that are one less than a non-zero
    [unsigned long]. *)
Lemma parse_face_indices_bounded :
  forall mem end_ fuel cursor faceIndices r,
    parse_face mem end_ fuel cursor faceIndices = Some r ->
    Forall (fun i => (i < Libc.ULONG_MAX)%N) faceIndices ->
    Forall (fun i => (i < Libc.ULONG_MAX)%N) (snd r).
Proof.
  intros mem end_ fuel; induction fuel as [|f IH];
    intros cursor faceIndices r Hrun Hacc.
  - cbn [parse_face] in Hrun.
    destruct (is_LF (peek mem cursor) || (end_ <=? cursor));
      [|discriminate].
    injection Hrun as <-. exact Hacc.
  - rewrite parse_face_unfold in Hrun.
    destruct (is_LF (peek mem cursor) || (end_ <=? cursor)).
    { injection Hrun as <-. exact Hacc. }
    pose proof (strtoul_le_ULONG_MAX (skipn cursor mem)) as Hle.
    destruct (Libc.strtoul (skipn cursor mem)) as [vertexIndex n].
    cbn [fst] in Hle.
    destruct (n =? 0). { injection Hrun as <-. exact Hacc. }
    destruct (N.eqb_spec vertexIndex 0) as [|Hnz].
    { injection Hrun as <-. exact Hacc. }
    apply (IH _ _ _ Hrun). apply Forall_app. split; [exact Hacc|].
    constructor; [lia | constructor].
Qed.

Section OBJImport.

Variable Scalar : Type.
Variable strtof : list ascii -> Scalar * nat.
Variable ExtractLowercaseFileExtensionFromPath : string -> string.

Lemma push_face_pushed :
  forall f (data : ChunkData Scalar),
    Forall (fun i => (i < Libc.ULONG_MAX)%N) f ->
    Forall pushed_polygon (chunkPolyIndices data) ->
    Forall pushed_polygon (chunkPolyIndices (push_face f data)).
Proof.
  intros f data Hf Hdata. destruct f as [|i f]; [exact Hdata|].
  cbn [push_face chunkPolyIndices]. apply Forall_app. split; [exact Hdata|].
  constructor; [|constructor]. split; [discriminate | exact Hf].
Qed.

(** [ParseChunk] keeps the polygons it is given and adds pushed ones. *)
Lemma ParseChunk_loop_polygons :
  forall mem end_ fuel cursor data r,
    ParseChunk_loop strtof mem end_ fuel cursor data = Some r ->
    Forall pushed_polygon (chunkPolyIndices data) ->
    Forall pushed_polygon (chunkPolyIndices r).
Proof.
  intros mem end_ fuel; induction fuel as [|f IH];
    intros cursor data r Hrun Hdata.
  - cbn [ParseChunk_loop] in Hrun.
    destruct (end_ <=? cursor); [|discriminate].
    injection Hrun as <-. exact Hdata.
  - rewrite ParseChunk_loop_unfold in Hrun.
    destruct (end_ <=? cursor). { injection Hrun as <-. exact Hdata. }
    destruct (is_LF (peek mem cursor)); [exact (IH _ _ _ Hrun Hdata)|].
    destruct (starts_with (bytes "v ") mem cursor
              || starts_with (bytes "vn ") mem cursor).
    { cbv zeta in Hrun.
      destruct (strtof _) as [x n1] in Hrun.
      destruct (strtof _) as [y n2] in Hrun.
      destruct (strtof _) as [z n3] in Hrun.
      apply (IH _ _ _ Hrun). unfold push_vertex.
      destruct (starts_with (bytes "vn ") mem cursor); exact Hdata. }
    destruct (starts_with (bytes "f ") mem cursor);
      [|exact (IH _ _ _ Hrun Hdata)].
    cbv zeta in Hrun.
    destruct (parse_face mem end_ (end_ - (cursor + 2)) (cursor + 2) [])
      as [[c' faceIndices]|] eqn:Hface; [|discriminate].
    apply (IH _ _ _ Hrun). apply push_face_pushed; [|exact Hdata].
    exact (parse_face_indices_bounded _ _ _ _ _ _ Hface (Forall_nil _)).
Qed.

Lemma parse_chunks_polygons :
  forall mem chunks results,
    parse_chunks strtof mem chunks = Some results ->
    Forall (fun result => Forall pushed_polygon (chunkPolyIndices result))
           results.
Proof.
  intros mem chunks; induction chunks as [|[s e] chunks IH];
    intros results Hrun; cbn [parse_chunks] in Hrun.
  - injection Hrun as <-. constructor.
  - destruct (ParseChunk strtof mem s e emptyChunk) as [d|] eqn:Hd;
      [|discriminate].
    destruct (parse_chunks strtof mem chunks) as [ds|]; [|discriminate].
    injection Hrun as <-. constructor; [|apply IH; reflexivity].
    apply (ParseChunk_loop_polygons _ _ _ _ _ _ Hd). constructor.
Qed.

Lemma merge_chunks_polygons :
  forall (results : list (ChunkData Scalar)) resultData,
    Forall pushed_polygon (PolyIndices resultData) ->
    Forall (fun result => Forall pushed_polygon (chunkPolyIndices result))
           results ->
    Forall pushed_polygon
           (PolyIndices (fold_left (@merge_chunk Scalar) results resultData)).
Proof.
  induction results as [|result results IH]; intros resultData Hacc Hall;
    [exact Hacc|].
  inversion Hall as [|? ? Hresult Hrest]; subst.
  cbn [fold_left]. apply IH; [|exact Hrest].
  cbn [merge_chunk PolyIndices]. apply Forall_app. split; assumption.
Qed.

(** X13.  A buffer [ImportOBJMeshGeometryData] returns holds no empty
    polygon, and each of its polygon indices is below [ULONG_MAX]: a
    face record without a vertex reference is dropped, and a reference
    that reads as 0 ends its record. *)
Theorem obj_import_polygons_not_empty :
  forall absFileName importInParallel w geomData,
    fst (ImportOBJMeshGeometryData
           strtof ExtractLowercaseFileExtensionFromPath absFileName
           importInParallel w) = Some geomData ->
    Forall (fun indices =>
              indices <> []
              /\ Forall (fun i => (i < Libc.ULONG_MAX)%N) indices)
           (PolyIndices geomData).
Proof.
  intros path par w g Hrun. unfold ImportOBJMeshGeometryData in Hrun.
  destruct (negb (String.eqb _ "obj")); [discriminate|].
  destruct (map_file path w) as [[mem|] w']; [|discriminate].
  cbn [fst] in Hrun. unfold import_obj_mapped in Hrun.
  destruct (parse_chunks strtof mem _) as [results|] eqn:Hchunks;
    [|discriminate].
  injection Hrun as <-.
  apply (merge_chunks_polygons results emptyGeom); [constructor|].
  exact (parse_chunks_polygons _ _ _ Hchunks).
Qed.


End OBJImport.

(** X13, witness: a file with a complete face, a face whose second
    reference reads as 0, and a face record without references. *)
Lemma obj_import_polygons_not_empty_witness :
  let content := text ["v 0 0 0"; "f 1 1 1"; "f 1 0 1"; "f "] in
  let w := Instances.world_of [("mesh.obj", content)] 1 0 in
  fst (ImportOBJMeshGeometryData
         IntScalar.strtof Utils.ExtractLowercaseFileExtensionFromPath
         "mesh.obj" false w)
  = Some (mkGeom [(0, 0, 0)%Z] [[0; 0; 0]%N; [0%N]] [])
  /\ Forall (fun indices =>
               indices <> []
               /\ Forall (fun i => (i < Libc.ULONG_MAX)%N) indices)
            [[0; 0; 0]%N; [0%N]].
Proof.
  cbv zeta. split; [reflexivity|].
  apply (obj_import_polygons_not_empty
           Z IntScalar.strtof Utils.ExtractLowercaseFileExtensionFromPath
           "mesh.obj" false
           (Instances.world_of
              [("mesh.obj",
                text ["v 0 0 0"; "f 1 1 1"; "f 1 0 1"; "f "])] 1 0)
           (mkGeom [(0, 0, 0)%Z] [[0; 0; 0]%N; [0%N]] [])).
  reflexivity.
Defined.

Section PointCloudImportOutcome.

Variable Scalar : Type.
Variable read_scalar : list ascii -> option (Scalar * list ascii).
Variable ExtractLowercaseFileExtensionFromPath : string -> string.

Lemma parse_point_chunks_total :
  forall mem chunks,
    exists points, parse_point_chunks read_scalar mem chunks = Some points.
Proof.
  intros mem chunks; induction chunks as [|[s e] chunks IH];
    cbn [parse_point_chunks]; [eauto|].
  destruct (ParsePointCloudChunk_total Scalar read_scalar mem s e [])
    as [d ->].
  destruct IH as [ds ->]. eauto.
Qed.


End PointCloudImportOutcome.



(* ===================================================================== *)
(** ** Face records with texture and normal numbers *)
(* ===================================================================== *)

Lemma digit_char_not_slash :
  forall d, (d < 10)%N -> Ascii.eqb (Libc.digit_char d) "/" = false.
Proof. intros d Hd. digit_cases d; reflexivity. Qed.

Lemma skipn_S :
  forall (mem : list ascii) c a s,
    skipn c mem = a :: s -> skipn (S c) mem = s.
Proof.
  intros mem c a s H. replace (S c) with (c + length [a]) by (cbn; lia).
  apply skipn_plus. exact H.
Qed.

(** [strtoul] at a printed number that something other than a digit
    follows. *)
Lemma strtoul_at_print_N :
  forall mem c n rest,
    skipn c mem = Libc.print_N n ++ rest ->
    (n <= Libc.ULONG_MAX)%N -> not_digit_first rest ->
    Libc.strtoul (skipn c mem) = (n, length (Libc.print_N n))
    /\ Ascii.eqb (peek mem c) "/" = false
    /\ skipn (c + length (Libc.print_N n)) mem = rest.
Proof.
  intros mem c n rest H Hn Hrest. split; [|split].
  - rewrite H. apply strtoul_print_N; assumption.
  - destruct (print_N_first_char n rest) as (d & s & Hd & Es).
    rewrite Es in H. rewrite (peek_at mem c _ _ H).
    apply digit_char_not_slash. exact Hd.
  - apply skipn_plus. exact H.
Qed.

(** The texture and normal numbers behind a vertex number are passed
    over. *)
Lemma skip_slashes_suffix :
  forall mem c texture normal d rest,
    skipn c mem = obj_reference_suffix texture normal ++ d :: rest ->
    d = SP \/ d = CR \/ d = LF ->
    match texture with Some t => (t <= Libc.ULONG_MAX)%N | None => True end ->
    match normal with Some n => (n <= Libc.ULONG_MAX)%N | None => True end ->
    skip_slashes mem c = c + length (obj_reference_suffix texture normal).
Proof.
  intros mem c texture normal d rest H Hd Ht Hn.
  assert (Hslash : Ascii.eqb d "/" = false)
    by (destruct Hd as [->|[->| ->]]; reflexivity).
  assert (Hnd : not_digit_first (d :: rest))
    by (destruct Hd as [->|[->| ->]]; reflexivity).
  unfold skip_slashes.
  destruct texture as [t|], normal as [n|];
    cbn [obj_reference_suffix] in *.
  - (* /t/n *)
    rewrite <- app_comm_cons, <- app_assoc, <- app_comm_cons in H.
    rewrite (peek_at mem c _ _ H), Ascii.eqb_refl.
    pose proof (skipn_S mem c _ _ H) as H1.
    destruct (strtoul_at_print_N mem (S c) t _ H1 Ht eq_refl)
      as (E1 & P1 & H2).
    rewrite P1, E1. cbn [negb snd].
    rewrite (peek_at mem _ _ _ H2), Ascii.eqb_refl.
    pose proof (skipn_S mem _ _ _ H2) as H3.
    destruct (strtoul_at_print_N mem _ n _ H3 Hn Hnd) as (E3 & _ & _).
    rewrite E3. cbn [snd length]. rewrite length_app. cbn [length]. lia.
  - (* /t *)
    rewrite <- app_comm_cons in H.
    rewrite (peek_at mem c _ _ H), Ascii.eqb_refl.
    pose proof (skipn_S mem c _ _ H) as H1.
    destruct (strtoul_at_print_N mem (S c) t _ H1 Ht Hnd)
      as (E1 & P1 & H2).
    rewrite P1, E1. cbn [negb snd].
    rewrite (peek_at mem _ _ _ H2), Hslash. cbn [length]. lia.
  - (* //n *)
    cbn [app] in H.
    rewrite (peek_at mem c _ _ H), Ascii.eqb_refl.
    pose proof (skipn_S mem c _ _ H) as H1.
    rewrite (peek_at mem _ _ _ H1), Ascii.eqb_refl. cbn [negb].
    pose proof (skipn_S mem _ _ _ H1) as H2.
    destruct (strtoul_at_print_N mem _ n _ H2 Hn Hnd) as (E2 & _ & _).
    rewrite E2. cbn [snd length].
    rewrite (peek_at mem _ _ _ H1), Ascii.eqb_refl. lia.
  - cbn [app] in H. rewrite (peek_at mem c _ _ H), Hslash.
    cbn [length]. lia.
Qed.

(** One vertex reference is read: its index is pushed, the cursor
    comes to stand on the delimiter behind it. *)
Lemma face_reference_read :
  forall mem c fuel faceIndices ref d rest,
    skipn c mem = obj_face_reference ref ++ d :: rest ->
    d = SP \/ d = CR \/ d = LF ->
    reference_in_range ref ->
    parse_face mem (length mem) (S fuel) c faceIndices
    = let cursor := c + length (obj_face_reference ref) in
      let cursor := skip_to is_SP_or_LF mem cursor (length mem) in
      let cursor :=
        if Ascii.eqb (peek mem cursor) SP then S cursor else cursor in
      parse_face mem (length mem) fuel cursor
                 (faceIndices ++ [reference_index ref]).
Proof.
  intros mem c fuel faceIndices [[index texture] normal] d rest H Hd
         (Hindex & Ht & Hn).
  unfold obj_face_reference, reference_index in *. cbn [fst].
  rewrite <- app_assoc in H.
  assert (Hnd : not_digit_first
                  (obj_reference_suffix texture normal ++ d :: rest)).
  { destruct texture, normal; cbn [obj_reference_suffix app];
      try reflexivity.
    destruct Hd as [->|[->| ->]]; reflexivity. }
  rewrite parse_face_unfold.
  destruct (print_N_first_char (index + 1)
              (obj_reference_suffix texture normal ++ d :: rest))
    as (d0 & s & Hd0 & Es).
  pose proof H as H'. rewrite Es in H'.
  rewrite (peek_at _ _ _ _ H').
  replace (is_LF (Libc.digit_char d0)) with false
    by (symmetry; apply digit_char_facts; exact Hd0).
  pose proof (skipn_lt_length _ _ _ _ H') as Hlt.
  destruct (Nat.leb_spec (length mem) c); [lia|]. cbn [orb].
  destruct (strtoul_at_print_N mem c (index + 1) _ H Hindex Hnd)
    as (E & _ & H1).
  rewrite E.
  pose proof (print_N_nonempty (index + 1)) as Hne.
  destruct (Nat.eqb_spec (length (Libc.print_N (index + 1))) 0) as [E0|_].
  { destruct (Libc.print_N (index + 1)); [contradiction | discriminate]. }
  destruct (N.eqb_spec (index + 1) 0); [lia|].
  replace (index + 1 - 1)%N with index by lia.
  cbv zeta.
  rewrite (skip_slashes_suffix mem _ texture normal d rest H1 Hd Ht Hn).
  rewrite length_app, Nat.add_assoc. reflexivity.
Qed.

(** The vertex references of a face record as the inner loop reads
    them: the cursor ends on the newline, the vertex indices come back
    one less than written, the other numbers are dropped. *)
Lemma face_references_parsed :
  forall mem refs ref c faceIndices eol rest,
    skipn c mem
    = obj_face_reference ref
        ++ flat_map (fun r => SP :: obj_face_reference r) refs
        ++ eol ++ LF :: rest ->
    eol = [] \/ eol = [CR] ->
    Forall reference_in_range (ref :: refs) ->
    exists fuel,
      parse_face mem (length mem) fuel c faceIndices
      = Some (c + length (obj_face_reference ref
                            ++ flat_map (fun r => SP :: obj_face_reference r)
                                        refs ++ eol),
              faceIndices ++ map reference_index (ref :: refs)).
Proof.
  intros mem refs; induction refs as [|next refs IH];
    intros ref c faceIndices eol rest H Heol Hok;
    inversion Hok as [|? ? Href Hok']; subst.
  - cbn [flat_map app map] in *.
    set (c1 := c + length (obj_face_reference ref)).
    assert (H1 : skipn c1 mem = eol ++ LF :: rest)
      by (apply skipn_plus; exact H).
    exists 1.
    destruct Heol as [->| ->]; cbn [app] in *.
    + rewrite (face_reference_read mem c 0 faceIndices ref LF rest H
                 (or_intror (or_intror eq_refl)) Href).
      cbv zeta. fold c1.
      rewrite (skip_to_spec is_SP_or_LF mem [] c1 LF rest H1)
        by (constructor || reflexivity).
      cbn [length]. rewrite Nat.add_0_r.
      rewrite (peek_at _ _ _ _ H1). change (Ascii.eqb LF SP) with false.
      cbv iota. cbn [parse_face]. rewrite (peek_at _ _ _ _ H1).
      change (is_LF LF) with true. cbn [orb].
      rewrite app_nil_r. reflexivity.
    + rewrite (face_reference_read mem c 0 faceIndices ref CR (LF :: rest) H
                 (or_intror (or_introl eq_refl)) Href).
      cbv zeta. fold c1.
      rewrite (skip_to_spec is_SP_or_LF mem [CR] c1 LF rest H1)
        by (repeat constructor).
      cbn [length].
      assert (H2 : skipn (c1 + 1) mem = LF :: rest).
      { change 1 with (length [CR]). apply skipn_plus. exact H1. }
      rewrite (peek_at _ _ _ _ H2). change (Ascii.eqb LF SP) with false.
      cbv iota. cbn [parse_face]. rewrite (peek_at _ _ _ _ H2).
      change (is_LF LF) with true. cbn [orb].
      subst c1. rewrite length_app. cbn [length].
      rewrite Nat.add_assoc. reflexivity.
  - cbn [flat_map] in *.
    set (tail := flat_map (fun r => SP :: obj_face_reference r) refs) in *.
    repeat (rewrite <- app_assoc in H || rewrite <- app_comm_cons in H).
    set (c1 := c + length (obj_face_reference ref)).
    assert (H1 : skipn c1 mem
                 = SP :: obj_face_reference next ++ tail ++ eol ++ LF :: rest)
      by (apply skipn_plus; exact H).
    pose proof (skipn_S mem c1 _ _ H1) as H2.
    destruct (IH next (S c1) (faceIndices ++ [reference_index ref])
                 eol rest H2 Heol Hok') as [fuel Hrun].
    exists (S fuel).
    rewrite (face_reference_read mem c fuel faceIndices ref SP _ H
               (or_introl eq_refl) Href).
    cbv zeta. fold c1.
    rewrite (skip_to_spec is_SP_or_LF mem [] c1 SP _ H1)
      by (constructor || reflexivity).
    cbn [length]. rewrite Nat.add_0_r.
    rewrite (peek_at _ _ _ _ H1), Ascii.eqb_refl, Hrun.
    f_equal. f_equal.
    + subst c1. repeat (rewrite length_app || cbn [length]). lia.
    + cbn [map]. rewrite <- app_assoc. reflexivity.
Qed.

Section FaceRecords.

Variable Scalar : Type.
Variable strtof : list ascii -> Scalar * nat.

(** X16.  A face record whose vertex references carry texture or normal
    numbers ([f 1/2/3 4//5 6/7 8]), with the line ending LF or CR LF, is
    read in one round of [ParseChunk]: the polygon of the vertex
    numbers, each less one, is pushed, the numbers behind the slashes
    are dropped, and the cursor comes to stand behind the record. *)
Theorem face_record_with_slashes_parsed :
  forall mem c data ref refs eol rest,
    skipn c mem = obj_face_record_with (ref :: refs) eol ++ rest ->
    eol = [LF] \/ eol = [CR; LF] ->
    Forall reference_in_range (ref :: refs) ->
    ParseChunk strtof mem c (length mem) data
    = ParseChunk strtof mem
        (c + length (obj_face_record_with (ref :: refs) eol))
        (length mem)
        (push_face (map reference_index (ref :: refs)) data).
Proof.
  intros mem c data ref refs eol rest H Heol Hok.
  assert (Heol' : exists cr, (cr = [] \/ cr = [CR]) /\ eol = cr ++ [LF]).
  { destruct Heol as [->| ->];
      [exists []; split; [left|] | exists [CR]; split; [right|]];
      reflexivity. }
  destruct Heol' as (cr & Hcr & ->). clear Heol.
  unfold obj_face_record_with in *. cbn [flat_map] in *.
  change (bytes "f") with ["f"%char] in *.
  set (tail := flat_map (fun r => SP :: obj_face_reference r) refs) in *.
  repeat (rewrite <- app_assoc in H || rewrite <- app_comm_cons in H).
  cbn [app] in H.
  assert (H2 : skipn (c + 2) mem
               = obj_face_reference ref ++ tail ++ cr ++ LF :: rest).
  { change 2 with (length ["f"%char; SP]). apply skipn_plus. exact H. }
  destruct (face_references_parsed mem refs ref (c + 2) [] cr rest H2 Hcr Hok)
    as [fuel Hrun].
  apply parse_face_of_run in Hrun. fold tail in Hrun.
  set (cnl := c + 2 + length (obj_face_reference ref ++ tail ++ cr)) in *.
  assert (Hnl : skipn cnl mem = LF :: rest).
  { subst cnl. apply skipn_plus.
    repeat rewrite <- app_assoc. exact H2. }
  apply ParseChunk_step with (k := 1). intros fuel'.
  change (1 + fuel') with (S fuel').
  rewrite ParseChunk_loop_unfold.
  pose proof (skipn_lt_length _ _ _ _ H) as Hlt.
  destruct (Nat.leb_spec (length mem) c); [lia|].
  assert (Hf : peek mem c = "f"%char) by exact (peek_at _ _ _ _ H).
  rewrite Hf. change (is_LF "f") with false. cbv iota.
  change (bytes "v ") with ["v"%char; " "%char].
  change (bytes "vn ") with ["v"%char; "n"%char; " "%char].
  rewrite !starts_with_other by (rewrite Hf; reflexivity).
  cbn [orb]. cbv iota.
  rewrite (starts_with_at (bytes "f ") mem c _ H).
  cbv zeta. rewrite Hrun.
  rewrite (skip_to_spec is_LF mem [] cnl LF rest Hnl)
    by (constructor || reflexivity).
  cbn [length]. rewrite Nat.add_0_r.
  pose proof (skipn_lt_length _ _ _ _ Hnl) as Hltnl.
  destruct (Nat.ltb_spec cnl (length mem)); [|lia].
  cbn [app]. f_equal.
  subst cnl. repeat (rewrite length_app || cbn [length]). lia.
Qed.

End FaceRecords.

(** X16, witness: the record [f 1/2/3 4//5 6/7 8] behind a vertex
    record. *)
Lemma face_record_with_slashes_parsed_witness :
  let refs := [(0, Some 2, Some 3); (3, None, Some 5); (5, Some 7, None);
               (7, None, None)]%N in
  let mem := text ["v 1 2 3"] ++ obj_face_record_with refs [LF]
               ++ text ["v 4 5 6"] in
  ParseChunk IntScalar.strtof mem 8 (length mem) emptyChunk
  = ParseChunk IntScalar.strtof mem
      (8 + length (obj_face_record_with refs [LF])) (length mem)
      (push_face [0; 3; 5; 7]%N emptyChunk).
Proof.
  cbv zeta.
  apply (face_record_with_slashes_parsed
           Z IntScalar.strtof
           (text ["v 1 2 3"]
              ++ obj_face_record_with
                   [(0, Some 2, Some 3); (3, None, Some 5);
                    (5, Some 7, None); (7, None, None)]%N [LF]
              ++ text ["v 4 5 6"])
           8 emptyChunk (0, Some 2, Some 3)%N
           [(3, None, Some 5); (5, Some 7, None); (7, None, None)]%N
           [LF] (text ["v 4 5 6"])).
  - reflexivity.
  - left; reflexivity.
  - repeat constructor; cbv; discriminate.
Defined.

(* ===================================================================== *)
(** ** The sampled export *)
(* ===================================================================== *)

Section SampledExport.

Variable Scalar : Type.
Variable print_scalar : Scalar -> list ascii.
Variable ExtractLowercaseFileExtensionFromPath : string -> string.
Variable Gen : Type.
Variable mt19937_seed : N -> Gen.
Variable uniform_int : Z -> Z -> Gen -> Z * Gen.

(** [std::uniform_int_distribution<>(a, b)] draws from [a, b]. *)
Hypothesis uniform_int_range :
  forall a b gen, (a <= b)%Z -> (a <= fst (uniform_int a b gen) <= b)%Z.

Lemma sample_indices_in_range :
  forall b nVerts gen,
    (0 <= b < 18446744073709551616)%Z ->
    length (sample_indices uniform_int b nVerts gen) = nVerts
    /\ Forall (fun idx => (Z.of_nat idx <= b)%Z)
              (sample_indices uniform_int b nVerts gen).
Proof using uniform_int_range.
  intros b nVerts; induction nVerts as [|n IH]; intros gen Hb;
    cbn [sample_indices].
  - split; [reflexivity | constructor].
  - pose proof (uniform_int_range 0 b gen (proj1 Hb)) as Hi.
    destruct (uniform_int 0 b gen) as [i gen']. cbn [fst] in Hi.
    destruct (IH gen' Hb) as [Hlen Hall].
    split; [cbn [length]; rewrite Hlen; reflexivity|].
    constructor; [|exact Hall].
    unfold to_size_t. rewrite Z.mod_small by lia.
    rewrite Z2Nat.id by lia. lia.
Qed.

Lemma sampled_lines_in_range :
  forall (vertices : list (vec3 Scalar)) indices,
    Forall (fun idx => idx < length vertices) indices ->
    exists sampled,
      length sampled = length indices
      /\ Forall (fun vertex => In vertex vertices) sampled
      /\ sampled_lines print_scalar vertices indices
         = Some (flat_map (coords print_scalar " ") sampled).
Proof.
  intros vertices indices; induction indices as [|idx rest IH];
    intros Hall; cbn [sampled_lines].
  - exists []. repeat split. constructor.
  - inversion Hall as [|? ? Hidx Hrest]; subst.
    destruct (IH Hrest) as (sampled & Hlen & Hin & ->).
    destruct (nth_error vertices idx) as [vertex|] eqn:E.
    + exists (vertex :: sampled). split; [cbn; lia|]. split.
      * constructor; [|exact Hin]. eapply nth_error_In; exact E.
      * reflexivity.
    + apply nth_error_None in E. lia.
Qed.

(** X17.  On a vertex buffer that is not empty and holds at most 2^31
    vertices, with a path of extension [ply] that opens for writing,
    [ExportSampledVerticesToPLY] reads no vertex outside the buffer: it
    returns true and leaves in the file a header announcing [nVerts]
    vertices and [nVerts] lines, each the coordinates of a vertex of the
    buffer.  On an empty buffer the bounds of the distribution are 0 and
    -1 and the behaviour is undefined. *)
Theorem sampled_export_stays_in_buffer :
  (forall (meshData : BaseMeshGeometryData Scalar) nVerts absFileName
          seed w,
      ExtractLowercaseFileExtensionFromPath absFileName = "ply" ->
      can_write w absFileName = true ->
      Vertices meshData <> [] ->
      (Z.of_nat (length (Vertices meshData)) <= 2147483648)%Z ->
      exists w' sampled,
        ExportSampledVerticesToPLY print_scalar
          ExtractLowercaseFileExtensionFromPath mt19937_seed uniform_int
          meshData nVerts absFileName seed w = Returns (true, w')
        /\ length sampled = nVerts
        /\ Forall (fun vertex => In vertex (Vertices meshData)) sampled
        /\ files w' absFileName
           = Some (to_text_mode true
                     (ply_header (N.of_nat nVerts)
                        ++ flat_map (coords print_scalar " ") sampled)))
  /\ (forall (meshData : BaseMeshGeometryData Scalar) nVerts absFileName
             seed w,
         ExtractLowercaseFileExtensionFromPath absFileName = "ply" ->
         can_write w absFileName = true ->
         Vertices meshData = [] ->
         ExportSampledVerticesToPLY print_scalar
           ExtractLowercaseFileExtensionFromPath mt19937_seed uniform_int
           meshData nVerts absFileName seed w = Undefined).
Proof using uniform_int_range.
  split.
  - intros meshData nVerts path seed w Hext Hcw Hne Hsize.
    unfold ExportSampledVerticesToPLY, open_write.
    rewrite Hext. change (negb ("ply" =? "ply")%string) with false.
    cbv iota. rewrite can_write_log, Hcw. cbn [negb].
    assert (Hpos : 0 < length (Vertices meshData))
      by (destruct (Vertices meshData); [contradiction | cbn; lia]).
    assert (Hb : to_int (Z.of_nat (length (Vertices meshData)) - 1)
                 = (Z.of_nat (length (Vertices meshData)) - 1)%Z).
    { unfold to_int. rewrite Z.mod_small by lia. lia. }
    rewrite Hb.
    destruct (Z.ltb_spec (Z.of_nat (length (Vertices meshData)) - 1) 0);
      [lia|].
    rewrite can_write_log, can_write_write_file, can_write_log, Hcw.
    cbn [negb]. unfold sampled_indices. rewrite Hb.
    destruct (sample_indices_in_range
                (Z.of_nat (length (Vertices meshData)) - 1) nVerts
                (sampling_generator mt19937_seed seed
                   (write_file path [] (log (OpenWrite path) w))))
      as [Hlen Hall]; [lia|].
    set (indices := sample_indices uniform_int _ nVerts _) in *.
    destruct (sampled_lines_in_range (Vertices meshData) indices) as
      (sampled & Hslen & Hin & ->).
    { eapply Forall_impl; [|exact Hall]. intros idx Hidx.
      cbv beta in Hidx. lia. }
    eexists _, sampled. split; [reflexivity|].
    split; [congruence|]. split; [exact Hin|]. apply files_write_text.
  - intros meshData nVerts path seed w Hext Hcw Hempty.
    unfold ExportSampledVerticesToPLY, open_write.
    rewrite Hext. change (negb ("ply" =? "ply")%string) with false.
    cbv iota. rewrite can_write_log, Hcw, Hempty. reflexivity.
Qed.

End SampledExport.

Lemma lcg_uniform_range :
  forall a b gen,
    (a <= b)%Z -> (a <= fst (Instances.lcg_uniform a b gen) <= b)%Z.
Proof.
  intros a b gen Hab. unfold Instances.lcg_uniform. cbn [fst].
  pose proof (Z.mod_pos_bound (Z.of_N gen) (b - a + 1) ltac:(lia)). lia.
Qed.

(** X17, witness: five samples of a buffer of two vertices. *)
Lemma sampled_export_stays_in_buffer_witness :
  let ext := Utils.ExtractLowercaseFileExtensionFromPath in
  let g := mkGeom [(1, 2, 3); (4, 5, -6)]%Z [] [] in
  let w := Instances.world_of [] 1 11 in
  exists w' sampled,
    ExportSampledVerticesToPLY IntScalar.print ext Instances.lcg_seed
      Instances.lcg_uniform g 5 "s.ply" None w = Returns (true, w')
    /\ length sampled = 5
    /\ Forall (fun vertex => In vertex (Vertices g)) sampled
    /\ files w' "s.ply"
       = Some (to_text_mode true
                 (ply_header 5
                    ++ flat_map (coords IntScalar.print " ") sampled)).
Proof.
  cbv zeta.
  apply (proj1 (sampled_export_stays_in_buffer
                  Z IntScalar.print
                  Utils.ExtractLowercaseFileExtensionFromPath
                  N Instances.lcg_seed Instances.lcg_uniform
                  lcg_uniform_range)
               (mkGeom [(1, 2, 3); (4, 5, -6)]%Z [] []) 5 "s.ply" None
               (Instances.world_of [] 1 11)).
  - reflexivity.
  - reflexivity.
  - discriminate.
  - cbn. lia.
Defined.

(* ===================================================================== *)
(** ** The polyline export *)
(* ===================================================================== *)

(** X18.  [ExportPolylinesToOBJ] advances its vertex counter only past
    polylines of two points or more.  When no polyline consists of a
    single point, the segment records it writes join, polyline by
    polyline, vertices that follow each other among the [v] records of
    the file.  A polyline of a single point leaves the counter on that
    point: the first segment record of a longer polyline behind it joins
    the single point to the first vertex of that polyline. *)
Theorem polyline_segments_follow_vertex_records :
  forall (Scalar : Type),
    (forall (polylines : list (list (vec3 Scalar))) indexOffset,
        Forall (fun polyline => length polyline <> 1) polylines ->
        polyline_connections polylines indexOffset
        = segments_by_vertex_number polylines indexOffset)
    /\ (forall (point : vec3 Scalar) polyline rest indexOffset,
           2 <= length polyline ->
           exists text,
             polyline_connections ([point] :: polyline :: rest) indexOffset
             = bytes "l " ++ print_nat indexOffset ++ [SP]
                 ++ print_nat (indexOffset + 1) ++ [LF] ++ text).
Proof.
  intros Scalar. split.
  - intros polylines; induction polylines as [|polyline rest IH];
      intros indexOffset Hall;
      cbn [polyline_connections segments_by_vertex_number];
      [reflexivity|].
    inversion Hall as [|? ? Hlen Hrest]; subst.
    destruct (Nat.ltb_spec (length polyline) 2) as [Hshort|_].
    + assert (E : length polyline = 0) by lia. rewrite E.
      cbn [Nat.sub polyline_segments app]. rewrite Nat.add_0_r.
      apply IH; exact Hrest.
    + rewrite IH by exact Hrest. reflexivity.
  - intros point polyline rest indexOffset Hlen.
    cbn [polyline_connections length].
    change (1 <? 2) with true. cbv iota.
    destruct (Nat.ltb_spec (length polyline) 2) as [|_]; [lia|].
    destruct (length polyline - 1) as [|n] eqn:En; [lia|].
    cbn [polyline_segments Nat.add].
    eexists. repeat rewrite <- app_assoc. reflexivity.
Qed.

(** X18, witness: a triangle line and a segment. *)
Lemma polyline_segments_follow_vertex_records_witness :
  let polylines :=
    [[(0, 0, 0); (1, 0, 0); (1, 1, 0)]; [(5, 5, 5); (6, 6, 6)]]%Z in
  polyline_connections polylines 1 = segments_by_vertex_number polylines 1
  /\ polyline_connections polylines 1
     = text ["l 1 2"; "l 2 3"; "l 4 5"].
Proof.
  cbv zeta. split; [|reflexivity].
  apply (proj1 (polyline_segments_follow_vertex_records Z)).
  repeat constructor; discriminate.
Defined.
